(** * Text2Excel: normalizer, chunker, extraction orchestrator, projector

    A shallow embedding of [utils/text_extractor.py] and [utils/parser.py].
    Python strings are sequences of Unicode code points, Python integers are
    unbounded: a string is a [list N], an integer is a [Z]. *)

From Stdlib Require Import List ZArith NArith Lia Bool Sorted.
From Stdlib Require String Ascii.
Import String.StringSyntax.
From Stdlib Require Import Numbers.DecimalString Numbers.DecimalPos.
Import ListNotations.

Open Scope Z_scope.

(** ** Python strings *)

Module Str.

Definition str := list N.

Definition LF : N := 10%N.
Definition CR : N := 13%N.
Definition TAB : N := 9%N.
Definition SP : N := 32%N.

(** An ASCII literal as a Python string. *)
Definition lit (s : String.string) : str :=
  map Ascii.N_of_ascii (String.list_ascii_of_string s).
Arguments lit s%_string_scope.

(** [len(s)] *)
Definition len {A} (s : list A) : Z := Z.of_nat (length s).

(** [str(n)] for an integer [n]. *)
Definition str_of_Z (n : Z) : str := lit (NilEmpty.string_of_int (Z.to_int n)).

(** [c.isspace()]: the white-space code points of CPython. *)
Definition isspace (c : N) : bool :=
  ((9 <=? c) && (c <=? 13) || (28 <=? c) && (c <=? 32) || (c =? 133) || (c =? 160)
   || (c =? 5760) || (8192 <=? c) && (c <=? 8202) || (c =? 8232) || (c =? 8233)
   || (c =? 8239) || (c =? 8287) || (c =? 12288))%N.

Fixpoint dropwhile {A} (f : A -> bool) (s : list A) : list A :=
  match s with
  | [] => []
  | c :: r => if f c then dropwhile f r else s
  end.

(** [s.lstrip()], [s.rstrip()], [s.strip()] *)
Definition lstrip (s : str) : str := dropwhile isspace s.
Definition rstrip (s : str) : str := rev (dropwhile isspace (rev s)).
Definition strip (s : str) : str := rstrip (lstrip s).

(** Python truth value of a string or of a list: non-empty. *)
Definition truthy {A} (s : list A) : bool :=
  match s with [] => false | _ :: _ => true end.

(** [sep.join(l)] *)
Fixpoint join (sep : str) (l : list str) : str :=
  match l with
  | [] => []
  | x :: r => match r with [] => x | _ :: _ => x ++ sep ++ join sep r end
  end.

Definition cons_head (c : N) (l : list str) : list str :=
  match l with
  | [] => [[c]]
  | h :: t => (c :: h) :: t
  end.

(** [s.split('\n')] *)
Fixpoint split_lines (s : str) : list str :=
  match s with
  | [] => [[]]
  | c :: r => if (c =? LF)%N then [] :: split_lines r else cons_head c (split_lines r)
  end.

(** [s.split('\n\n')]: the separators are found from the left and do not
    overlap. *)
Fixpoint split_para (s : str) : list str :=
  match s with
  | [] => [[]]
  | c :: r =>
      match r with
      | d :: r' =>
          if ((c =? LF) && (d =? LF))%N then [] :: split_para r'
          else cons_head c (split_para r)
      | [] => [[c]]
      end
  end.

(** [enumerate(l)] *)
Fixpoint enumerate_from {A} (i : Z) (l : list A) : list (Z * A) :=
  match l with
  | [] => []
  | x :: r => (i, x) :: enumerate_from (i + 1) r
  end.

Definition enumerate {A} (l : list A) : list (Z * A) := enumerate_from 0 l.

(** [s[:n]] and [s[n:]] for [n >= 0] *)
Definition prefix (n : nat) (s : str) : str := firstn n s.
Definition suffix_from (n : nat) (s : str) : str := skipn n s.

Fixpoint str_eqb (a b : str) : bool :=
  match a, b with
  | [], [] => true
  | x :: a', y :: b' => (x =? y)%N && str_eqb a' b'
  | _, _ => false
  end.

(** [s.startswith(p)] *)
Fixpoint startswith (p s : str) : bool :=
  match p, s with
  | [], _ => true
  | x :: p', y :: s' => (x =? y)%N && startswith p' s'
  | _ :: _, [] => false
  end.

(** [p in s] for strings *)
Fixpoint contains (p s : str) : bool :=
  startswith p s || match s with [] => false | _ :: r => contains p r end.

(** [s.split(sep)] for a non-empty separator; [skip] counts the characters
    of a separator just found that are still to be passed over. *)
Fixpoint split_skip (sep : str) (skip : nat) (s : str) : list str :=
  match s with
  | [] => [[]]
  | c :: r =>
      match skip with
      | S k => split_skip sep k r
      | O =>
          if startswith sep s then
            match length sep with
            | S k => [] :: split_skip sep k r
            | O => [[]]
            end
          else cons_head c (split_skip sep 0 r)
      end
  end.

Definition split (sep s : str) : list str := split_skip sep 0 s.

End Str.

Import Str.

(** ** The chunker ([preprocess_and_chunk]) *)

Module Chunker.

Record chunk := mk_chunk {
  text : str;
  doc_id : str;
  paragraph_index : Z;
  offset : Z
}.

(** The local variables of the loop over the paragraphs. *)
Record loop_state := mk_state {
  chunks : list chunk;
  current_chunk : list str;
  current_length : Z;
  char_offset : Z;
  paragraph_start_index : Z
}.

Definition NN : str := [LF; LF].

Definition init : loop_state := mk_state [] [] 0 0 0.

(** The paragraphs of a text:
    [[p.strip() for p in text.split('\n\n') if p.strip()]] *)
Definition paragraphs (text : str) : list str :=
  map strip (filter (fun p => truthy (strip p)) (split_para text)).

(** One iteration of [for para_idx, para in enumerate(paragraphs)]. *)
Definition step (doc : str) (chunk_size : Z) (st : loop_state) (ip : Z * str)
  : loop_state :=
  let '(para_idx, para) := ip in
  let para_len := len para in
  let st1 :=
    if (current_length st + para_len >? chunk_size) && truthy (current_chunk st)
    then
      let chunk_text := join NN (current_chunk st) in
      let chunks' :=
        chunks st ++ [mk_chunk chunk_text doc (paragraph_start_index st) (char_offset st)] in
      if 1 <? len (current_chunk st) then
        let kept := last (current_chunk st) [] in
        mk_state chunks' [kept] (len kept) (char_offset st) (para_idx - 1)
      else
        mk_state chunks' [] 0 (char_offset st) para_idx
    else st in
  mk_state (chunks st1)
           (current_chunk st1 ++ [para])
           (current_length st1 + para_len)
           (char_offset st1 + (para_len + 2))
           (paragraph_start_index st1).

Definition loop (doc : str) (chunk_size : Z) (ps : list str) : loop_state :=
  fold_left (step doc chunk_size) (enumerate ps) init.

(** The chunk list after the loop, with the remaining buffer added. *)
Definition finish (doc : str) (st : loop_state) : list chunk :=
  if truthy (current_chunk st) then
    chunks st ++ [mk_chunk (join NN (current_chunk st)) doc
                           (paragraph_start_index st) (char_offset st)]
  else chunks st.

Definition preprocess_and_chunk (text : str) (doc : str) (chunk_size : Z) (overlap : Z)
  : list chunk :=
  let text := strip text in
  let cs := finish doc (loop doc chunk_size (paragraphs text)) in
  if truthy cs then cs else [mk_chunk text doc 0 0].

End Chunker.

Import Chunker.

(** ** The normalizer ([normalize_text]) *)

Module Normalizer.

(** [text.replace('\r\n', '\n')] *)
Fixpoint replace_crlf (s : str) : str :=
  match s with
  | [] => []
  | c :: r =>
      match r with
      | d :: r' =>
          if ((c =? CR) && (d =? LF))%N then LF :: replace_crlf r'
          else c :: replace_crlf r
      | [] => [c]
      end
  end.

(** [text.replace('\r', '\n')] *)
Definition replace_cr (s : str) : str :=
  map (fun c => if (c =? CR)%N then LF else c) s.

Definition is_blank (c : N) : bool := ((c =? SP) || (c =? TAB))%N.

(** [re.sub(r'[ \t]+', ' ', line)]: every maximal run of spaces and tabs
    becomes one space (only the last character of a run emits it). *)
Fixpoint collapse_blanks (s : str) : str :=
  match s with
  | [] => []
  | c :: r =>
      if is_blank c then
        match r with
        | d :: _ => if is_blank d then collapse_blanks r else SP :: collapse_blanks r
        | [] => [SP]
        end
      else c :: collapse_blanks r
  end.

(** Three line feeds start here. *)
Definition triple_lf (s : str) : bool :=
  match s with
  | c :: d :: e :: _ => ((c =? LF) && (d =? LF) && (e =? LF))%N
  | _ => false
  end.

(** [re.sub(r'\n{3,}', '\n\n', text)]: of every maximal run of three or more
    line feeds the last two remain. *)
Fixpoint collapse_newlines (s : str) : str :=
  match s with
  | [] => []
  | c :: r => if triple_lf s then collapse_newlines r else c :: collapse_newlines r
  end.

Section Unicode.

(** The Unicode tables are those of the Python run time, not of the
    repository: [unicodedata.normalize('NFKC', _)] and [str.isprintable]
    beyond ASCII are parameters. *)
Variable nfkc : str -> str.
Variable printable_wide : N -> bool.

(** [c.isprintable()]: in ASCII, the characters from the space to the tilde. *)
Definition isprintable (c : N) : bool :=
  if (c <? 128)%N then ((32 <=? c) && (c <? 127))%N else printable_wide c.

(** [char.isprintable() or char in '\n\t\r'] *)
Definition keep (c : N) : bool :=
  isprintable c || ((c =? LF) || (c =? TAB) || (c =? CR))%N.

Definition normalize_text (text : str) : str :=
  let text := nfkc text in
  let text := filter keep text in
  let text := replace_cr (replace_crlf text) in
  let lines := split_lines text in
  let lines := map (fun line => collapse_blanks (strip line)) lines in
  let text := join [LF] lines in
  let text := collapse_newlines text in
  strip text.

End Unicode.

End Normalizer.

Import Normalizer.

(** A fragment of the Unicode tables, enough for the sample texts: ASCII,
    the full-width forms U+FF01..U+FF5E, the no-break and ideographic spaces,
    and the letter a with the combining acute accent U+0301 (which compose
    to U+00E1 when adjacent). *)
Module UnicodeSample.

Definition compat (c : N) : N :=
  (if (65281 <=? c) && (c <=? 65374) then c - 65248
   else if (c =? 160) || (c =? 12288) then 32
   else c)%N.

Fixpoint compose (s : str) : str :=
  match s with
  | [] => []
  | c :: r =>
      match r with
      | d :: r' =>
          if ((c =? 97) && (d =? 769))%N then 225%N :: compose r'
          else c :: compose r
      | [] => [c]
      end
  end.

Definition nfkc (s : str) : str := compose (map compat s).

Definition printable_wide (c : N) : bool :=
  ((c =? 225) || (c =? 769) || (65281 <=? c) && (c <=? 65374))%N.

End UnicodeSample.

(** ** The extraction orchestrator and the projector *)

Module Orchestrator.

(** What [json.loads] returns. A float is kept as its text, with whether it
    is zero. *)
#[local] Set Warnings "-register-all".
Inductive json :=
| JNull
| JBool (b : bool)
| JInt (n : Z)
| JFloat (zero : bool) (repr : str)
| JStr (s : str)
| JArr (items : list json)
| JObj (fields : list (str * json)).

(** A Python [dict] with string keys, in insertion order. *)
Definition dict := list (str * json).

Fixpoint dict_get (k : str) (d : dict) : option json :=
  match d with
  | [] => None
  | (k', v) :: r => if str_eqb k k' then Some v else dict_get k r
  end.

(** [d.get(k, default)] *)
Definition get_default (d : dict) (k : str) (default : json) : json :=
  match dict_get k d with Some v => v | None => default end.

(** [d[k] = v] *)
Fixpoint dict_set (k : str) (v : json) (d : dict) : dict :=
  match d with
  | [] => [(k, v)]
  | (k', v') :: r => if str_eqb k k' then (k, v) :: r else (k', v') :: dict_set k v r
  end.

(** Python truth value. *)
Definition truth (v : json) : bool :=
  match v with
  | JNull => false
  | JBool b => b
  | JInt n => negb (n =? 0)
  | JFloat zero _ => negb zero
  | JStr s => truthy s
  | JArr l => truthy l
  | JObj d => truthy d
  end.

(** [isinstance(v, list)] *)
Definition is_list (v : json) : bool :=
  match v with JArr _ => true | _ => false end.

Definition COLON : str := lit ":".

(** [':' in v]; [None] where Python raises [TypeError]. *)
Definition colon_in (v : json) : option bool :=
  match v with
  | JStr s => Some (contains COLON s)
  | JArr l => Some (existsb (fun x => match x with JStr s => str_eqb COLON s | _ => false end) l)
  | JObj d => Some (existsb (fun kv => str_eqb COLON (fst kv)) d)
  | _ => None
  end.

(** The variable parts of the prompt sent with a chunk. *)
Record request := mk_request {
  req_doc_id : str;
  req_paragraph_index : Z;
  req_text : str;
  req_keys : option (list str)
}.

(** What a library call raises: [json.JSONDecodeError], or another
    [Exception]; each with [str(e)]. *)
Inductive lib_error :=
| DecodeError (msg : str)
| OtherError (msg : str).

(** The outcome of the call to the model: an exception, a response whose
    [text] is a string or [None], or a response without [text] (then
    [str(response)] is used). *)
Inductive reply :=
| Fails (e : lib_error)
| Answer (text : option str)
| NoText (repr : str).

(** What the module raises. *)
Inductive raised :=
| ValueError (msg : str)
| PlainException (msg : str).

Inductive outcome (A : Type) :=
| Ok (a : A)
| Raise (e : raised).
Arguments Ok {A} a.
Arguments Raise {A} e.

(** The effects: the requests sent to the model and the logged warnings. *)
Record world := mk_world {
  calls : list request;
  warnings : list str
}.

Definition M (A : Type) : Type := world -> outcome A * world.

Definition ret {A} (a : A) : M A := fun w => (Ok a, w).

Definition raise {A} (e : raised) : M A := fun w => (Raise e, w).

Definition bind {A B} (m : M A) (k : A -> M B) : M B :=
  fun w => match m w with
           | (Ok a, w') => k a w'
           | (Raise e, w') => (Raise e, w')
           end.

Definition log_warning (msg : str) : M unit :=
  fun w => (Ok tt, mk_world (calls w) (warnings w ++ [msg])).

Definition FENCE : str := lit "```".

(** The fenced code block is removed from the response. *)
Definition strip_fence (response_text : str) : str :=
  if startswith FENCE response_text then
    let parts := split FENCE response_text in
    let response_text :=
      if 2 <=? len parts then
        let response_text := nth 1 parts [] in
        if startswith (lit "json") response_text then suffix_from 4 response_text
        else response_text
      else response_text in
    strip response_text
  else response_text.

(** The default provenance:
    [f"{doc_id}:{paragraph_index}:0-{len(chunk_text)}"] *)
Definition default_provenance (doc_id : str) (paragraph_index : Z) (chunk_text : str) : str :=
  doc_id ++ lit ":" ++ str_of_Z paragraph_index ++ lit ":0-" ++ str_of_Z (len chunk_text).

Definition PROVENANCE : str := lit "provenance".

(** The message of the [ValueError] raised for an undecodable response. *)
Definition decode_failure (response_text : option str) (msg : str) : raised :=
  let error_text :=
    match response_text with
    | Some t => if truthy t then prefix 500 t else lit "No response received"
    | None => lit "No response received"
    end in
  ValueError (lit "Failed to parse JSON response from Gemini API. Response: "
              ++ error_text ++ [LF] ++ lit "Error: " ++ msg).

Definition invalid_key_message : str :=
  lit "Invalid Gemini API key. Please check your API key and try again." ++ [LF; LF]
  ++ lit "To get a valid API key:" ++ [LF]
  ++ lit "1. Go to https://aistudio.google.com/app/apikey" ++ [LF]
  ++ lit "2. Create or copy your API key" ++ [LF]
  ++ lit "3. Paste it in the sidebar".

(** [except Exception as e] *)
Definition other_failure (error_msg : str) : raised :=
  if contains (lit "API key not valid") error_msg
     || contains (lit "API_KEY_INVALID") error_msg
  then ValueError invalid_key_message
  else if contains (lit "INVALID_ARGUMENT") error_msg
  then ValueError (lit "Invalid API request: " ++ error_msg)
  else PlainException (lit "Gemini API call failed: " ++ error_msg).

(** The two [except] clauses. *)
Definition handle (response_text : option str) (e : lib_error) : raised :=
  match e with
  | DecodeError msg => decode_failure response_text msg
  | OtherError msg => other_failure msg
  end.

Definition empty_warning (doc_id : str) (paragraph_index : Z) (chunk_text : str) : str :=
  lit "Gemini returned empty/invalid extraction for " ++ doc_id ++ lit ":para_"
  ++ str_of_Z paragraph_index ++ lit ". Text preview: " ++ prefix 200 chunk_text
  ++ lit "...".

Section External.

(** The model (its reply to the [n]-th request of the run), [json.loads]
    (the decoded value, or the text of the [JSONDecodeError]) and the texts
    of the run time's [AttributeError] and [TypeError]. *)
Variable gemini : nat -> request -> reply.
Variable json_loads : str -> json + str.
Variable attribute_error : json -> str.
Variable type_error : json -> str.

(** The body of [for item in extractions]. *)
Definition backfill_item (doc_id : str) (paragraph_index : Z) (chunk_text : str)
    (item : json) : dict + lib_error :=
  match item with
  | JObj d =>
      let fill := dict_set PROVENANCE
                    (JStr (default_provenance doc_id paragraph_index chunk_text)) d in
      if negb (truth (get_default d PROVENANCE JNull)) then inl fill
      else
        match colon_in (get_default d PROVENANCE (JStr [])) with
        | Some found => if negb found then inl fill else inl d
        | None => inr (OtherError (type_error (get_default d PROVENANCE (JStr []))))
        end
  | _ => inr (OtherError (attribute_error item))
  end.

Fixpoint backfill (doc_id : str) (paragraph_index : Z) (chunk_text : str)
    (items : list json) : list dict + lib_error :=
  match items with
  | [] => inl []
  | item :: rest =>
      match backfill_item doc_id paragraph_index chunk_text item with
      | inl d =>
          match backfill doc_id paragraph_index chunk_text rest with
          | inl ds => inl (d :: ds)
          | inr e => inr e
          end
      | inr e => inr e
      end
  end.

(** From the response text on. *)
Definition decode_and_validate (doc_id : str) (paragraph_index : Z) (chunk_text : str)
    (response_text : str) : M (list dict) :=
  let response_text := strip response_text in
  let response_text := strip_fence response_text in
  match json_loads response_text with
  | inr msg => raise (handle (Some response_text) (DecodeError msg))
  | inl extractions =>
      if negb (truth extractions) || negb (is_list extractions) then
        bind (log_warning (empty_warning doc_id paragraph_index chunk_text))
             (fun _ => ret [])
      else
        match extractions with
        | JArr items =>
            match backfill doc_id paragraph_index chunk_text items with
            | inl ds => ret ds
            | inr e => raise (handle (Some response_text) e)
            end
        | _ => ret []
        end
  end.

Definition extract_with_gemini (chunk_text : str) (doc_id : str) (paragraph_index : Z)
    (char_offset : Z) (custom_keys : option (list str)) (api_key : str)
  : M (list dict) :=
  fun w =>
    let req := mk_request doc_id paragraph_index chunk_text custom_keys in
    let w1 := mk_world (calls w ++ [req]) (warnings w) in
    match gemini (length (calls w)) req with
    | Fails e => (Raise (handle None e), w1)
    | Answer text =>
        decode_and_validate doc_id paragraph_index chunk_text
          (match text with Some t => t | None => [] end) w1
    | NoText repr =>
        decode_and_validate doc_id paragraph_index chunk_text repr w1
    end.

(** ** The projector ([convert_to_three_columns]) *)

Definition project (item : dict) : dict :=
  let key := get_default item (lit "key") (JStr (lit "unknown_key")) in
  let value := get_default item (lit "value") (JStr []) in
  let comments := get_default item (lit "comments") (JStr []) in
  [(lit "key", key); (lit "value", value); (lit "comments", comments)].

Definition convert_to_three_columns (extractions : list dict) : list dict :=
  fold_left (fun final_rows item => final_rows ++ [project item]) extractions [].

(** [for chunk_data in chunks: ... all_extractions.extend(extracted)] *)
Fixpoint extract_chunks (custom_keys : option (list str)) (api_key : str)
    (chunks : list chunk) (all_extractions : list dict) : M (list dict) :=
  match chunks with
  | [] => ret all_extractions
  | chunk_data :: rest =>
      bind (extract_with_gemini (text chunk_data) (doc_id chunk_data)
              (paragraph_index chunk_data) (offset chunk_data) custom_keys api_key)
           (fun extracted =>
              extract_chunks custom_keys api_key rest (all_extractions ++ extracted))
  end.

Definition parse_key_value_pairs (text : str) (api_key : str)
    (custom_keys : option (list str)) (extraction_method : str) (doc_id : str)
  : M (list dict) :=
  if negb (truthy api_key) then
    raise (ValueError (lit "Google Gemini API key is required"))
  else
    let chunks := preprocess_and_chunk text doc_id 2000 200 in
    bind (extract_chunks custom_keys api_key chunks [])
         (fun all_extractions => ret (convert_to_three_columns all_extractions)).

End External.

End Orchestrator.

Import Orchestrator.

(** ** Specification vocabulary for the chunker *)

Module ChunkSpec.

(** Sum of the paragraph lengths of a buffer. *)
Definition total_len (g : list str) : Z := fold_right (fun p a => len p + a) 0 g.

(** Characters consumed by the loop after the paragraphs [ps]: every
    paragraph counts with its separator. *)
Definition consumed (ps : list str) : Z := fold_right (fun p a => len p + 2 + a) 0 ps.

(** A chunk before its paragraphs are joined. *)
Record raw := mk_raw { group : list str; start : Z; off : Z }.

Definition to_chunk (doc : str) (r : raw) : chunk :=
  mk_chunk (join NN (group r)) doc (start r) (off r).

(** The paragraphs of a chunk sequence with the overlap removed: a chunk that
    follows one of more than one paragraph starts with a copy of that
    chunk's last paragraph. *)
Fixpoint novel (prev : list str) (gs : list (list str)) : list str :=
  match gs with
  | [] => []
  | g :: rest => (if 1 <? len prev then tl g else g) ++ novel g rest
  end.

Definition reassemble (gs : list (list str)) : list str := novel [] gs.

(** Number of paragraphs that two successive chunks share. *)
Definition shared (r r' : raw) : Z := start r + len (group r) - start r'.

(** White-space only (or empty). *)
Definition blank (s : str) : bool := forallb isspace s.

(** No white space at either end. *)
Definition clean (s : str) : Prop := lstrip s = s /\ rstrip s = s.

(** No paragraph separator inside. *)
Fixpoint nn_free (s : str) : bool :=
  match s with
  | [] => true
  | c :: r =>
      match r with
      | [] => true
      | d :: _ => negb ((c =? LF) && (d =? LF))%N && nn_free r
      end
  end.

(** What a paragraph of a text looks like. *)
Definition para_ok (p : str) : Prop := p <> [] /\ clean p /\ nn_free p = true.

(** The paragraphs that a chunk holds, read back from its text. *)
Definition chunk_paragraphs (c : chunk) : list str := paragraphs (text c).

(** Paragraphs shared by two successive chunks, from their paragraph indices. *)
Definition overlap_of (c c' : chunk) : Z :=
  paragraph_index c + len (chunk_paragraphs c) - paragraph_index c'.

(** A closed chunk is a non-empty run of consecutive paragraphs, tagged with
    the index of its first paragraph and with the characters consumed up to
    its last one. *)
Definition group_ok (done : list str) (r : raw) : Prop :=
  group r <> [] /\
  exists a b, done = a ++ group r ++ b /\ start r = len a /\
              off r = consumed (a ++ group r).

Definition small (chunk_size : Z) (g : list str) : Prop := total_len g <= chunk_size \/ len g <= 2.

(** Successive chunks share the last paragraph of the earlier one when it has
    more than one paragraph, and nothing otherwise. *)
Fixpoint linked (rs : list raw) : Prop :=
  match rs with
  | [] => True
  | r :: rest =>
      match rest with
      | [] => True
      | r' :: _ => shared r r' = (if 1 <? len (group r) then 1 else 0) /\ linked rest
      end
  end.

(** The invariant of the loop, after the paragraphs [done]; [raws] are the
    chunks closed so far. *)
Record Inv (doc : str) (chunk_size : Z)
    (done : list str) (raws : list raw) (st : loop_state) : Prop := {
  inv_chunks : chunks st = map (to_chunk doc) raws;
  inv_buffer : exists pre,
      done = pre ++ current_chunk st /\ paragraph_start_index st = len pre;
  inv_length : current_length st = total_len (current_chunk st);
  inv_offset : char_offset st = consumed done;
  inv_empty : current_chunk st = [] -> done = [] /\ raws = [];
  inv_cover : reassemble (map group raws ++ [current_chunk st]) = done;
  inv_groups : Forall (group_ok done) raws;
  inv_small : Forall (small chunk_size) (map group raws ++ [current_chunk st]);
  inv_linked :
    linked (raws ++ [mk_raw (current_chunk st) (paragraph_start_index st) (char_offset st)])
}.

End ChunkSpec.

Import ChunkSpec.

(** ** Specification vocabulary for the normalizer *)

Module NormSpec.

(** What [normalize_text] does to a line. *)
Definition norm_line (line : str) : str := collapse_blanks (strip line).

(** [normalize_text] from the splitting into lines on. *)
Definition tidy_lines (text : str) : str :=
  strip (collapse_newlines (join [LF] (map norm_line (split_lines text)))).

(** [normalize_text] after the Unicode steps. *)
Definition tidy (text : str) : str :=
  tidy_lines (replace_cr (replace_crlf text)).

(** A line in normal form. *)
Definition normal_line (l : str) : Prop := clean l /\ collapse_blanks l = l.

(** No three line feeds in a row. *)
Fixpoint no_triple (s : str) : bool :=
  match s with
  | [] => true
  | _ :: r => negb (triple_lf s) && no_triple r
  end.

(** The last line grows by one character. *)
Definition snoc_last (c : N) (ls : list str) : list str :=
  removelast ls ++ [last ls [] ++ [c]].

End NormSpec.

Import NormSpec.

(** ** Specification vocabulary for the orchestrator *)

Module OrchSpec.

Definition is_digit (c : N) : bool := ((48 <=? c) && (c <=? 57))%N.

Definition number (s : str) : bool := truthy s && forallb is_digit s.

(** The shape [doc_id:paragraph_index:char_start-char_end]. *)
Definition well_shaped (s : str) : bool :=
  match split COLON s with
  | [d; i; range] =>
      truthy d && number i &&
      match split (lit "-") range with
      | [a; b] => number a && number b
      | _ => false
      end
  | _ => false
  end.

(** A decoded response that is a list of records. *)
Definition list_of_records (v : json) : bool :=
  match v with
  | JArr items => forallb (fun x => match x with JObj _ => true | _ => false end) items
  | _ => false
  end.

(** The record with the default provenance. *)
Definition default_record (doc_id : str) (paragraph_index : Z) (chunk_text : str)
    (d : dict) : dict :=
  dict_set PROVENANCE (JStr (default_provenance doc_id paragraph_index chunk_text)) d.

(** The back-fill of a record whose provenance is absent, null or a string:
    the default unless the string contains a colon. *)
Inductive backfilled (doc_id : str) (paragraph_index : Z) (chunk_text : str)
  : dict -> dict -> Prop :=
| bf_missing d :
    dict_get PROVENANCE d = None ->
    backfilled doc_id paragraph_index chunk_text d
               (default_record doc_id paragraph_index chunk_text d)
| bf_null d :
    dict_get PROVENANCE d = Some JNull ->
    backfilled doc_id paragraph_index chunk_text d
               (default_record doc_id paragraph_index chunk_text d)
| bf_no_colon d s :
    dict_get PROVENANCE d = Some (JStr s) -> contains COLON s = false ->
    backfilled doc_id paragraph_index chunk_text d
               (default_record doc_id paragraph_index chunk_text d)
| bf_kept d s :
    dict_get PROVENANCE d = Some (JStr s) -> contains COLON s = true ->
    backfilled doc_id paragraph_index chunk_text d d.

(** The provenance of a record is absent, null or a string. *)
Definition provenance_typed (d : dict) : Prop :=
  dict_get PROVENANCE d = None \/ dict_get PROVENANCE d = Some JNull \/
  exists s, dict_get PROVENANCE d = Some (JStr s).

(** The request sent for a chunk. *)
Definition request_of (custom_keys : option (list str)) (c : chunk) : request :=
  mk_request (doc_id c) (paragraph_index c) (text c) custom_keys.

(** The text handed to the decoder. *)
Definition decoder_input (text : option str) : str :=
  strip_fence (strip (match text with Some t => t | None => [] end)).

End OrchSpec.

Import OrchSpec.

(** A sample run: a printer of JSON values (for strings without escapes),
    a decoder that inverts it on a table of values, and a model that answers
    the requests of a run from a list of texts. *)
Module SampleRun.

Definition quoted (s : str) : str := [34%N] ++ s ++ [34%N].

Fixpoint dumps (v : json) : str :=
  match v with
  | JNull => lit "null"
  | JBool true => lit "true"
  | JBool false => lit "false"
  | JInt n => str_of_Z n
  | JFloat _ repr => repr
  | JStr s => quoted s
  | JArr items => lit "[" ++ join (lit ", ") (map dumps items) ++ lit "]"
  | JObj fields =>
      lit "{"
      ++ join (lit ", ") (map (fun '(k, x) => quoted k ++ lit ": " ++ dumps x) fields)
      ++ lit "}"
  end.

Definition decode_error : str := lit "Expecting value: line 1 column 1 (char 0)".

Fixpoint loads_from (table : list json) (s : str) : json + str :=
  match table with
  | [] => inr decode_error
  | v :: rest => if str_eqb (dumps v) s then inl v else loads_from rest s
  end.

Definition name_record : dict := [(lit "key", JStr (lit "name")); (lit "value", JStr (lit "Alice"))].
Definition age_record : dict :=
  [(lit "key", JStr (lit "age")); (lit "provenance", JStr (lit "line 2"))].
Definition city_record : dict :=
  [(lit "key", JStr (lit "city")); (lit "provenance", JStr (lit "D1:0:0-18"))].
Definition zip_record : dict :=
  [(lit "key", JStr (lit "zip")); (lit "provenance", JStr (lit "see: line 2"))].

Definition records : json :=
  JArr [JObj name_record; JObj age_record; JObj city_record; JObj zip_record].

Definition table : list json := [records; JArr [JInt 1]; JArr []; JObj []].

Definition json_loads (s : str) : json + str := loads_from table s.

(** The model answers the [n]-th request with the [n]-th text. *)
Definition gemini (answers : list str) (n : nat) (_ : request) : reply :=
  match nth_error answers n with
  | Some t => Answer (Some t)
  | None => Fails (OtherError (lit "503 UNAVAILABLE"))
  end.

Definition attribute_error (_ : json) : str := lit "'int' object has no attribute 'get'".
Definition type_error (_ : json) : str := lit "argument of type 'int' is not iterable".

Definition extract (answers : list str) (chunk_text : str) :=
  extract_with_gemini (gemini answers) json_loads attribute_error type_error
    chunk_text (lit "D1") 0 20 None (lit "k").

Definition parse (answers : list str) (text : str) :=
  parse_key_value_pairs (gemini answers) json_loads attribute_error type_error
    text (lit "k") None (lit "Gemini LLM") (lit "D1").

Definition start : world := mk_world [] [].

(** Sample texts and their chunks. *)
Definition alice : str := lit "Name: Alice" ++ NN ++ lit "Age: 30".

Definition two_pages : str := repeat 97%N 1500 ++ NN ++ repeat 98%N 1500.

Definition page1 : chunk := mk_chunk (repeat 97%N 1500) (lit "D1") 0 1502.
Definition page2 : chunk := mk_chunk (repeat 98%N 1500) (lit "D1") 1 3004.

End SampleRun.

(** ** The readers ([text_extractor.py]) and the processing loop of the
    application ([app.py]) *)

Module App.

(** An uploaded file: its name and its bytes. *)
Record upload := mk_upload {
  name : str;
  content : list N
}.

(** What [python-docx] gives for a document: the texts of its paragraphs,
    and its tables as rows of cell texts. *)
Record docx := mk_docx {
  doc_paragraphs : list str;
  doc_tables : list (list (list str))
}.

(** [if s.strip()] *)
Definition nonblank (s : str) : bool := truthy (strip s).

(** [extract_from_docx] once the document is open. *)
Definition docx_text (doc : docx) : str :=
  let text_parts := filter nonblank (doc_paragraphs doc) in
  let text_parts :=
    text_parts ++ filter nonblank (concat (concat (doc_tables doc))) in
  join [LF] text_parts.

(** [extract_from_pdf] once the pages are read; [pages] holds
    [page.extract_text()] of every page. *)
Definition pdf_text (pages : list str) : str :=
  join [LF] (filter nonblank pages).

Definition SOURCE_FILE : str := lit "source_file".

(** [[k.strip() for k in custom_keys.split('\n') if k.strip()] if custom_keys
    else None] *)
Definition keys_list (custom_keys : str) : option (list str) :=
  if truthy custom_keys
  then Some (map strip (filter nonblank (split_lines custom_keys)))
  else None.

Section Libraries.

(** Outside the repository: the Unicode tables and [str.lower], the UTF-8
    codec ([None] for [UnicodeDecodeError]), [docx.Document] and
    [PyPDF2.PdfReader] with [extract_text] (the document, or the exception
    they raise, kept with its text), the model and [json.loads]. *)
Variable nfkc : str -> str.
Variable printable_wide : N -> bool.
Variable lower : str -> str.
Variable utf8_decode : list N -> option str.
Variable open_docx : list N -> docx + raised.
Variable open_pdf : list N -> list str + raised.
Variable gemini : nat -> request -> reply.
Variable json_loads : str -> json + str.
Variable attribute_error : json -> str.
Variable type_error : json -> str.

(** [content.decode('latin-1')] never fails: a character per byte. *)
Definition extract_from_txt (file : upload) : str :=
  match utf8_decode (content file) with
  | Some text => text
  | None => content file
  end.

Definition extract_from_docx (file : upload) : outcome str :=
  match open_docx (content file) with
  | inl doc => Ok (docx_text doc)
  | inr e => Raise e
  end.

Definition extract_from_pdf (file : upload) : outcome str :=
  match open_pdf (content file) with
  | inl pages => Ok (pdf_text pages)
  | inr e => Raise e
  end.

(** [file.name.split('.')[-1].lower()] *)
Definition file_extension (file : upload) : str :=
  lower (last (split (lit ".") (name file)) []).

Definition extract_text_from_file (file : upload) : outcome str :=
  let raw :=
    if str_eqb (file_extension file) (lit "txt") then Ok (extract_from_txt file)
    else if str_eqb (file_extension file) (lit "docx") then extract_from_docx file
    else if str_eqb (file_extension file) (lit "pdf") then extract_from_pdf file
    else Raise (ValueError (lit "Unsupported file format: " ++ file_extension file)) in
  match raw with
  | Ok raw_text => Ok (normalize_text nfkc printable_wide raw_text)
  | Raise e => Raise e
  end.

(** [clean_text] *)
Definition clean_text (text : str) : str := normalize_text nfkc printable_wide text.

(** The loop over the uploaded files in [main]; an exception leaves it. *)
Fixpoint process_files (custom_keys api_key : str) (files : list upload)
    (file_idx : Z) (all_data : list dict) : M (list dict) :=
  match files with
  | [] => ret all_data
  | file :: rest =>
      let doc_id := lit "D" ++ str_of_Z file_idx in
      match extract_text_from_file file with
      | Raise e => raise e
      | Ok text =>
          bind (parse_key_value_pairs gemini json_loads attribute_error type_error
                  text api_key (keys_list custom_keys) (lit "Gemini LLM") doc_id)
               (fun rows =>
                  process_files custom_keys api_key rest (file_idx + 1)
                    (all_data
                     ++ map (dict_set SOURCE_FILE (JStr (name file))) rows))
      end
  end.

(** [for file_idx, file in enumerate(uploaded_files, start=1)] *)
Definition process (custom_keys api_key : str) (uploaded_files : list upload)
  : M (list dict) :=
  process_files custom_keys api_key uploaded_files 1 [].

End Libraries.

End App.

Import App.

(** ** A sample application run *)

Module SampleApp.

(** Sample libraries: lower-casing of ASCII letters, a codec that accepts
    ASCII bytes, a document and a page list. *)
Definition lower (s : str) : str :=
  map (fun c => if (65 <=? c) && (c <=? 90) then c + 32 else c)%N s.

Definition utf8_decode (bytes : list N) : option str :=
  if forallb (fun b => b <? 128)%N bytes then Some bytes else None.

Definition sample_docx : App.docx :=
  App.mk_docx [lit "Name: Alice"; lit "  "; lit "Age: 30"]
              [[[lit "City"; lit "Paris"]; [lit ""; lit "France"]]].

Definition open_docx (_ : list N) : App.docx + raised := inl sample_docx.

Definition open_pdf (_ : list N) : list str + raised :=
  inr (PlainException (lit "EOF marker not found")).

Definition extract_text :=
  App.extract_text_from_file UnicodeSample.nfkc UnicodeSample.printable_wide
    lower utf8_decode open_docx open_pdf.

Definition process (answers : list str) :=
  App.process UnicodeSample.nfkc UnicodeSample.printable_wide
    lower utf8_decode open_docx open_pdf
    (SampleRun.gemini answers) SampleRun.json_loads
    SampleRun.attribute_error SampleRun.type_error.

Definition notes_txt : App.upload :=
  App.mk_upload (lit "notes.TXT") (lit "Name:  Alice" ++ [13; 10; 13; 10]%N ++ lit "Age: 30").

Definition report_docx : App.upload := App.mk_upload (lit "report.docx") [80; 75; 3; 4]%N.

End SampleApp.

(** ** Further specification vocabulary *)

Module ExtraSpec.

(** No two spaces in a row. *)
Fixpoint no_double_space (s : str) : bool :=
  match s with
  | [] => true
  | c :: r =>
      match r with
      | [] => true
      | d :: _ => negb ((c =? SP) && (d =? SP))%N && no_double_space r
      end
  end.

(** A line as the normalizer leaves it: no white space at its ends, no tab,
    no two spaces in a row. *)
Definition tidy_line (l : str) : Prop :=
  clean l /\ Forall (fun c => c <> TAB) l /\ no_double_space l = true.

Definition BACKTICK : N := 96%N.

(** What the blank lines of a normalized text look like, read from the left
    with two characters of look-ahead: the character before a blank line and
    the one after it are not white space, and neither is the last
    character. *)
Definition spaced_here (c : N) (r : str) : bool :=
  match r with
  | [] => negb (isspace c)
  | d :: r' =>
      match r' with
      | [] => true
      | e :: _ =>
          if ((d =? LF) && (e =? LF))%N then negb (isspace c)
          else if ((c =? LF) && (d =? LF))%N then negb (isspace e)
          else true
      end
  end.

Fixpoint well_spaced (s : str) : bool :=
  match s with
  | [] => true
  | c :: r => spaced_here c r && well_spaced r
  end.

(** A paragraph piece: not empty, no white space at its ends. *)
Definition piece_ok (p : str) : Prop := p <> [] /\ clean p.

(** [k] is the line [l] without the white space at its ends. *)
Definition stripped (l k : str) : Prop :=
  clean k /\ exists a b, l = a ++ k ++ b /\ blank a = true /\ blank b = true.

End ExtraSpec.

Import ExtraSpec.

(* ================================================================ *)
(** * Properties *)

(** ** Lists and lengths *)

Lemma len_nil {A} : len (@nil A) = 0.
Proof. reflexivity. Qed.

Lemma len_cons {A} (x : A) l : len (x :: l) = len l + 1.
Proof. unfold len. simpl length. lia. Qed.

Lemma len_app {A} (l l' : list A) : len (l ++ l') = len l + len l'.
Proof. unfold len. rewrite length_app. lia. Qed.

Lemma len_nonneg {A} (l : list A) : 0 <= len l.
Proof. unfold len. lia. Qed.

Lemma truthy_false {A} (l : list A) : truthy l = false <-> l = [].
Proof. destruct l; simpl; split; congruence. Qed.

Lemma truthy_true {A} (l : list A) : truthy l = true <-> l <> [].
Proof. destruct l; simpl; split; congruence. Qed.

Lemma total_len_app g g' : total_len (g ++ g') = total_len g + total_len g'.
Proof. induction g as [|p g IH]; simpl; lia. Qed.

Lemma total_len_nonneg g : 0 <= total_len g.
Proof. induction g as [|p g IH]; simpl; [lia|]. pose proof (len_nonneg p). lia. Qed.

Lemma total_len_In p g : In p g -> len p <= total_len g.
Proof.
  induction g as [|q g IH]; simpl; [tauto|].
  pose proof (total_len_nonneg g). pose proof (len_nonneg q).
  intros [->|Hin]; [lia|]. specialize (IH Hin). lia.
Qed.

Lemma consumed_app ps ps' : consumed (ps ++ ps') = consumed ps + consumed ps'.
Proof. induction ps as [|p ps IH]; simpl; lia. Qed.

Lemma last_cons_default {A} (l : list A) : forall x d, last (x :: l) d = last l x.
Proof.
  induction l as [|y l IH]; intros x d; [reflexivity|].
  change (last (x :: y :: l) d) with (last (y :: l) d).
  now rewrite !IH.
Qed.

Lemma novel_snoc gs : forall prev g,
  novel prev (gs ++ [g]) =
  novel prev gs ++ (if 1 <? len (last gs prev) then tl g else g).
Proof.
  induction gs as [|h gs IH]; intros prev g.
  - simpl. now rewrite app_nil_r.
  - change ((h :: gs) ++ [g]) with (h :: (gs ++ [g])). cbn [novel].
    now rewrite IH, <- app_assoc, last_cons_default.
Qed.

Lemma enumerate_from_app {A} (l l' : list A) : forall i,
  enumerate_from i (l ++ l') = enumerate_from i l ++ enumerate_from (i + len l) l'.
Proof.
  induction l as [|x l IH]; intros i; simpl.
  - now rewrite len_nil, Z.add_0_r.
  - rewrite IH, len_cons. do 3 f_equal. lia.
Qed.


(** ** The loop invariant of the chunker *)

Section LoopInvariant.

Variables (doc : str) (chunk_size : Z).

Lemma group_ok_mono done l r : group_ok done r -> group_ok (done ++ l) r.
Proof.
  intros [Hne (a & b & -> & Hs & Ho)]. split; [exact Hne|].
  exists a, (b ++ l). now rewrite <- !app_assoc.
Qed.

Lemma linked_last_start rs : forall b b',
  start b = start b' -> linked (rs ++ [b]) -> linked (rs ++ [b']).
Proof.
  induction rs as [|r rs IH]; intros b b' Hs; [trivial|].
  destruct rs as [|r1 rs].
  - simpl. unfold shared. rewrite Hs. tauto.
  - specialize (IH b b' Hs). cbn [app linked] in *. tauto.
Qed.

Lemma linked_snoc rs : forall b b',
  linked (rs ++ [b]) ->
  shared b b' = (if 1 <? len (group b) then 1 else 0) ->
  linked ((rs ++ [b]) ++ [b']).
Proof.
  induction rs as [|r rs IH]; intros b b' Hl Hs.
  - simpl. tauto.
  - destruct rs as [|r1 rs].
    + simpl in *. tauto.
    + specialize (IH b b'). cbn [app linked] in *. tauto.
Qed.

Lemma Inv_init : Inv doc chunk_size [] [] init.
Proof.
  split; simpl; auto.
  - exists []. auto.
  - constructor; [right; rewrite len_nil; lia | constructor].
Qed.

Lemma Inv_step done raws st p :
  Inv doc chunk_size done raws st ->
  exists raws', Inv doc chunk_size (done ++ [p]) raws' (step doc chunk_size st (len done, p)).
Proof.
  destruct st as [cks buf cl co psi].
  intros [Hc (pre & Hd & Hs) Hl Ho He Hcov Hg Hsm Hlk]; simpl in *.
  unfold step;
    cbn [current_length current_chunk chunks char_offset paragraph_start_index].
  assert (Hdone : len done = len pre + len buf) by (now rewrite Hd, len_app).
  destruct ((cl + len p >? chunk_size) && truthy buf) eqn:Hcond.
  - apply andb_true_iff in Hcond as [Hgt Hne].
    apply truthy_true in Hne.
    assert (Hok : group_ok (done ++ [p]) (mk_raw buf psi co)).
    { split; [exact Hne|]. exists pre, [p]; cbn [group start off].
      rewrite Hd, <- app_assoc. rewrite Ho, Hd. auto. }
    assert (Hgs : Forall (group_ok (done ++ [p])) (raws ++ [mk_raw buf psi co])).
    { apply Forall_app; split; [|now constructor].
      eapply Forall_impl; [|exact Hg]. intros r. apply group_ok_mono. }
    exists (raws ++ [mk_raw buf psi co]).
    destruct (1 <? len buf) eqn:Hlen.
    + destruct (exists_last Hne) as (front & kept & Hbuf).
      assert (Hlast : last buf [] = kept) by (rewrite Hbuf; apply last_last).
      rewrite Hlast.
      split;
        cbn [current_length current_chunk chunks char_offset paragraph_start_index app].
      * now rewrite map_app, Hc.
      * exists (pre ++ front). split.
        { rewrite Hd, Hbuf, <- !app_assoc. reflexivity. }
        rewrite Hdone, Hbuf, !len_app, len_cons, len_nil. lia.
      * simpl. lia.
      * rewrite consumed_app, Ho. simpl. lia.
      * discriminate.
      * rewrite map_app. cbn [map group]. unfold reassemble in *.
        rewrite novel_snoc, last_last, Hlen, Hcov. reflexivity.
      * exact Hgs.
      * rewrite map_app. apply Forall_app; split; [exact Hsm|].
        constructor; [|constructor]. right. rewrite !len_cons, len_nil. lia.
      * apply linked_snoc; [exact Hlk|]. unfold shared; cbn [group start].
        rewrite Hlen. lia.
    + split;
        cbn [current_length current_chunk chunks char_offset paragraph_start_index app].
      * now rewrite map_app, Hc.
      * exists done. split; [reflexivity|]. reflexivity.
      * simpl. lia.
      * rewrite consumed_app, Ho. simpl. lia.
      * discriminate.
      * rewrite map_app. cbn [map group]. unfold reassemble in *.
        rewrite novel_snoc, last_last, Hlen, Hcov. reflexivity.
      * exact Hgs.
      * rewrite map_app. apply Forall_app; split; [exact Hsm|].
        constructor; [|constructor]. right. rewrite !len_cons, len_nil. lia.
      * apply linked_snoc; [exact Hlk|]. unfold shared; cbn [group start].
        rewrite Hlen. lia.
  - exists raws.
    split;
      cbn [current_length current_chunk chunks char_offset paragraph_start_index].
    + exact Hc.
    + exists pre. split; [|exact Hs]. now rewrite Hd, app_assoc.
    + rewrite total_len_app, Hl. simpl. lia.
    + rewrite consumed_app, Ho. simpl. lia.
    + intros H. destruct buf; discriminate.
    + unfold reassemble in *. rewrite novel_snoc in *.
      destruct (1 <? len (last (map group raws) [])) eqn:Hprev.
      * destruct buf as [|q buf].
        { destruct (He eq_refl) as [_ ->]. discriminate. }
        rewrite <- Hcov, <- app_assoc. reflexivity.
      * rewrite <- Hcov, <- app_assoc. reflexivity.
    + eapply Forall_impl; [|exact Hg]. intros r. apply group_ok_mono.
    + apply Forall_app in Hsm as [Hsm _].
      apply Forall_app; split; [exact Hsm|]. constructor; [|constructor].
      apply andb_false_iff in Hcond as [Hle|Hemp].
      * left. rewrite total_len_app, <- Hl. simpl. lia.
      * apply truthy_false in Hemp. subst buf. right.
        cbn [app]. rewrite len_cons, len_nil. lia.
    + eapply linked_last_start; [|exact Hlk]. reflexivity.
Qed.

Lemma Inv_fold rest : forall done raws st,
  Inv doc chunk_size done raws st ->
  exists raws',
    Inv doc chunk_size (done ++ rest) raws'
        (fold_left (step doc chunk_size) (enumerate_from (len done) rest) st).
Proof.
  induction rest as [|p rest IH]; intros done raws st H.
  - exists raws. now rewrite app_nil_r.
  - cbn [enumerate_from fold_left].
    destruct (Inv_step done raws st p H) as (raws1 & H1).
    destruct (IH _ _ _ H1) as (raws2 & H2).
    exists raws2. rewrite <- app_assoc in H2. cbn [app] in H2.
    rewrite len_app, len_cons, len_nil in H2.
    replace (len done + 1) with (len done + (0 + 1)) by lia. exact H2.
Qed.

Lemma Inv_loop ps : exists raws, Inv doc chunk_size ps raws (loop doc chunk_size ps).
Proof. exact (Inv_fold ps [] [] init Inv_init). Qed.

End LoopInvariant.

(** ** [strip] *)

Lemma dropwhile_split {A} (f : A -> bool) s :
  exists a, s = a ++ dropwhile f s /\ forallb f a = true.
Proof.
  induction s as [|c s (a & Ha & Hf)]; [now exists []|].
  simpl. destruct (f c) eqn:Hc.
  - exists (c :: a). simpl. rewrite Hc, Hf. split; [now f_equal|reflexivity].
  - now exists [].
Qed.

Lemma dropwhile_head {A} (f : A -> bool) s c r :
  dropwhile f s = c :: r -> f c = false.
Proof.
  induction s as [|x s IH]; simpl; [discriminate|].
  destruct (f x) eqn:Hx; [exact IH|]. intros E. now injection E as -> _.
Qed.

Lemma dropwhile_id {A} (f : A -> bool) c r : f c = false -> dropwhile f (c :: r) = c :: r.
Proof. intros H. simpl. now rewrite H. Qed.

Lemma dropwhile_idem {A} (f : A -> bool) s : dropwhile f (dropwhile f s) = dropwhile f s.
Proof.
  destruct (dropwhile f s) as [|c r] eqn:E; [reflexivity|].
  apply dropwhile_id. exact (dropwhile_head f s c r E).
Qed.

Lemma dropwhile_all {A} (f : A -> bool) s : forallb f s = true -> dropwhile f s = [].
Proof.
  induction s as [|c s IH]; simpl; [reflexivity|].
  intros H. apply andb_true_iff in H as [-> H]. auto.
Qed.

Lemma rstrip_snoc s c : isspace c = false -> rstrip (s ++ [c]) = s ++ [c].
Proof.
  intros H. unfold rstrip. rewrite rev_app_distr. cbn [rev app].
  rewrite dropwhile_id by exact H.
  change (c :: rev s) with ([c] ++ rev s). now rewrite rev_app_distr, rev_involutive.
Qed.

Lemma rstrip_split s : exists b, s = rstrip s ++ b /\ blank b = true.
Proof.
  unfold rstrip. destruct (dropwhile_split isspace (rev s)) as (a & Ha & Hf).
  exists (rev a). split.
  - rewrite <- rev_app_distr, <- Ha. now rewrite rev_involutive.
  - unfold blank. rewrite forallb_forall in *. intros x Hx. apply Hf.
    now apply in_rev.
Qed.

Lemma rstrip_head c s : isspace c = false -> exists m, rstrip (c :: s) = c :: m.
Proof.
  intros Hc. destruct (rstrip_split (c :: s)) as (b & Hb & Hf).
  destruct (rstrip (c :: s)) as [|x m].
  - simpl in Hb. subst b. simpl in Hf. rewrite Hc in Hf. discriminate.
  - injection Hb as <- _. now exists m.
Qed.

Lemma rstrip_idem s : rstrip (rstrip s) = rstrip s.
Proof. unfold rstrip. now rewrite rev_involutive, dropwhile_idem. Qed.

Lemma strip_clean s : clean (strip s).
Proof.
  unfold strip, clean. split; [|apply rstrip_idem].
  unfold lstrip. destruct (dropwhile isspace s) as [|c r] eqn:E; [reflexivity|].
  destruct (rstrip_head c r (dropwhile_head _ _ _ _ E)) as (m & ->).
  apply dropwhile_id. exact (dropwhile_head _ _ _ _ E).
Qed.

Lemma clean_strip s : clean s -> strip s = s.
Proof. intros [H1 H2]. unfold strip. now rewrite H1, H2. Qed.

Lemma strip_idem s : strip (strip s) = strip s.
Proof. apply clean_strip, strip_clean. Qed.

Lemma strip_split s : exists a b, s = a ++ strip s ++ b /\ blank a = true /\ blank b = true.
Proof.
  destruct (dropwhile_split isspace s) as (a & Ha & Hf).
  destruct (rstrip_split (lstrip s)) as (b & Hb & Hg).
  exists a, b. unfold strip. split; [|now split].
  rewrite <- Hb. exact Ha.
Qed.

Lemma strip_blank s : blank s = true -> strip s = [].
Proof. intros H. unfold strip, lstrip. now rewrite (dropwhile_all _ _ H). Qed.

Lemma strip_nil_blank s : strip s = [] -> blank s = true.
Proof.
  intros H. destruct (strip_split s) as (a & b & Hs & Ha & Hb).
  rewrite H in Hs. rewrite Hs. unfold blank in *. now rewrite !forallb_app, Ha, Hb.
Qed.

Lemma clean_head c s : clean (c :: s) -> isspace c = false.
Proof. intros [H _]. exact (dropwhile_head _ _ _ _ H). Qed.

Lemma clean_last s c : clean (s ++ [c]) -> isspace c = false.
Proof.
  intros [_ H]. unfold rstrip in H. apply (f_equal (@rev N)) in H.
  rewrite rev_involutive, rev_app_distr in H. exact (dropwhile_head _ _ _ _ H).
Qed.

Lemma clean_ends c s d : isspace c = false -> isspace d = false -> clean (c :: s ++ [d]).
Proof.
  intros Hc Hd. split.
  - now apply dropwhile_id.
  - change (c :: s ++ [d]) with ((c :: s) ++ [d]). now apply rstrip_snoc.
Qed.

(** ** Splitting into paragraphs and joining back *)

Lemma list_ind2 {A} (P : list A -> Prop) :
  P [] -> (forall c, P [c]) ->
  (forall c d r, P r -> P (d :: r) -> P (c :: d :: r)) ->
  forall s, P s.
Proof.
  intros H0 H1 H2 s.
  assert (H : P s /\ forall c, P (c :: s)); [|exact (proj1 H)].
  induction s as [|d s [IH1 IH2]]; split; auto.
Qed.

Lemma split_para_cons2 c d r :
  split_para (c :: d :: r) =
  if ((c =? LF) && (d =? LF))%N then [] :: split_para r
  else cons_head c (split_para (d :: r)).
Proof. reflexivity. Qed.

Lemma split_para_head c r :
  exists h t, split_para (c :: r) = h :: t /\ (h = [] \/ exists h', h = c :: h').
Proof.
  destruct r as [|d r].
  - exists [c], []. split; [reflexivity|]. right. now exists [].
  - rewrite split_para_cons2. destruct ((c =? LF) && (d =? LF))%N.
    + exists [], (split_para r). auto.
    + destruct (split_para (d :: r)) as [|h t]; cbn [cons_head].
      * exists [c], []. split; [reflexivity|]. right. now exists [].
      * exists (c :: h), t. split; [reflexivity|]. right. now exists h.
Qed.

Lemma nn_free_cons2 c d r :
  nn_free (c :: d :: r) = negb ((c =? LF) && (d =? LF))%N && nn_free (d :: r).
Proof. reflexivity. Qed.

Lemma nn_free_tail c s : nn_free (c :: s) = true -> nn_free s = true.
Proof.
  destruct s as [|d s]; [reflexivity|]. rewrite nn_free_cons2.
  intros H. now apply andb_true_iff in H.
Qed.

Lemma nn_free_app a : forall b,
  nn_free (a ++ b) = true -> nn_free a = true /\ nn_free b = true.
Proof.
  induction a as [|c a IH]; intros b H; [now split|].
  cbn [app] in H. pose proof (nn_free_tail _ _ H) as Ht.
  destruct (IH b Ht) as [Ha Hb]. split; [|exact Hb].
  destruct a as [|d a]; [reflexivity|].
  cbn [app] in H. rewrite nn_free_cons2 in *.
  apply andb_true_iff in H as [-> _]. exact Ha.
Qed.

Lemma split_para_nn_free s : Forall (fun p => nn_free p = true) (split_para s).
Proof.
  induction s as [| c | c d r IH1 IH2] using list_ind2.
  - repeat constructor.
  - repeat constructor.
  - rewrite split_para_cons2. destruct ((c =? LF) && (d =? LF))%N eqn:E.
    + constructor; [reflexivity|exact IH1].
    + destruct (split_para_head d r) as (h & t & Hs & Hh).
      rewrite Hs in *. inversion IH2 as [|? ? Hnh Hnt]; subst.
      constructor; [|exact Hnt].
      destruct Hh as [->|(h' & ->)]; [reflexivity|].
      now rewrite nn_free_cons2, E, Hnh.
Qed.

Lemma split_para_single p : nn_free p = true -> split_para p = [p].
Proof.
  induction p as [| c | c d r IH1 IH2] using list_ind2; intros H; try reflexivity.
  rewrite nn_free_cons2 in H. apply andb_true_iff in H as [H1 H2].
  apply negb_true_iff in H1. now rewrite split_para_cons2, H1, (IH2 H2).
Qed.

Lemma split_para_app p : forall rest,
  nn_free p = true -> last p SP <> LF ->
  split_para (p ++ LF :: LF :: rest) = p :: split_para rest.
Proof.
  induction p as [|c p IH]; intros rest Hn Hl; [reflexivity|].
  destruct p as [|d p].
  - cbn [app]. rewrite split_para_cons2.
    simpl in Hl. apply N.eqb_neq in Hl. rewrite Hl. cbn [andb].
    rewrite split_para_cons2. reflexivity.
  - cbn [app]. rewrite split_para_cons2.
    rewrite nn_free_cons2 in Hn. apply andb_true_iff in Hn as [H1 H2].
    apply negb_true_iff in H1. rewrite H1.
    change (d :: p ++ LF :: LF :: rest) with ((d :: p) ++ LF :: LF :: rest).
    rewrite (IH rest H2); [reflexivity|].
    now rewrite last_cons_default in Hl |- *; rewrite last_cons_default in Hl.
Qed.

Lemma isspace_LF : isspace LF = true.
Proof. reflexivity. Qed.

Lemma para_ok_last p : para_ok p -> last p SP <> LF.
Proof.
  intros (Hne & Hc & _). destruct (exists_last Hne) as (m & c & ->).
  rewrite last_last. apply clean_last in Hc. intros ->.
  rewrite isspace_LF in Hc. discriminate.
Qed.

Lemma paragraphs_ok s : Forall para_ok (paragraphs s).
Proof.
  unfold paragraphs. apply Forall_forall. intros p Hp.
  apply in_map_iff in Hp as (q & <- & Hq). apply filter_In in Hq as [Hq Ht].
  split; [now apply truthy_true|]. split; [apply strip_clean|].
  pose proof (split_para_nn_free s) as Hall. rewrite Forall_forall in Hall.
  specialize (Hall q Hq). destruct (strip_split q) as (a & b & Hs & _ & _).
  rewrite Hs in Hall. apply nn_free_app in Hall as [_ Hall].
  now apply nn_free_app in Hall as [Hall _].
Qed.

Lemma split_para_join g : g <> [] -> Forall para_ok g -> split_para (join NN g) = g.
Proof.
  induction g as [|p g IH]; intros Hne Hall; [congruence|].
  inversion Hall as [|? ? Hp Hg]; subst.
  destruct g as [|q g].
  - apply split_para_single. apply Hp.
  - change (join NN (p :: q :: g)) with (p ++ LF :: LF :: join NN (q :: g)).
    rewrite split_para_app; [|apply Hp|now apply para_ok_last].
    now rewrite IH.
Qed.

Lemma strip_filter_id g :
  Forall para_ok g -> map strip (filter (fun p => truthy (strip p)) g) = g.
Proof.
  induction 1 as [|p g (Hne & Hc & _) _ IH]; [reflexivity|].
  cbn [filter]. rewrite (clean_strip p Hc).
  apply truthy_true in Hne. rewrite Hne. cbn [map].
  now rewrite (clean_strip p Hc), IH.
Qed.

(** Reading the paragraphs back from a joined run of paragraphs. *)
Lemma paragraphs_join g : Forall para_ok g -> paragraphs (join NN g) = g.
Proof.
  intros Hall. destruct g as [|p g]; [reflexivity|].
  unfold paragraphs. rewrite split_para_join by (congruence || assumption).
  now apply strip_filter_id.
Qed.

Lemma split_para_blank s :
  Forall (fun p => blank p = true) (split_para s) -> blank s = true.
Proof.
  induction s as [| c | c d r IH1 IH2] using list_ind2; intros H.
  - reflexivity.
  - now inversion H.
  - rewrite split_para_cons2 in H. destruct ((c =? LF) && (d =? LF))%N eqn:E.
    + apply andb_true_iff in E as [Ec Ed].
      apply N.eqb_eq in Ec, Ed. subst c d. inversion H; subst.
      cbn [blank forallb]. rewrite isspace_LF. now apply IH1.
    + destruct (split_para_head d r) as (h & t & Hs & _).
      rewrite Hs in H, IH2. cbn [cons_head] in H.
      inversion H as [|? ? Hh Ht]; subst. cbn [blank forallb] in Hh |- *.
      apply andb_true_iff in Hh as [-> Hh]. apply IH2. now constructor.
Qed.

Lemma paragraphs_nil_blank s : paragraphs s = [] -> blank s = true.
Proof.
  unfold paragraphs. intros H. apply map_eq_nil in H.
  apply split_para_blank, Forall_forall. intros p Hp.
  apply strip_nil_blank, truthy_false.
  destruct (truthy (strip p)) eqn:E; [|reflexivity].
  assert (Hin : In p (filter (fun p => truthy (strip p)) (split_para s)))
    by (apply filter_In; auto).
  rewrite H in Hin. destruct Hin.
Qed.

Lemma paragraphs_nil_strip t : paragraphs (strip t) = [] -> strip t = [].
Proof.
  intros H. rewrite <- strip_idem. now apply strip_blank, paragraphs_nil_blank.
Qed.

Lemma paragraphs_blank s : blank s = true -> paragraphs (strip s) = [].
Proof. intros H. now rewrite (strip_blank s H). Qed.


(** ** The chunks of a text *)

Lemma finish_loop doc chunk_size ps :
  ps <> [] ->
  exists raws,
    finish doc (loop doc chunk_size ps) = map (to_chunk doc) raws /\
    raws <> [] /\
    reassemble (map group raws) = ps /\
    Forall (group_ok ps) raws /\
    Forall (small chunk_size) (map group raws) /\
    linked raws.
Proof.
  intros Hne. destruct (Inv_loop doc chunk_size ps) as (raws & H).
  destruct H as [Hc (pre & Hd & Hs) Hl Ho He Hcov Hg Hsm Hlk].
  set (st := loop doc chunk_size ps) in *.
  assert (Hbuf : current_chunk st <> []) by (intros E; now destruct (He E)).
  exists (raws ++ [mk_raw (current_chunk st) (paragraph_start_index st) (char_offset st)]).
  unfold finish. apply truthy_true in Hbuf as Ht. rewrite Ht, Hc, !map_app.
  repeat split; auto.
  - now destruct raws.
  - apply Forall_app; split; [exact Hg|]. constructor; [|constructor].
    split; [exact Hbuf|]. exists pre, []. cbn [group start off].
    now rewrite app_nil_r, <- Hd.
Qed.

Lemma chunk_none text doc chunk_size overlap :
  paragraphs (strip text) = [] ->
  preprocess_and_chunk text doc chunk_size overlap = [mk_chunk [] doc 0 0].
Proof.
  intros H. unfold preprocess_and_chunk. rewrite H.
  now rewrite (paragraphs_nil_strip text H).
Qed.

Lemma chunk_some text doc chunk_size overlap :
  paragraphs (strip text) <> [] ->
  exists raws,
    preprocess_and_chunk text doc chunk_size overlap = map (to_chunk doc) raws /\
    reassemble (map group raws) = paragraphs (strip text) /\
    Forall (group_ok (paragraphs (strip text))) raws /\
    Forall (small chunk_size) (map group raws) /\
    linked raws.
Proof.
  intros Hne. destruct (finish_loop doc chunk_size _ Hne) as (raws & Hf & Hr & H).
  exists raws. split; [|exact H]. unfold preprocess_and_chunk. rewrite Hf.
  now destruct raws.
Qed.

Lemma group_ok_paras ps r : Forall para_ok ps -> group_ok ps r -> Forall para_ok (group r).
Proof.
  intros Hall (_ & a & b & -> & _). apply Forall_app in Hall as [_ Hall].
  now apply Forall_app in Hall as [Hall _].
Qed.

Lemma chunk_paragraphs_to_chunk doc ps r :
  Forall para_ok ps -> group_ok ps r -> chunk_paragraphs (to_chunk doc r) = group r.
Proof.
  intros Hall Hr. unfold chunk_paragraphs, to_chunk. cbn [text].
  apply paragraphs_join. exact (group_ok_paras ps r Hall Hr).
Qed.

Lemma chunk_paragraphs_map doc ps raws :
  Forall para_ok ps -> Forall (group_ok ps) raws ->
  map chunk_paragraphs (map (to_chunk doc) raws) = map group raws.
Proof.
  intros Hall Hg. rewrite map_map. apply map_ext_in. intros r Hr.
  rewrite Forall_forall in Hg. exact (chunk_paragraphs_to_chunk doc ps r Hall (Hg r Hr)).
Qed.

Lemma novel_In gs : forall prev p,
  In p (novel prev gs) -> exists g, In g gs /\ In p g.
Proof.
  induction gs as [|g gs IH]; intros prev p H; [destruct H|].
  cbn [novel] in H. apply in_app_or in H as [H|H].
  - exists g. split; [now left|]. destruct (1 <? len prev); [|exact H].
    destruct g; [destruct H|now right].
  - destruct (IH g p H) as (g' & Hg & Hp). exists g'. split; [now right|exact Hp].
Qed.

Lemma linked_consec pre : forall r r' post,
  linked (pre ++ r :: r' :: post) ->
  shared r r' = (if 1 <? len (group r) then 1 else 0).
Proof.
  induction pre as [|x pre IH]; intros r r' post H.
  - exact (proj1 H).
  - apply (IH r r' post). destruct pre; exact (proj2 H).
Qed.

(** ** The chunker: coverage, atomicity, offsets, overlap *)

(** C3. Chunk coverage: reading the paragraphs of the emitted chunks in
    emission order and dropping the copy that the one-paragraph overlap puts
    at the head of a chunk gives back the paragraph sequence of the input,
    and every paragraph of the input is in some emitted chunk (for every
    text and every chunk size). *)
Theorem chunk_coverage (text doc : str) (chunk_size overlap : Z) :
  let ps := paragraphs (strip text) in
  let cs := preprocess_and_chunk text doc chunk_size overlap in
  reassemble (map chunk_paragraphs cs) = ps /\
  (forall p, In p ps -> exists c, In c cs /\ In p (chunk_paragraphs c)).
Proof.
  intros ps cs.
  assert (Hre : reassemble (map chunk_paragraphs cs) = ps).
  { destruct ps as [|p0 ps0] eqn:Eps.
    - subst cs. now rewrite (chunk_none text doc chunk_size overlap Eps).
    - destruct (chunk_some text doc chunk_size overlap) as (raws & Hcs & Hre & Hg & _).
      { fold ps. now rewrite Eps. }
      subst cs. rewrite Hcs.
      rewrite (chunk_paragraphs_map doc _ raws (paragraphs_ok _) Hg), Hre.
      exact Eps. }
  split; [exact Hre|]. intros p Hp. rewrite <- Hre in Hp.
  apply novel_In in Hp as (g & Hg & Hp). apply in_map_iff in Hg as (c & <- & Hc).
  now exists c.
Qed.

(** C4, as stated, fails: with [chunk_size = 10] the 12-character third
    paragraph is emitted together with its neighbours, in no chunk of its
    own. *)
Lemma oversized_paragraph_not_alone :
  let t := lit "aaa" ++ NN ++ lit "bbb" ++ NN ++ lit "BBBBBBBBBBBB" ++ NN ++ lit "ccccc" in
  ~ (forall p, In p (paragraphs (strip t)) -> 10 < len p ->
       exists c, In c (preprocess_and_chunk t (lit "D1") 10 200) /\ text c = p).
Proof.
  intros t H. destruct (H (lit "BBBBBBBBBBBB")) as (c & Hc & Ht).
  - vm_compute. do 2 right. left. reflexivity.
  - reflexivity.
  - vm_compute in Hc.
    destruct Hc as [<-|[<-|[<-|[]]]]; vm_compute in Ht; discriminate.
Qed.

(** C4, amended. Paragraph atomicity: every emitted chunk's text is the join
    of a run of consecutive whole paragraphs of the input, starting at the
    chunk's paragraph index; a paragraph longer than [chunk_size] is
    therefore never split, and a chunk that holds one holds at most two
    paragraphs. *)
Theorem chunk_atomicity (text doc : str) (chunk_size overlap : Z) (c : chunk) :
  In c (preprocess_and_chunk text doc chunk_size overlap) ->
  Chunker.text c = join NN (chunk_paragraphs c) /\
  (exists a b, paragraphs (strip text) = a ++ chunk_paragraphs c ++ b /\
               paragraph_index c = len a) /\
  (forall p, In p (chunk_paragraphs c) -> chunk_size < len p ->
             len (chunk_paragraphs c) <= 2).
Proof.
  intros Hc. destruct (paragraphs (strip text)) as [|p0 ps0] eqn:Eps.
  - rewrite (chunk_none text doc chunk_size overlap Eps) in Hc.
    destruct Hc as [<-|[]]. repeat split.
    + now exists [], [].
    + intros p [].
  - destruct (chunk_some text doc chunk_size overlap) as (raws & Hcs & _ & Hg & Hsm & _).
    { now rewrite Eps. }
    rewrite Hcs in Hc. apply in_map_iff in Hc as (r & <- & Hr).
    rewrite Forall_forall in Hg, Hsm. specialize (Hg r Hr).
    rewrite (chunk_paragraphs_to_chunk doc _ r (paragraphs_ok _) Hg).
    repeat split.
    + destruct Hg as (_ & a & b & Hab & Hs & _). exists a, b.
      rewrite <- Eps. split; [exact Hab|exact Hs].
    + intros p Hp Hlen. destruct (Hsm (group r) (in_map group _ _ Hr)) as [Hle|Hle].
      * pose proof (total_len_In p (group r) Hp). lia.
      * exact Hle.
Qed.

Lemma chunk_atomicity_witness :
  let t := lit "aaa" ++ NN ++ lit "bbb" ++ NN ++ lit "BBBBBBBBBBBB" ++ NN ++ lit "ccccc" in
  let c := mk_chunk (lit "bbb" ++ NN ++ lit "BBBBBBBBBBBB") (lit "D1") 1 24 in
  In c (preprocess_and_chunk t (lit "D1") 10 200) /\
  (Chunker.text c = join NN (chunk_paragraphs c) /\
   (exists a b, paragraphs (strip t) = a ++ chunk_paragraphs c ++ b /\
                paragraph_index c = len a) /\
   (forall p, In p (chunk_paragraphs c) -> 10 < len p ->
              len (chunk_paragraphs c) <= 2)).
Proof.
  intros t c.
  assert (Hc : In c (preprocess_and_chunk t (lit "D1") 10 200))
    by (vm_compute; right; left; reflexivity).
  split; [exact Hc|]. exact (chunk_atomicity t (lit "D1") 10 200 c Hc).
Defined.

(** C10, as stated, fails: the chunks of two two-character paragraphs with
    [chunk_size = 3] share no paragraph, so the overlap applied is not always
    one paragraph. *)
Lemma overlap_not_always_one :
  let t := lit "ab" ++ NN ++ lit "cd" in
  ~ ((forall o1 o2, preprocess_and_chunk t (lit "D1") 3 o1 =
                    preprocess_and_chunk t (lit "D1") 3 o2) /\
     (forall o pre c c' post,
         preprocess_and_chunk t (lit "D1") 3 o = pre ++ c :: c' :: post ->
         overlap_of c c' = 1)).
Proof.
  intros t [_ H].
  specialize (H 200 [] (mk_chunk (lit "ab") (lit "D1") 0 4)
                (mk_chunk (lit "cd") (lit "D1") 1 8) [] eq_refl).
  vm_compute in H. discriminate.
Qed.

(** C10, amended. The [overlap] argument has no effect on the chunks, and the
    overlap applied between two successive chunks is one paragraph when the
    earlier chunk holds more than one paragraph and none when it holds
    exactly one. *)
Theorem overlap_parameter_ignored (text doc : str) (chunk_size o1 o2 : Z) :
  preprocess_and_chunk text doc chunk_size o1 = preprocess_and_chunk text doc chunk_size o2 /\
  (forall pre c c' post,
      preprocess_and_chunk text doc chunk_size o1 = pre ++ c :: c' :: post ->
      overlap_of c c' = (if 1 <? len (chunk_paragraphs c) then 1 else 0)).
Proof.
  split; [reflexivity|]. intros pre c c' post Hcs.
  destruct (paragraphs (strip text)) as [|p0 ps0] eqn:Eps.
  - rewrite (chunk_none text doc chunk_size o1 Eps) in Hcs.
    apply (f_equal (@length chunk)) in Hcs. rewrite length_app in Hcs.
    simpl in Hcs. lia.
  - destruct (chunk_some text doc chunk_size o1) as (raws & Hraws & _ & Hg & _ & Hlk).
    { now rewrite Eps. }
    rewrite Hraws in Hcs.
    apply map_eq_app in Hcs as (rpre & rest & -> & _ & Hrest).
    apply map_eq_cons in Hrest as (r & rest1 & -> & <- & Hrest).
    apply map_eq_cons in Hrest as (r' & rpost & -> & <- & _).
    rewrite Forall_forall in Hg.
    unfold overlap_of.
    rewrite !(chunk_paragraphs_to_chunk doc (paragraphs (strip text)) r (paragraphs_ok _)).
    + exact (linked_consec rpre r r' rpost Hlk).
    + apply Hg, in_or_app. right. now left.
Qed.

Lemma overlap_parameter_ignored_witness :
  let t := lit "aaa" ++ NN ++ lit "bbb" ++ NN ++ lit "BBBBBBBBBBBB" ++ NN ++ lit "ccccc" in
  let c := mk_chunk (lit "aaa" ++ NN ++ lit "bbb") (lit "D1") 0 10 in
  let c' := mk_chunk (lit "bbb" ++ NN ++ lit "BBBBBBBBBBBB") (lit "D1") 1 24 in
  let c'' := mk_chunk (lit "BBBBBBBBBBBB" ++ NN ++ lit "ccccc") (lit "D1") 2 31 in
  preprocess_and_chunk t (lit "D1") 10 200 = [] ++ c :: c' :: [c''] /\
  overlap_of c c' = (if 1 <? len (chunk_paragraphs c) then 1 else 0).
Proof.
  intros t c c' c''.
  assert (H : preprocess_and_chunk t (lit "D1") 10 200 = [] ++ c :: c' :: [c''])
    by (vm_compute; reflexivity).
  split; [exact H|].
  exact (proj2 (overlap_parameter_ignored t (lit "D1") 10 200 7) [] c c' [c''] H).
Defined.

(** C1. On the two-paragraph text of the scenario the chunker emits one
    chunk with paragraph index 0 whose offset is 22: the running total after
    both paragraphs, not the total (0) at the moment the buffer was opened. *)
Theorem offset_recorded_at_close :
  preprocess_and_chunk (lit "Name: Alice" ++ NN ++ lit "Age: 30") (lit "D1") 2000 200
  = [mk_chunk (lit "Name: Alice" ++ NN ++ lit "Age: 30") (lit "D1") 0 22].
Proof. vm_compute. reflexivity. Qed.

(** The offset of every chunk is the running total when the chunk is
    closed: the characters consumed up to and including its last
    paragraph. *)
Lemma chunk_offset_is_end (text doc : str) (chunk_size overlap : Z) (c : chunk) :
  paragraphs (strip text) <> [] ->
  In c (preprocess_and_chunk text doc chunk_size overlap) ->
  exists a b, paragraphs (strip text) = a ++ chunk_paragraphs c ++ b /\
              offset c = consumed (a ++ chunk_paragraphs c).
Proof.
  intros Hne Hc.
  destruct (chunk_some text doc chunk_size overlap Hne) as (raws & Hcs & _ & Hg & _).
  rewrite Hcs in Hc. apply in_map_iff in Hc as (r & <- & Hr).
  rewrite Forall_forall in Hg. specialize (Hg r Hr).
  rewrite (chunk_paragraphs_to_chunk doc _ r (paragraphs_ok _) Hg).
  destruct Hg as (_ & a & b & Hab & _ & Ho). now exists a, b.
Qed.

(** ** The normalizer, stage by stage *)

Lemma normalize_text_tidy nfkc pw t :
  normalize_text nfkc pw t = tidy (filter (keep pw) (nfkc t)).
Proof. reflexivity. Qed.

Section CharInvariant.

(** A property of characters that the space and the line feed have is kept
    by every stage after the filter. *)
Variable Q : N -> Prop.
Hypothesis Q_SP : Q SP.
Hypothesis Q_LF : Q LF.

Lemma replace_crlf_Forall s : Forall Q s -> Forall Q (replace_crlf s).
Proof.
  induction s as [| c | c d r IH1 IH2] using list_ind2; intros H; auto.
  change (replace_crlf (c :: d :: r))
    with (if ((c =? CR) && (d =? LF))%N then LF :: replace_crlf r
          else c :: replace_crlf (d :: r)).
  inversion H as [|? ? Hc Hr]; subst. inversion Hr; subst.
  destruct ((c =? CR) && (d =? LF))%N; constructor; auto.
Qed.

Lemma replace_cr_Forall s : Forall Q s -> Forall Q (replace_cr s).
Proof.
  induction 1 as [|c s Hc _ IH]; [constructor|].
  cbn [replace_cr map]. destruct (c =? CR)%N; constructor; auto.
Qed.

Lemma split_lines_Forall s : Forall Q s -> Forall (Forall Q) (split_lines s).
Proof.
  induction 1 as [|c s Hc _ IH]; [repeat constructor|].
  cbn [split_lines]. destruct (c =? LF)%N; [constructor; auto|].
  destruct IH as [|h t Hh Ht]; cbn [cons_head]; repeat constructor; auto.
Qed.

Lemma strip_Forall s : Forall Q s -> Forall Q (strip s).
Proof.
  intros H. destruct (strip_split s) as (a & b & Hs & _).
  rewrite Hs in H. apply Forall_app in H as [_ H]. now apply Forall_app in H as [H _].
Qed.

Lemma collapse_blanks_Forall s : Forall Q s -> Forall Q (collapse_blanks s).
Proof.
  induction 1 as [|c s Hc Hs IH]; [constructor|].
  cbn [collapse_blanks]. destruct (is_blank c); [|constructor; auto].
  destruct s as [|d s]; [repeat constructor; auto|].
  destruct (is_blank d); [exact IH|constructor; auto].
Qed.

Lemma join_Forall ls : Forall (Forall Q) ls -> Forall Q (join [LF] ls).
Proof.
  induction 1 as [|l ls Hl Hls IH]; [constructor|].
  cbn [join]. destruct ls as [|l' ls]; [exact Hl|].
  apply Forall_app; split; [exact Hl|]. constructor; [exact Q_LF|exact IH].
Qed.

Lemma collapse_newlines_Forall s : Forall Q s -> Forall Q (collapse_newlines s).
Proof.
  induction 1 as [|c s Hc Hs IH]; [constructor|].
  cbn [collapse_newlines]. destruct (triple_lf (c :: s)); [exact IH|constructor; auto].
Qed.

Lemma norm_line_Forall l : Forall Q l -> Forall Q (norm_line l).
Proof. intros H. apply collapse_blanks_Forall, strip_Forall, H. Qed.

Lemma tidy_lines_Forall s : Forall Q s -> Forall Q (tidy_lines s).
Proof.
  intros H. unfold tidy_lines.
  apply strip_Forall, collapse_newlines_Forall, join_Forall.
  apply Forall_map.
  eapply Forall_impl; [|apply split_lines_Forall, H].
  apply norm_line_Forall.
Qed.

Lemma tidy_Forall s : Forall Q s -> Forall Q (tidy s).
Proof.
  intros H. apply tidy_lines_Forall, replace_cr_Forall, replace_crlf_Forall, H.
Qed.

End CharInvariant.

Lemma blank_Forall s : blank s = true <-> Forall (fun c => isspace c = true) s.
Proof. unfold blank. rewrite forallb_forall, Forall_forall. reflexivity. Qed.

Lemma filter_Forall {A} (f : A -> bool) (P : A -> Prop) s :
  Forall P s -> Forall P (filter f s).
Proof.
  rewrite !Forall_forall. intros H x Hx. apply H. now apply filter_In in Hx.
Qed.

Lemma tidy_blank s : blank s = true -> tidy s = [].
Proof.
  intros H. apply blank_Forall in H.
  apply (tidy_Forall _ eq_refl eq_refl) in H. apply blank_Forall in H.
  unfold tidy, tidy_lines in *. rewrite <- strip_idem. now apply strip_blank.
Qed.

(** ** A fragment of the Unicode tables *)

Lemma sample_compat_space c : isspace c = true -> isspace (UnicodeSample.compat c) = true.
Proof.
  intros H. unfold UnicodeSample.compat.
  destruct ((65281 <=? c) && (c <=? 65374))%N eqn:E.
  - exfalso. apply andb_true_iff in E as [E _]. apply N.leb_le in E.
    unfold isspace in H.
    repeat match type of H with
           | context [(c <=? ?k)%N] =>
               replace (c <=? k)%N with false in H by (symmetry; apply N.leb_gt; lia)
           | context [(c =? ?k)%N] =>
               replace (c =? k)%N with false in H by (symmetry; apply N.eqb_neq; lia)
           end.
    rewrite ?andb_false_r in H. discriminate.
  - destruct ((c =? 160) || (c =? 12288))%N; [reflexivity|exact H].
Qed.

Lemma sample_compose_blank s : blank s = true -> UnicodeSample.compose s = s.
Proof.
  induction s as [| c | c d r IH1 IH2] using list_ind2; intros H; try reflexivity.
  change (UnicodeSample.compose (c :: d :: r))
    with (if ((c =? 97) && (d =? 769))%N then 225%N :: UnicodeSample.compose r
          else c :: UnicodeSample.compose (d :: r)).
  cbn [blank forallb] in H. apply andb_true_iff in H as [Hc Hr].
  destruct (N.eqb_spec c 97) as [->|_]; [discriminate|]. cbn [andb].
  now rewrite (IH2 Hr).
Qed.

Lemma sample_nfkc_blank s : blank s = true -> blank (UnicodeSample.nfkc s) = true.
Proof.
  intros H. unfold UnicodeSample.nfkc.
  assert (Hm : blank (map UnicodeSample.compat s) = true).
  { apply blank_Forall. apply Forall_map. apply blank_Forall in H.
    eapply Forall_impl; [|exact H]. apply sample_compat_space. }
  now rewrite (sample_compose_blank _ Hm).
Qed.

(** ** Degenerate input *)

(** C9. For an empty or white-space-only input, normalization followed by
    chunking yields exactly one chunk, with empty text, paragraph index 0 and
    offset 0 (NFKC being a table of the run time, the fact used about it is
    that it maps white space to white space). *)
Theorem degenerate_input (nfkc : str -> str) (printable_wide : N -> bool)
    (t doc : str) (chunk_size overlap : Z) :
  (forall s, blank s = true -> blank (nfkc s) = true) ->
  blank t = true ->
  preprocess_and_chunk (normalize_text nfkc printable_wide t) doc chunk_size overlap
  = [mk_chunk [] doc 0 0].
Proof.
  intros Hnfkc Ht. rewrite normalize_text_tidy.
  assert (Hv : blank (filter (keep printable_wide) (nfkc t)) = true).
  { apply blank_Forall, filter_Forall, blank_Forall, Hnfkc, Ht. }
  rewrite (tidy_blank _ Hv). now apply chunk_none.
Qed.

Lemma degenerate_input_witness :
  let t := [32; 10; 9; 13; 160; 12288; 133]%N in
  (forall s, blank s = true -> blank (UnicodeSample.nfkc s) = true) /\
  blank t = true /\
  preprocess_and_chunk
    (normalize_text UnicodeSample.nfkc UnicodeSample.printable_wide t) (lit "D1") 2000 200
  = [mk_chunk [] (lit "D1") 0 0].
Proof.
  intros t. split; [exact sample_nfkc_blank|]. split; [reflexivity|].
  exact (degenerate_input UnicodeSample.nfkc UnicodeSample.printable_wide t (lit "D1")
           2000 200 sample_nfkc_blank eq_refl).
Defined.

(** ** Normal forms of the normalizer *)

Lemma filter_id {A} (f : A -> bool) s :
  Forall (fun c => f c = true) s -> filter f s = s.
Proof.
  induction 1 as [|c s Hc _ IH]; [reflexivity|]. cbn [filter]. now rewrite Hc, IH.
Qed.

Lemma filter_keeps {A} (f : A -> bool) s : Forall (fun c => f c = true) (filter f s).
Proof. apply Forall_forall. intros x Hx. now apply filter_In in Hx. Qed.

Lemma replace_crlf_id s : Forall (fun c => c <> CR) s -> replace_crlf s = s.
Proof.
  induction s as [| c | c d r IH1 IH2] using list_ind2; intros H; try reflexivity.
  change (replace_crlf (c :: d :: r))
    with (if ((c =? CR) && (d =? LF))%N then LF :: replace_crlf r
          else c :: replace_crlf (d :: r)).
  inversion H as [|? ? Hc Hr]; subst. apply N.eqb_neq in Hc. rewrite Hc.
  cbn [andb]. now rewrite (IH2 Hr).
Qed.

Lemma replace_cr_id s : Forall (fun c => c <> CR) s -> replace_cr s = s.
Proof.
  induction 1 as [|c s Hc _ IH]; [reflexivity|].
  cbn [replace_cr map]. apply N.eqb_neq in Hc. rewrite Hc. f_equal. exact IH.
Qed.

Lemma replace_cr_no_CR s : Forall (fun c => c <> CR) (replace_cr s).
Proof.
  induction s as [|c s IH]; [constructor|]. cbn [replace_cr map].
  constructor; [|exact IH]. destruct (N.eqb_spec c CR); [discriminate|assumption].
Qed.

Lemma split_lines_cons s : exists h t, split_lines s = h :: t.
Proof.
  destruct s as [|c s]; [now exists [], []|]. cbn [split_lines].
  destruct (c =? LF)%N; [now eexists _, _|].
  destruct (split_lines s); cbn [cons_head]; now eexists _, _.
Qed.

Lemma join_cons_head c h t : join [LF] ((c :: h) :: t) = c :: join [LF] (h :: t).
Proof. cbn [join]. now destruct t. Qed.

Lemma join_split_lines s : join [LF] (split_lines s) = s.
Proof.
  induction s as [|c s IH]; [reflexivity|]. cbn [split_lines].
  destruct (split_lines_cons s) as (h & t & E). rewrite E in *.
  destruct (N.eqb_spec c LF) as [->|_].
  - change (join [LF] ([] :: h :: t)) with (LF :: join [LF] (h :: t)).
    f_equal. exact IH.
  - cbn [cons_head]. rewrite join_cons_head. f_equal. exact IH.
Qed.

Lemma split_lines_LF_free s : Forall (Forall (fun c => c <> LF)) (split_lines s).
Proof.
  induction s as [|c s IH]; [repeat constructor|]. cbn [split_lines].
  destruct (N.eqb_spec c LF) as [->|Hc]; [constructor; auto|].
  destruct IH as [|h t Hh Ht]; cbn [cons_head]; repeat constructor; auto.
Qed.

Lemma split_lines_app_LF l rest :
  Forall (fun c => c <> LF) l -> split_lines (l ++ LF :: rest) = l :: split_lines rest.
Proof.
  induction 1 as [|c l Hc _ IH]; [reflexivity|].
  cbn [app split_lines]. apply N.eqb_neq in Hc. now rewrite Hc, IH.
Qed.

Lemma split_lines_single l : Forall (fun c => c <> LF) l -> split_lines l = [l].
Proof.
  induction 1 as [|c l Hc _ IH]; [reflexivity|].
  cbn [split_lines]. apply N.eqb_neq in Hc. now rewrite Hc, IH.
Qed.

Lemma split_lines_join ls :
  ls <> [] -> Forall (Forall (fun c => c <> LF)) ls -> split_lines (join [LF] ls) = ls.
Proof.
  induction ls as [|l ls IH]; intros Hne H; [congruence|].
  inversion H as [|? ? Hl Hls]; subst. destruct ls as [|l' ls].
  - now apply split_lines_single.
  - change (join [LF] (l :: l' :: ls)) with (l ++ LF :: join [LF] (l' :: ls)).
    rewrite (split_lines_app_LF _ _ Hl), IH; [reflexivity|discriminate|exact Hls].
Qed.

Lemma collapse_blanks_cons c r :
  collapse_blanks (c :: r) =
  if is_blank c then
    match r with
    | d :: _ => if is_blank d then collapse_blanks r else SP :: collapse_blanks r
    | [] => [SP]
    end
  else c :: collapse_blanks r.
Proof. reflexivity. Qed.

Lemma is_blank_space c : is_blank c = true -> isspace c = true.
Proof.
  unfold is_blank. intros H. apply orb_true_iff in H as [H|H];
    apply N.eqb_eq in H; subst; reflexivity.
Qed.

Lemma not_space_not_blank c : isspace c = false -> is_blank c = false.
Proof.
  intros H. destruct (is_blank c) eqn:E; [|reflexivity].
  apply is_blank_space in E. congruence.
Qed.

Lemma collapse_blanks_idem s : collapse_blanks (collapse_blanks s) = collapse_blanks s.
Proof.
  induction s as [|c r IH]; [reflexivity|].
  rewrite (collapse_blanks_cons c r). destruct (is_blank c) eqn:Hc.
  - destruct r as [|d r']; [reflexivity|].
    destruct (is_blank d) eqn:Hd; [exact IH|].
    rewrite (collapse_blanks_cons d r'), Hd in *.
    rewrite (collapse_blanks_cons SP). cbn [is_blank N.eqb Pos.eqb SP orb].
    rewrite Hd. f_equal. exact IH.
  - rewrite collapse_blanks_cons, Hc. f_equal. exact IH.
Qed.

Lemma collapse_blanks_snoc s d :
  is_blank d = false -> exists x, collapse_blanks (s ++ [d]) = x ++ [d].
Proof.
  intros Hd. induction s as [|c s (x & IH)].
  - exists []. cbn [app]. now rewrite collapse_blanks_cons, Hd.
  - cbn [app]. rewrite collapse_blanks_cons. destruct (is_blank c).
    + destruct (s ++ [d]) as [|e r] eqn:E; [now destruct s|].
      destruct (is_blank e).
      * now exists x.
      * exists (SP :: x). now rewrite IH.
    + exists (c :: x). now rewrite IH.
Qed.

Lemma clean_nil : clean [].
Proof. now split. Qed.

Lemma collapse_blanks_clean m : clean m -> clean (collapse_blanks m).
Proof.
  intros Hm. destruct m as [|c r]; [exact clean_nil|].
  pose proof (not_space_not_blank c (clean_head c r Hm)) as Hc.
  assert (Hne : c :: r <> []) by discriminate.
  destruct (exists_last Hne) as (r' & d & E).
  pose proof Hm as Hd. rewrite E in Hd. apply clean_last in Hd.
  destruct (collapse_blanks_snoc r' d (not_space_not_blank d Hd)) as (x & Hx).
  split.
  - rewrite collapse_blanks_cons, Hc. apply dropwhile_id. exact (clean_head c r Hm).
  - rewrite E, Hx. now apply rstrip_snoc.
Qed.

Lemma normal_line_nil : normal_line [].
Proof. split; [exact clean_nil|reflexivity]. Qed.

Lemma norm_line_normal l : normal_line (norm_line l).
Proof.
  split; [apply collapse_blanks_clean, strip_clean|apply collapse_blanks_idem].
Qed.

Lemma normal_line_fixed l : normal_line l -> norm_line l = l.
Proof. intros [Hc Hb]. unfold norm_line. now rewrite (clean_strip l Hc). Qed.

Lemma triple_lf_head s : triple_lf s = true -> exists r, s = LF :: LF :: LF :: r.
Proof.
  destruct s as [|c [|d [|e r]]]; try discriminate. cbn [triple_lf]. intros H.
  apply andb_true_iff in H as [H He]. apply andb_true_iff in H as [Hc Hd].
  apply N.eqb_eq in Hc, Hd, He. subst. now exists r.
Qed.

Lemma no_triple_fixed s : no_triple s = true -> collapse_newlines s = s.
Proof.
  induction s as [|c r IH]; [reflexivity|]. cbn [no_triple collapse_newlines].
  intros H. apply andb_true_iff in H as [Ht Hr]. apply negb_true_iff in Ht.
  now rewrite Ht, (IH Hr).
Qed.

Lemma collapse_newlines_head s z :
  collapse_newlines s = LF :: z -> exists z', s = LF :: z'.
Proof.
  destruct s as [|c r]; [discriminate|]. cbn [collapse_newlines].
  destruct (triple_lf (c :: r)) eqn:E.
  - destruct (triple_lf_head _ E) as (r' & Hr). injection Hr as -> _. now exists r.
  - intros H. injection H as -> _. now exists r.
Qed.

Lemma collapse_newlines_triple c r :
  triple_lf (c :: collapse_newlines r) = true -> triple_lf (c :: r) = true.
Proof.
  intros H. destruct (triple_lf_head _ H) as (z & E). injection E as -> E.
  destruct (collapse_newlines_head r _ E) as (r1 & ->).
  cbn [collapse_newlines] in E. destruct (triple_lf (LF :: r1)) eqn:E1.
  - destruct (triple_lf_head _ E1) as (r2 & Hr). injection Hr as ->. reflexivity.
  - injection E as E. destruct (collapse_newlines_head r1 _ E) as (r2 & ->).
    reflexivity.
Qed.

Lemma no_triple_collapse s : no_triple (collapse_newlines s) = true.
Proof.
  induction s as [|c r IH]; [reflexivity|]. cbn [collapse_newlines].
  destruct (triple_lf (c :: r)) eqn:E; [exact IH|].
  cbn [no_triple]. rewrite IH, andb_true_r. apply negb_true_iff.
  destruct (triple_lf (c :: collapse_newlines r)) eqn:E'; [|reflexivity].
  apply collapse_newlines_triple in E'. congruence.
Qed.

Lemma no_triple_app a : forall b,
  no_triple (a ++ b) = true -> no_triple a = true /\ no_triple b = true.
Proof.
  induction a as [|c a IH]; intros b H; [now split|].
  cbn [app no_triple] in H. apply andb_true_iff in H as [Ht Hr].
  destruct (IH b Hr) as [Ha Hb]. split; [|exact Hb].
  cbn [no_triple]. rewrite Ha, andb_true_r. apply negb_true_iff.
  destruct (triple_lf (c :: a)) eqn:E; [|reflexivity].
  destruct (triple_lf_head _ E) as (r & Hr'). injection Hr' as -> ->.
  discriminate.
Qed.

Lemma no_triple_strip s : no_triple s = true -> no_triple (strip s) = true.
Proof.
  intros H. destruct (strip_split s) as (a & b & Hs & _). rewrite Hs in H.
  apply no_triple_app in H as [_ H]. now apply no_triple_app in H as [H _].
Qed.

(** *** The lines of a text through the last two stages *)

Lemma split_lines_collapse s :
  exists h t t',
    split_lines s = h :: t /\ split_lines (collapse_newlines s) = h :: t' /\ incl t' t.
Proof.
  induction s as [|c r (h & t & t' & Hs & Hc & Hi)].
  - exists [], [], []. repeat split. apply incl_refl.
  - cbn [collapse_newlines]. destruct (triple_lf (c :: r)) eqn:E.
    + destruct (triple_lf_head _ E) as (r' & Hr). injection Hr as -> ->.
      cbn [split_lines] in Hs |- *. change (LF =? LF)%N with true in *. cbn iota in *.
      injection Hs as <- <-.
      exists [], ([] :: split_lines (LF :: r')), t'. repeat split; [exact Hc|].
      now apply incl_tl.
    + cbn [split_lines]. rewrite Hs, Hc. destruct (c =? LF)%N.
      * exists [], (h :: t), (h :: t'). repeat split.
        apply incl_cons; [now left|now apply incl_tl].
      * exists (c :: h), t, t'. now repeat split.
Qed.

Lemma lines_collapse (R : str -> Prop) s :
  Forall R (split_lines s) -> Forall R (split_lines (collapse_newlines s)).
Proof.
  destruct (split_lines_collapse s) as (h & t & t' & -> & -> & Hi).
  intros H. inversion H as [|? ? Hh Ht]; subst. constructor; [exact Hh|].
  rewrite Forall_forall in *. auto.
Qed.

Lemma lines_lstrip (R : str -> Prop) s :
  R [] -> (forall l, R l -> clean l) ->
  Forall R (split_lines s) -> Forall R (split_lines (lstrip s)).
Proof.
  intros R0 Rc. induction s as [|c r IH]; intros H; [exact H|].
  cbn [split_lines] in H. destruct (N.eqb_spec c LF) as [->|Hc].
  - inversion H; subst. unfold lstrip. cbn [dropwhile]. rewrite isspace_LF.
    now apply IH.
  - destruct (split_lines_cons r) as (h & t & E). rewrite E in H. cbn [cons_head] in H.
    inversion H as [|? ? Hh Ht]; subst.
    pose proof (clean_head _ _ (Rc _ Hh)) as Hs.
    unfold lstrip. rewrite (dropwhile_id _ _ _ Hs).
    cbn [split_lines]. apply N.eqb_neq in Hc. rewrite Hc, E. exact H.
Qed.

Lemma last_cons_head c ls d : ls <> [] -> last (cons_head c ls) d = last (cons_head c ls) [].
Proof. intros H. destruct ls; [congruence|]. cbn [cons_head]. now rewrite !last_cons_default. Qed.

Lemma split_lines_snoc s c :
  split_lines (s ++ [c]) =
  if (c =? LF)%N then split_lines s ++ [[]] else snoc_last c (split_lines s).
Proof.
  induction s as [|a s IH].
  - cbn [app split_lines]. now destruct (c =? LF)%N.
  - cbn [app split_lines]. rewrite IH.
    destruct (split_lines_cons s) as (h & t & E). rewrite E.
    destruct (c =? LF)%N, (a =? LF)%N; try reflexivity;
      unfold snoc_last; destruct t; reflexivity.
Qed.

Lemma rstrip_snoc_space s c : isspace c = true -> rstrip (s ++ [c]) = rstrip s.
Proof.
  intros H. unfold rstrip. rewrite rev_app_distr. cbn [rev app dropwhile]. now rewrite H.
Qed.

Lemma lines_rstrip (R : str -> Prop) s :
  R [] -> (forall l, R l -> clean l) ->
  Forall R (split_lines s) -> Forall R (split_lines (rstrip s)).
Proof.
  intros R0 Rc. induction s as [|c s IH] using rev_ind; intros H; [exact H|].
  rewrite split_lines_snoc in H. destruct (N.eqb_spec c LF) as [->|Hc].
  - rewrite (rstrip_snoc_space s LF isspace_LF). apply IH.
    now apply Forall_app in H as [H _].
  - pose proof H as H'. unfold snoc_last in H'. apply Forall_app in H' as [_ H'].
    inversion H' as [|? ? Hl _]; subst.
    pose proof (clean_last _ _ (Rc _ Hl)) as Hs.
    rewrite (rstrip_snoc s c Hs), split_lines_snoc.
    apply N.eqb_neq in Hc. rewrite Hc. exact H.
Qed.

Lemma lines_strip (R : str -> Prop) s :
  R [] -> (forall l, R l -> clean l) ->
  Forall R (split_lines s) -> Forall R (split_lines (strip s)).
Proof.
  intros R0 Rc H. unfold strip. now apply lines_rstrip, lines_lstrip.
Qed.

(** *** The output of the line stages is a fixed point of them *)

Lemma normal_line_clean l : normal_line l -> clean l.
Proof. now intros [H _]. Qed.

Lemma tidy_lines_normal w :
  Forall normal_line (split_lines (tidy_lines w)) /\
  no_triple (tidy_lines w) = true /\
  clean (tidy_lines w).
Proof.
  unfold tidy_lines. split; [|split].
  - apply (lines_strip _ _ normal_line_nil normal_line_clean), lines_collapse.
    destruct (split_lines_cons w) as (h & t & E).
    rewrite split_lines_join.
    + apply Forall_map, Forall_forall. intros l _. apply norm_line_normal.
    + rewrite E. discriminate.
    + apply Forall_map.
      eapply Forall_impl; [|apply split_lines_LF_free].
      intros l Hl. apply norm_line_Forall; [discriminate|exact Hl].
  - apply no_triple_strip, no_triple_collapse.
  - apply strip_clean.
Qed.

Lemma tidy_lines_fixed r :
  Forall normal_line (split_lines r) -> no_triple r = true -> clean r ->
  tidy_lines r = r.
Proof.
  intros Hl Ht Hc. unfold tidy_lines.
  assert (E : map norm_line (split_lines r) = split_lines r).
  { rewrite <- (map_id (split_lines r)) at 2. apply map_ext_in. intros l Hin.
    rewrite Forall_forall in Hl. apply normal_line_fixed. auto. }
  now rewrite E, join_split_lines, (no_triple_fixed r Ht), (clean_strip r Hc).
Qed.

Lemma tidy_lines_idem w : tidy_lines (tidy_lines w) = tidy_lines w.
Proof.
  destruct (tidy_lines_normal w) as (Hl & Ht & Hc). now apply tidy_lines_fixed.
Qed.

Lemma tidy_no_CR v : Forall (fun c => c <> CR) (tidy v).
Proof.
  unfold tidy. apply tidy_lines_Forall; try discriminate. apply replace_cr_no_CR.
Qed.

Lemma tidy_idem v : tidy (tidy v) = tidy v.
Proof.
  pose proof (tidy_no_CR v) as H. unfold tidy at 1.
  rewrite (replace_crlf_id _ H), (replace_cr_id _ H). apply tidy_lines_idem.
Qed.


(** ** Idempotence of the normalizer *)

(** C2, as stated, fails: the control character between the letter and the
    combining accent keeps NFKC from composing them in the first pass and is
    then removed, so the second pass composes them. *)
Lemma normalize_not_idempotent :
  let normalize := normalize_text UnicodeSample.nfkc UnicodeSample.printable_wide in
  let t := [97; 0; 769]%N in
  normalize t = [97; 769]%N /\
  normalize (normalize t) = [225]%N /\
  normalize (normalize t) <> normalize t.
Proof. vm_compute. repeat split. discriminate. Qed.

(** C2, amended. [normalize(normalize(t)) = normalize(t)] for every text
    whose normalized form NFKC leaves unchanged (whatever the Unicode tables
    are): all the steps after NFKC are idempotent together. *)
Theorem normalize_idempotent (nfkc : str -> str) (printable_wide : N -> bool) (t : str) :
  nfkc (normalize_text nfkc printable_wide t) = normalize_text nfkc printable_wide t ->
  normalize_text nfkc printable_wide (normalize_text nfkc printable_wide t)
  = normalize_text nfkc printable_wide t.
Proof.
  intros Hstable. rewrite (normalize_text_tidy nfkc printable_wide (normalize_text _ _ t)).
  rewrite Hstable, normalize_text_tidy.
  set (v := filter (keep printable_wide) (nfkc t)).
  assert (Hkeep : Forall (fun c => keep printable_wide c = true) (tidy v)).
  { apply tidy_Forall; try reflexivity. apply filter_keeps. }
  rewrite (filter_id _ _ Hkeep). apply tidy_idem.
Qed.

Lemma normalize_idempotent_witness :
  let normalize := normalize_text UnicodeSample.nfkc UnicodeSample.printable_wide in
  let t := [65313; 13; 10; 10; 10; 13; 32; 9; 12288; 98; 32; 9; 32; 99; 32; 10]%N in
  UnicodeSample.nfkc (normalize t) = normalize t /\
  normalize t = lit "A" ++ [LF; LF] ++ lit "b c" /\
  normalize (normalize t) = normalize t.
Proof.
  intros normalize t.
  assert (H : UnicodeSample.nfkc (normalize t) = normalize t) by (vm_compute; reflexivity).
  split; [exact H|]. split; [vm_compute; reflexivity|].
  exact (normalize_idempotent UnicodeSample.nfkc UnicodeSample.printable_wide t H).
Defined.

(** ** The projector *)

Lemma fold_left_snoc {A B} (f : A -> B) l : forall acc,
  fold_left (fun rows x => rows ++ [f x]) l acc = acc ++ map f l.
Proof.
  induction l as [|x l IH]; intros acc; cbn [fold_left map].
  - now rewrite app_nil_r.
  - now rewrite IH, <- app_assoc.
Qed.

Lemma convert_map ds : convert_to_three_columns ds = map project ds.
Proof. unfold convert_to_three_columns. now rewrite fold_left_snoc. Qed.

(** C8. Projection is total and keeps the order: one row per record, the
    [i]-th row made from the [i]-th record, with exactly the columns key,
    value and comments. Each column holds the record's field of that name
    when the record has it, and the default when it has not ("unknown_key"
    for key, the empty string for value and comments); raw_value, provenance
    and confidence are not in the row. *)
Theorem projection_total (extractions : list dict) :
  length (convert_to_three_columns extractions) = length extractions /\
  forall i item, nth_error extractions i = Some item ->
    exists row,
      nth_error (convert_to_three_columns extractions) i = Some row /\
      map fst row = [lit "key"; lit "value"; lit "comments"] /\
      (forall v, dict_get (lit "key") item = Some v ->
                 dict_get (lit "key") row = Some v) /\
      (dict_get (lit "key") item = None ->
       dict_get (lit "key") row = Some (JStr (lit "unknown_key"))) /\
      (forall v, dict_get (lit "value") item = Some v ->
                 dict_get (lit "value") row = Some v) /\
      (dict_get (lit "value") item = None ->
       dict_get (lit "value") row = Some (JStr [])) /\
      (forall v, dict_get (lit "comments") item = Some v ->
                 dict_get (lit "comments") row = Some v) /\
      (dict_get (lit "comments") item = None ->
       dict_get (lit "comments") row = Some (JStr [])) /\
      dict_get (lit "raw_value") row = None /\
      dict_get (lit "provenance") row = None /\
      dict_get (lit "confidence") row = None.
Proof.
  rewrite convert_map. split; [apply length_map|].
  intros i item Hi. exists (project item). split.
  - now rewrite nth_error_map, Hi.
  - unfold project, get_default.
    repeat split; try (intros v Hv; rewrite Hv; reflexivity);
      try (intros Hn; rewrite Hn; reflexivity).
Qed.

Lemma projection_total_witness :
  let item : dict :=
    [(lit "value", JStr (lit "30")); (lit "provenance", JStr (lit "D1:0:0-18"));
     (lit "confidence", JFloat false (lit "0.9"))] in
  nth_error [item] 0 = Some item /\
  dict_get (lit "key") item = None /\
  dict_get (lit "value") item = Some (JStr (lit "30")) /\
  convert_to_three_columns [item]
  = [[(lit "key", JStr (lit "unknown_key")); (lit "value", JStr (lit "30"));
      (lit "comments", JStr [])]] /\
  exists row,
    nth_error (convert_to_three_columns [item]) 0 = Some row /\
    map fst row = [lit "key"; lit "value"; lit "comments"] /\
    (forall v, dict_get (lit "key") item = Some v ->
               dict_get (lit "key") row = Some v) /\
    (dict_get (lit "key") item = None ->
     dict_get (lit "key") row = Some (JStr (lit "unknown_key"))) /\
    (forall v, dict_get (lit "value") item = Some v ->
               dict_get (lit "value") row = Some v) /\
    (dict_get (lit "value") item = None ->
     dict_get (lit "value") row = Some (JStr [])) /\
    (forall v, dict_get (lit "comments") item = Some v ->
               dict_get (lit "comments") row = Some v) /\
    (dict_get (lit "comments") item = None ->
     dict_get (lit "comments") row = Some (JStr [])) /\
    dict_get (lit "raw_value") row = None /\
    dict_get (lit "provenance") row = None /\
    dict_get (lit "confidence") row = None.
Proof.
  intros item. split; [reflexivity|].
  split; [reflexivity|]. split; [reflexivity|]. split; [reflexivity|].
  exact (proj2 (projection_total [item]) 0%nat item eq_refl).
Defined.

(** ** The orchestrator *)

Lemma split_no_colon s : contains COLON s = false -> split COLON s = [s].
Proof.
  unfold split. induction s as [|c r IH]; [reflexivity|].
  cbn [contains]. intros H. apply orb_false_iff in H as [Hs Hr].
  cbn [split_skip]. now rewrite Hs, (IH Hr).
Qed.

Lemma well_shaped_colon s : well_shaped s = true -> contains COLON s = true.
Proof.
  intros H. destruct (contains COLON s) eqn:E; [reflexivity|].
  unfold well_shaped in H. rewrite (split_no_colon s E) in H. discriminate.
Qed.

Section Run.

Variable gemini : nat -> request -> reply.
Variable json_loads : str -> json + str.
Variable attribute_error : json -> str.
Variable type_error : json -> str.

Let extract := extract_with_gemini gemini json_loads attribute_error type_error.
Let run_chunks := extract_chunks gemini json_loads attribute_error type_error.

Lemma backfill_item_record doc idx ct d :
  provenance_typed d ->
  exists r, backfill_item attribute_error type_error doc idx ct (JObj d) = inl r /\
            backfilled doc idx ct d r.
Proof.
  unfold backfill_item, get_default.
  intros [H|[H|(s & H)]]; rewrite H; cbn [truth negb].
  - eexists. split; [reflexivity|]. now apply bf_missing.
  - eexists. split; [reflexivity|]. now apply bf_null.
  - destruct (truthy s) eqn:Hs; cbn [negb colon_in].
    + destruct (contains COLON s) eqn:Hc; cbn [negb]; eexists; (split; [reflexivity|]).
      * eapply bf_kept; eauto.
      * eapply bf_no_colon; eauto.
    + eexists. split; [reflexivity|]. eapply bf_no_colon; eauto.
      apply truthy_false in Hs. now subst.
Qed.

Lemma backfill_records doc idx ct ds :
  Forall provenance_typed ds ->
  exists rs, backfill attribute_error type_error doc idx ct (map JObj ds) = inl rs /\
             Forall2 (backfilled doc idx ct) ds rs.
Proof.
  induction 1 as [|d ds Hd _ (rs & Hrs & Hall)].
  - exists []. split; [reflexivity|constructor].
  - destruct (backfill_item_record doc idx ct d Hd) as (r & Hr & Hb).
    exists (r :: rs). cbn [map backfill]. rewrite Hr, Hrs.
    split; [reflexivity|now constructor].
Qed.

Lemma backfilled_shape doc idx ct d r s :
  backfilled doc idx ct d r ->
  dict_get PROVENANCE d = Some (JStr s) -> well_shaped s = true -> r = d.
Proof.
  intros H Hs Hw. apply well_shaped_colon in Hw.
  destruct H as [d H|d H|d s' H Hc|d s' H Hc]; try reflexivity; congruence.
Qed.

Lemma extract_answer chunk_text doc idx off keys api w text :
  gemini (length (calls w)) (mk_request doc idx chunk_text keys) = Answer text ->
  extract chunk_text doc idx off keys api w =
  decode_and_validate json_loads attribute_error type_error doc idx chunk_text
    (match text with Some t => t | None => [] end)
    (mk_world (calls w ++ [mk_request doc idx chunk_text keys]) (warnings w)).
Proof. intros H. unfold extract, extract_with_gemini. now rewrite H. Qed.

(** X29. What the back-fill does for a decoded response that is a
    non-empty list of records whose provenance is absent, null or a string:
    a record without provenance, or whose provenance contains no colon, gets
    the default [doc_id:paragraph_index:0-<chunk length>]; a record whose
    provenance contains a colon is returned unchanged, in particular every
    record whose provenance has the shape
    [doc_id:paragraph_index:char_start-char_end]. *)
Theorem provenance_backfill chunk_text doc idx off keys api w text ds :
  gemini (length (calls w)) (mk_request doc idx chunk_text keys) = Answer text ->
  json_loads (decoder_input text) = inl (JArr (map JObj ds)) ->
  ds <> [] ->
  Forall provenance_typed ds ->
  exists rs,
    fst (extract chunk_text doc idx off keys api w) = Ok rs /\
    Forall2 (fun d r =>
               backfilled doc idx chunk_text d r /\
               forall s, dict_get PROVENANCE d = Some (JStr s) ->
                         well_shaped s = true -> r = d) ds rs.
Proof.
  intros Hreply Hdec Hne Htyped.
  destruct (backfill_records doc idx chunk_text ds Htyped) as (rs & Hrs & Hall).
  exists rs. split.
  - rewrite (extract_answer _ _ _ _ _ _ _ _ Hreply).
    unfold decode_and_validate. unfold decoder_input in Hdec. rewrite Hdec.
    assert (Ht : truth (JArr (map JObj ds)) = true) by (now destruct ds).
    rewrite Ht. cbn [negb is_list orb]. now rewrite Hrs.
  - clear Hrs Htyped Hne Hdec. induction Hall as [|d r ds' rs' Hb _ IH]; constructor.
    + split; [exact Hb|]. intros s. exact (backfilled_shape _ _ _ d r s Hb).
    + exact IH.
Qed.

Lemma run_chunks_app keys api pre : forall rest acc w,
  run_chunks keys api (pre ++ rest) acc w =
  match run_chunks keys api pre acc w with
  | (Ok acc', w') => run_chunks keys api rest acc' w'
  | (Raise e, w') => (Raise e, w')
  end.
Proof.
  induction pre as [|c pre IH]; intros rest acc w; [reflexivity|].
  cbn [app]. unfold run_chunks in *. cbn [extract_chunks]. unfold bind.
  destruct (extract_with_gemini _ _ _ _ _ _ _ _ _ _ w) as [[extracted|e] w1].
  - apply IH.
  - reflexivity.
Qed.

(** C6. When the response for a chunk cannot be decoded, the run raises a
    [ValueError] whose message carries the text handed to the decoder cut to
    500 characters (or a fixed note when that text is empty) and the decode
    error text; no request is sent for the remaining chunks. *)
Theorem decode_failure_aborts text api keys method doc w pre c post acc w1 answer msg :
  truthy api = true ->
  preprocess_and_chunk text doc 2000 200 = pre ++ c :: post ->
  run_chunks keys api pre [] w = (Ok acc, w1) ->
  gemini (length (calls w1)) (request_of keys c) = Answer answer ->
  json_loads (decoder_input answer) = inr msg ->
  exists error_text,
    parse_key_value_pairs gemini json_loads attribute_error type_error
      text api keys method doc w
    = (Raise (ValueError
                (lit "Failed to parse JSON response from Gemini API. Response: "
                 ++ error_text ++ [LF] ++ lit "Error: " ++ msg)),
       mk_world (calls w1 ++ [request_of keys c]) (warnings w1)) /\
    (length error_text <= 500)%nat /\
    (decoder_input answer <> [] -> error_text = firstn 500 (decoder_input answer)).
Proof.
  intros Hapi Hchunks Hpre Hreply Hdec.
  exists (if truthy (decoder_input answer) then prefix 500 (decoder_input answer)
          else lit "No response received").
  split; [|split].
  - unfold parse_key_value_pairs. rewrite Hapi. cbn [negb]. unfold bind.
    rewrite Hchunks. fold run_chunks. rewrite run_chunks_app, Hpre.
    unfold run_chunks. cbn [extract_chunks]. unfold bind.
    fold extract. unfold request_of in Hreply.
    rewrite (extract_answer _ _ _ _ _ _ _ _ Hreply).
    unfold decode_and_validate. unfold decoder_input in *. rewrite Hdec.
    reflexivity.
  - destruct (truthy (decoder_input answer)); [apply firstn_le_length|].
    vm_compute. lia.
  - intros Hne. apply truthy_true in Hne. now rewrite Hne.
Qed.

(** X30. When the response decodes to an empty (false) value or to a
    value that is not a list, the call does not fail: it logs one warning
    (and sends the one request) and returns no record, and the run goes on
    with the remaining chunks and the records gathered so far. *)
Theorem empty_extraction_tolerated keys api c post acc w answer v :
  gemini (length (calls w)) (request_of keys c) = Answer answer ->
  json_loads (decoder_input answer) = inl v ->
  truth v = false \/ is_list v = false ->
  let w' := mk_world (calls w ++ [request_of keys c])
                     (warnings w ++ [empty_warning (doc_id c) (paragraph_index c) (Chunker.text c)]) in
  extract (Chunker.text c) (doc_id c) (paragraph_index c) (offset c) keys api w = (Ok [], w') /\
  run_chunks keys api (c :: post) acc w = run_chunks keys api post acc w'.
Proof.
  intros Hreply Hdec Hv w'.
  assert (Hex : extract (Chunker.text c) (doc_id c) (paragraph_index c) (offset c) keys api w
                = (Ok [], w')).
  { unfold request_of in Hreply. rewrite (extract_answer _ _ _ _ _ _ _ _ Hreply).
    unfold decode_and_validate. unfold decoder_input in Hdec. rewrite Hdec.
    assert (Hc : negb (truth v) || negb (is_list v) = true)
      by (destruct Hv as [-> | ->]; [reflexivity|apply orb_true_r]).
    rewrite Hc. reflexivity. }
  split; [exact Hex|].
  unfold run_chunks. cbn [extract_chunks]. unfold bind. fold extract.
  rewrite Hex. now rewrite app_nil_r.
Qed.

End Run.

(** ** A sample run *)


(** C5. The code does not do what the claim and the comment above the
    back-fill say: the provenance "see: line 2" does not have the shape
    [doc_id:paragraph_index:char_start-char_end], yet its record is returned
    as it came (fourth record), because the guard only looks for a colon.
    The records without provenance or without a colon get the default. *)
Lemma malformed_provenance_kept :
  let fill := default_record (lit "D1") 0 SampleRun.alice in
  well_shaped (lit "see: line 2") = false /\
  dict_get PROVENANCE SampleRun.zip_record = Some (JStr (lit "see: line 2")) /\
  fst (SampleRun.extract [SampleRun.dumps SampleRun.records] SampleRun.alice SampleRun.start)
  = Ok [fill SampleRun.name_record; fill SampleRun.age_record;
        SampleRun.city_record; SampleRun.zip_record] /\
  SampleRun.zip_record <> fill SampleRun.zip_record.
Proof. vm_compute. repeat split. discriminate. Qed.

Lemma provenance_backfill_witness :
  let ds := [SampleRun.name_record; SampleRun.age_record;
             SampleRun.city_record; SampleRun.zip_record] in
  let answers := [SampleRun.dumps SampleRun.records] in
  SampleRun.gemini answers (length (calls SampleRun.start))
    (mk_request (lit "D1") 0 SampleRun.alice None) = Answer (Some (SampleRun.dumps SampleRun.records)) /\
  SampleRun.json_loads (decoder_input (Some (SampleRun.dumps SampleRun.records)))
  = inl (JArr (map JObj ds)) /\
  ds <> [] /\
  Forall provenance_typed ds /\
  exists rs,
    fst (SampleRun.extract answers SampleRun.alice SampleRun.start) = Ok rs /\
    Forall2 (fun d r =>
               backfilled (lit "D1") 0 SampleRun.alice d r /\
               forall s, dict_get PROVENANCE d = Some (JStr s) ->
                         well_shaped s = true -> r = d) ds rs.
Proof.
  intros ds answers.
  assert (H1 : SampleRun.gemini answers (length (calls SampleRun.start))
                 (mk_request (lit "D1") 0 SampleRun.alice None)
               = Answer (Some (SampleRun.dumps SampleRun.records))) by reflexivity.
  assert (H2 : SampleRun.json_loads (decoder_input (Some (SampleRun.dumps SampleRun.records)))
               = inl (JArr (map JObj ds))) by (vm_compute; reflexivity).
  assert (H3 : ds <> []) by discriminate.
  assert (H4 : Forall provenance_typed ds).
  { apply Forall_cons; [now left|].
    apply Forall_cons; [right; right; now exists (lit "line 2")|].
    apply Forall_cons; [right; right; now exists (lit "D1:0:0-18")|].
    apply Forall_cons; [right; right; now exists (lit "see: line 2")|].
    apply Forall_nil. }
  repeat (split; [assumption|]).
  exact (provenance_backfill (SampleRun.gemini answers) SampleRun.json_loads
           SampleRun.attribute_error SampleRun.type_error
           SampleRun.alice (lit "D1") 0 20 None (lit "k") SampleRun.start _ ds H1 H2 H3 H4).
Defined.

Lemma decode_failure_aborts_witness :
  let answers := [lit "I cannot help with that."] in
  let gemini := SampleRun.gemini answers in
  truthy (lit "k") = true /\
  preprocess_and_chunk SampleRun.two_pages (lit "D1") 2000 200 = [] ++ SampleRun.page1 :: [SampleRun.page2] /\
  extract_chunks gemini SampleRun.json_loads SampleRun.attribute_error SampleRun.type_error
    None (lit "k") [] [] SampleRun.start = (Ok [], SampleRun.start) /\
  gemini (length (calls SampleRun.start)) (request_of None SampleRun.page1)
  = Answer (Some (lit "I cannot help with that.")) /\
  SampleRun.json_loads (decoder_input (Some (lit "I cannot help with that.")))
  = inr SampleRun.decode_error /\
  exists error_text,
    SampleRun.parse answers SampleRun.two_pages SampleRun.start
    = (Raise (ValueError
                (lit "Failed to parse JSON response from Gemini API. Response: "
                 ++ error_text ++ [LF] ++ lit "Error: " ++ SampleRun.decode_error)),
       mk_world (calls SampleRun.start ++ [request_of None SampleRun.page1])
                (warnings SampleRun.start)) /\
    (length error_text <= 500)%nat /\
    (decoder_input (Some (lit "I cannot help with that.")) <> [] ->
     error_text = firstn 500 (decoder_input (Some (lit "I cannot help with that.")))).
Proof.
  intros answers gemini.
  assert (H1 : truthy (lit "k") = true) by reflexivity.
  assert (H2 : preprocess_and_chunk SampleRun.two_pages (lit "D1") 2000 200 = [] ++ SampleRun.page1 :: [SampleRun.page2])
    by (vm_compute; reflexivity).
  assert (H3 : extract_chunks gemini SampleRun.json_loads SampleRun.attribute_error
                 SampleRun.type_error None (lit "k") [] [] SampleRun.start
               = (Ok [], SampleRun.start)) by reflexivity.
  assert (H4 : gemini (length (calls SampleRun.start)) (request_of None SampleRun.page1)
               = Answer (Some (lit "I cannot help with that."))) by reflexivity.
  assert (H5 : SampleRun.json_loads (decoder_input (Some (lit "I cannot help with that.")))
               = inr SampleRun.decode_error) by (vm_compute; reflexivity).
  repeat (split; [assumption|]).
  exact (decode_failure_aborts gemini SampleRun.json_loads SampleRun.attribute_error
           SampleRun.type_error SampleRun.two_pages (lit "k") None (lit "Gemini LLM") (lit "D1")
           SampleRun.start [] SampleRun.page1 [SampleRun.page2] [] SampleRun.start _ _ H1 H2 H3 H4 H5).
Defined.

(** C7. The code does not tolerate every invalid extraction: the response
    [[1]] decodes to a list that is not a list of records, and the call
    raises "Gemini API call failed: ..." without a warning, although the call
    to the model succeeded; the run stops there, and no request is sent for
    the second chunk. *)
Lemma non_record_list_raises :
  SampleRun.json_loads (decoder_input (Some (lit "[1]"))) = inl (JArr [JInt 1]) /\
  list_of_records (JArr [JInt 1]) = false /\
  fst (SampleRun.extract [lit "[1]"] SampleRun.alice SampleRun.start)
  = Raise (PlainException
             (lit "Gemini API call failed: 'int' object has no attribute 'get'")) /\
  preprocess_and_chunk SampleRun.two_pages (lit "D1") 2000 200
  = [SampleRun.page1; SampleRun.page2] /\
  SampleRun.parse [lit "[1]"; lit "[]"] SampleRun.two_pages SampleRun.start
  = (Raise (PlainException
              (lit "Gemini API call failed: 'int' object has no attribute 'get'")),
     mk_world [request_of None SampleRun.page1] []).
Proof. vm_compute. repeat split. Qed.

Lemma empty_extraction_tolerated_witness :
  let answers := [lit "[]"; SampleRun.dumps SampleRun.records] in
  let gemini := SampleRun.gemini answers in
  let run := extract_chunks gemini SampleRun.json_loads SampleRun.attribute_error
               SampleRun.type_error None (lit "k") in
  let w' := mk_world [request_of None SampleRun.page1]
                     [empty_warning (lit "D1") 0 (repeat 97%N 1500)] in
  gemini (length (calls SampleRun.start)) (request_of None SampleRun.page1) = Answer (Some (lit "[]")) /\
  SampleRun.json_loads (decoder_input (Some (lit "[]"))) = inl (JArr []) /\
  (truth (JArr []) = false \/ is_list (JArr []) = false) /\
  extract_with_gemini gemini SampleRun.json_loads SampleRun.attribute_error
    SampleRun.type_error (Chunker.text SampleRun.page1) (doc_id SampleRun.page1) (paragraph_index SampleRun.page1)
    (offset SampleRun.page1) None (lit "k") SampleRun.start = (Ok [], w') /\
  run (SampleRun.page1 :: [SampleRun.page2]) [] SampleRun.start = run [SampleRun.page2] [] w'.
Proof.
  intros answers gemini run w'.
  assert (H1 : gemini (length (calls SampleRun.start)) (request_of None SampleRun.page1)
               = Answer (Some (lit "[]"))) by reflexivity.
  assert (H2 : SampleRun.json_loads (decoder_input (Some (lit "[]"))) = inl (JArr []))
    by (vm_compute; reflexivity).
  assert (H3 : truth (JArr []) = false \/ is_list (JArr []) = false) by (left; reflexivity).
  repeat (split; [assumption|]).
  exact (empty_extraction_tolerated gemini SampleRun.json_loads SampleRun.attribute_error
           SampleRun.type_error None (lit "k") SampleRun.page1 [SampleRun.page2] [] SampleRun.start _ _ H1 H2 H3).
Defined.

(* ================================================================ *)
(** * Further properties of the chunker *)


Lemma StronglySorted_snoc {A} (R : A -> A -> Prop) l y :
  StronglySorted R l -> Forall (fun x => R x y) l -> StronglySorted R (l ++ [y]).
Proof.
  induction 1 as [|x l Hl IH Hx]; intros Hy; cbn [app].
  - repeat constructor.
  - inversion Hy as [|? ? Hxy Hly]; subst. constructor; [now apply IH|].
    apply Forall_app; split; [exact Hx|]. now constructor.
Qed.

Lemma offsets_step doc chunk_size st ip :
  StronglySorted Z.lt (map offset (chunks st)) ->
  Forall (fun c => offset c < char_offset st) (chunks st) ->
  let st' := step doc chunk_size st ip in
  StronglySorted Z.lt (map offset (chunks st')) /\
  Forall (fun c => offset c < char_offset st') (chunks st').
Proof.
  destruct st as [cks buf cl co psi], ip as [i p]. cbn [chunks char_offset].
  intros Hs Hb. pose proof (len_nonneg p) as Hp.
  assert (Hgrow : forall l, Forall (fun c => offset c < co) l ->
                            Forall (fun c => offset c < co + (len p + 2)) l).
  { intros l Hl. eapply Forall_impl; [|exact Hl]. cbn beta. intros c Hc. lia. }
  unfold step; cbn [current_length current_chunk chunks char_offset paragraph_start_index].
  destruct ((cl + len p >? chunk_size) && truthy buf).
  - assert (Hs' : StronglySorted Z.lt
                    (map offset (cks ++ [mk_chunk (join NN buf) doc psi co]))).
    { rewrite map_app. apply StronglySorted_snoc; [exact Hs|].
      cbn [map offset]. now apply Forall_map. }
    assert (Hb' : Forall (fun c => offset c < co + (len p + 2))
                    (cks ++ [mk_chunk (join NN buf) doc psi co])).
    { apply Forall_app; split; [now apply Hgrow|].
      constructor; [cbn [offset]; lia|constructor]. }
    destruct (1 <? len buf); cbn [chunks char_offset]; now split.
  - cbn [chunks char_offset]. split; [exact Hs|now apply Hgrow].
Qed.

Lemma offsets_fold doc chunk_size l : forall st,
  StronglySorted Z.lt (map offset (chunks st)) ->
  Forall (fun c => offset c < char_offset st) (chunks st) ->
  let st' := fold_left (step doc chunk_size) l st in
  StronglySorted Z.lt (map offset (chunks st')) /\
  Forall (fun c => offset c < char_offset st') (chunks st').
Proof.
  induction l as [|ip l IH]; intros st Hs Hb; [now split|].
  cbn [fold_left]. destruct (offsets_step doc chunk_size st ip Hs Hb) as [Hs' Hb'].
  exact (IH _ Hs' Hb').
Qed.

(** X1. The offsets of the emitted chunks increase strictly along the chunk
    sequence, for every text and chunk size. *)
Theorem chunk_offsets_increasing (text doc : str) (chunk_size overlap : Z) :
  StronglySorted Z.lt (map offset (preprocess_and_chunk text doc chunk_size overlap)).
Proof.
  unfold preprocess_and_chunk, loop.
  destruct (offsets_fold doc chunk_size (enumerate (paragraphs (strip text))) init)
    as [Hs Hb]; [constructor|constructor|].
  set (st := fold_left _ _ _) in *.
  assert (Hf : StronglySorted Z.lt (map offset (finish doc st))).
  { unfold finish. destruct (truthy (current_chunk st)); [|exact Hs].
    rewrite map_app. apply StronglySorted_snoc; [exact Hs|].
    cbn [map offset]. now apply Forall_map. }
  destruct (truthy (finish doc st)); [exact Hf|repeat constructor].
Qed.

Lemma linked_starts raws :
  linked raws -> Forall (fun r => group r <> []) raws ->
  Sorted Z.lt (map start raws).
Proof.
  induction raws as [|r raws IH]; intros Hl Hg; [constructor|].
  inversion Hg as [|? ? Hr Hrest]; subst. destruct raws as [|r' raws].
  - repeat constructor.
  - destruct Hl as [Hsh Hl]. cbn [map]. constructor; [exact (IH Hl Hrest)|].
    constructor. unfold shared in Hsh.
    assert (1 <= len (group r)).
    { destruct (group r); [congruence|]. rewrite len_cons. pose proof (len_nonneg l). lia. }
    destruct (1 <? len (group r)) eqn:E; [apply Z.ltb_lt in E|]; lia.
Qed.

(** X2. The paragraph indices of the emitted chunks increase strictly along
    the chunk sequence: no two chunks start at the same paragraph. *)
Theorem chunk_indices_increasing (text doc : str) (chunk_size overlap : Z) :
  StronglySorted Z.lt
    (map paragraph_index (preprocess_and_chunk text doc chunk_size overlap)).
Proof.
  destruct (paragraphs (strip text)) as [|p0 ps0] eqn:Eps.
  - rewrite (chunk_none text doc chunk_size overlap Eps). repeat constructor.
  - destruct (chunk_some text doc chunk_size overlap) as (raws & Hcs & _ & Hg & _ & Hlk).
    { now rewrite Eps. }
    rewrite Hcs, map_map. cbn [to_chunk paragraph_index].
    apply Sorted_StronglySorted; [intros x y z; lia|].
    change (fun x : raw => start x) with start. apply linked_starts; [exact Hlk|].
    eapply Forall_impl; [|exact Hg]. now intros r [Hr _].
Qed.

Lemma fold_no_close doc chunk_size rest : forall done,
  total_len (done ++ rest) <= chunk_size ->
  fold_left (step doc chunk_size) (enumerate_from (len done) rest)
            (mk_state [] done (total_len done) (consumed done) 0)
  = mk_state [] (done ++ rest) (total_len (done ++ rest)) (consumed (done ++ rest)) 0.
Proof.
  induction rest as [|p rest IH]; intros done Hfit.
  - now rewrite app_nil_r.
  - cbn [enumerate_from fold_left].
    assert (Hp : total_len done + len p <= chunk_size).
    { rewrite total_len_app in Hfit. cbn [total_len fold_right] in Hfit.
      pose proof (total_len_nonneg rest). unfold total_len in *. lia. }
    unfold step at 2;
      cbn [current_length current_chunk chunks char_offset paragraph_start_index].
    replace (total_len done + len p >? chunk_size) with false
      by (symmetry; rewrite Z.gtb_ltb; apply Z.ltb_ge; lia).
    cbn [andb chunks current_chunk current_length char_offset paragraph_start_index].
    replace (len done + 1) with (len (done ++ [p])) by (rewrite len_app, len_cons, len_nil; lia).
    replace (total_len done + len p) with (total_len (done ++ [p]))
      by (rewrite total_len_app; cbn; lia).
    replace (consumed done + (len p + 2)) with (consumed (done ++ [p]))
      by (rewrite consumed_app; cbn; lia).
    rewrite IH; rewrite <- app_assoc; [reflexivity|exact Hfit].
Qed.

(** X3. A text whose paragraphs fit together (the sum of their lengths is at
    most [chunk_size]) is emitted as one chunk: all its paragraphs joined by
    blank lines, paragraph index 0, and as offset the characters consumed by
    all of them. *)
Theorem chunk_single (text doc : str) (chunk_size overlap : Z) :
  paragraphs (strip text) <> [] ->
  total_len (paragraphs (strip text)) <= chunk_size ->
  preprocess_and_chunk text doc chunk_size overlap
  = [mk_chunk (join NN (paragraphs (strip text))) doc 0
              (consumed (paragraphs (strip text)))].
Proof.
  intros Hne Hfit. unfold preprocess_and_chunk, loop, enumerate.
  pose proof (fold_no_close doc chunk_size (paragraphs (strip text)) [] Hfit) as H.
  cbn [app] in H. change (len (@nil str)) with 0 in H.
  change (mk_state [] [] (total_len []) (consumed []) 0) with init in H.
  rewrite H. unfold finish. cbn [current_chunk chunks char_offset paragraph_start_index].
  apply truthy_true in Hne. rewrite Hne. reflexivity.
Qed.

Lemma chunk_single_witness :
  let t := lit "Name: Alice" ++ NN ++ lit "Age: 30" in
  paragraphs (strip t) <> [] /\
  total_len (paragraphs (strip t)) <= 2000 /\
  preprocess_and_chunk t (lit "D1") 2000 200
  = [mk_chunk (join NN (paragraphs (strip t))) (lit "D1") 0 (consumed (paragraphs (strip t)))].
Proof.
  intros t.
  assert (H1 : paragraphs (strip t) <> []) by (vm_compute; discriminate).
  assert (H2 : total_len (paragraphs (strip t)) <= 2000) by (vm_compute; discriminate).
  repeat (split; [assumption|]).
  exact (chunk_single t (lit "D1") 2000 200 H1 H2).
Defined.

Lemma len_join g :
  g <> [] -> len (join NN g) = total_len g + 2 * (len g - 1).
Proof.
  induction g as [|p g IH]; intros Hne; [congruence|].
  destruct g as [|q g].
  - cbn [join total_len fold_right]. change (len [p]) with 1. lia.
  - change (join NN (p :: q :: g)) with (p ++ NN ++ join NN (q :: g)).
    rewrite !len_app, IH by discriminate.
    change (len NN) with 2. change (total_len (p :: q :: g)) with (len p + total_len (q :: g)).
    rewrite (len_cons p (q :: g)). lia.
Qed.

(** X4. The size bound is on the paragraphs, not on the text: a chunk of more
    than two paragraphs has paragraphs of total length at most [chunk_size],
    and its text is longer than that total by the two characters of each
    separator. *)
Theorem chunk_size_bound (text doc : str) (chunk_size overlap : Z) (c : chunk) :
  In c (preprocess_and_chunk text doc chunk_size overlap) ->
  2 < len (chunk_paragraphs c) ->
  total_len (chunk_paragraphs c) <= chunk_size /\
  len (Chunker.text c) = total_len (chunk_paragraphs c) + 2 * (len (chunk_paragraphs c) - 1).
Proof.
  intros Hc Hn. destruct (paragraphs (strip text)) as [|p0 ps0] eqn:Eps.
  - rewrite (chunk_none text doc chunk_size overlap Eps) in Hc.
    destruct Hc as [<-|[]]. vm_compute in Hn. discriminate.
  - destruct (chunk_some text doc chunk_size overlap) as (raws & Hcs & _ & Hg & Hsm & _).
    { now rewrite Eps. }
    rewrite Hcs in Hc. apply in_map_iff in Hc as (r & <- & Hr).
    rewrite Forall_forall in Hg, Hsm. specialize (Hg r Hr).
    rewrite (chunk_paragraphs_to_chunk doc (paragraphs (strip text)) r (paragraphs_ok _) Hg) in *.
    split.
    + destruct (Hsm (group r) (in_map group _ _ Hr)) as [Hle|Hle]; [exact Hle|lia].
    + cbn [to_chunk Chunker.text]. apply len_join. apply Hg.
Qed.

Lemma chunk_size_bound_witness :
  let t := lit "aa" ++ NN ++ lit "bb" ++ NN ++ lit "cc" ++ NN ++ lit "dddddddd" in
  let c := mk_chunk (lit "aa" ++ NN ++ lit "bb" ++ NN ++ lit "cc") (lit "D1") 0 12 in
  In c (preprocess_and_chunk t (lit "D1") 7 200) /\
  2 < len (chunk_paragraphs c) /\
  total_len (chunk_paragraphs c) <= 7 /\
  len (Chunker.text c) = total_len (chunk_paragraphs c) + 2 * (len (chunk_paragraphs c) - 1).
Proof.
  intros t c.
  assert (H1 : In c (preprocess_and_chunk t (lit "D1") 7 200)) by (vm_compute; left; reflexivity).
  assert (H2 : 2 < len (chunk_paragraphs c)) by (vm_compute; reflexivity).
  repeat (split; [assumption|]).
  exact (chunk_size_bound t (lit "D1") 7 200 c H1 H2).
Defined.

(** X6. The chunker always returns at least one chunk, and every chunk
    carries the document identifier it was given. *)
Theorem chunks_tagged (text doc : str) (chunk_size overlap : Z) :
  preprocess_and_chunk text doc chunk_size overlap <> [] /\
  Forall (fun c => doc_id c = doc) (preprocess_and_chunk text doc chunk_size overlap).
Proof.
  destruct (paragraphs (strip text)) as [|p0 ps0] eqn:Eps.
  - rewrite (chunk_none text doc chunk_size overlap Eps).
    split; [discriminate|now repeat constructor].
  - destruct (finish_loop doc chunk_size (paragraphs (strip text)))
      as (raws & Hf & Hne & _); [now rewrite Eps|].
    assert (Hcs : preprocess_and_chunk text doc chunk_size overlap = map (to_chunk doc) raws).
    { unfold preprocess_and_chunk. rewrite Hf. now destruct raws. }
    rewrite Hcs. split.
    + now destruct raws.
    + apply Forall_map, Forall_forall. now intros r _.
Qed.

(* ================================================================ *)
(** * Further properties of the normalizer *)

Lemma collapse_blanks_no_TAB s : Forall (fun c => c <> TAB) (collapse_blanks s).
Proof.
  induction s as [|c r IH]; [constructor|]. rewrite collapse_blanks_cons.
  destruct (is_blank c) eqn:Hc.
  - destruct r as [|d r']; [repeat constructor; discriminate|].
    destruct (is_blank d); [exact IH|constructor; [discriminate|exact IH]].
  - constructor; [|exact IH]. intros ->. discriminate.
Qed.

Lemma no_double_space_cons2 c d r :
  no_double_space (c :: d :: r) = negb ((c =? SP) && (d =? SP))%N && no_double_space (d :: r).
Proof. reflexivity. Qed.

Lemma not_blank_not_SP c : is_blank c = false -> (c =? SP)%N = false.
Proof. unfold is_blank. intros H. now apply orb_false_iff in H as [H _]. Qed.

Lemma collapse_blanks_spaced s : no_double_space (collapse_blanks s) = true.
Proof.
  induction s as [|c r IH]; [reflexivity|]. rewrite collapse_blanks_cons.
  destruct (is_blank c) eqn:Hc.
  - destruct r as [|d r']; [reflexivity|].
    destruct (is_blank d) eqn:Hd; [exact IH|].
    rewrite collapse_blanks_cons, Hd in *.
    now rewrite no_double_space_cons2, IH, (not_blank_not_SP d Hd), andb_false_r.
  - destruct (collapse_blanks r) as [|e r'] eqn:E; [reflexivity|].
    now rewrite no_double_space_cons2, IH, (not_blank_not_SP c Hc).
Qed.

Lemma tidy_line_fixed l :
  Forall (fun c => c <> TAB) l -> no_double_space l = true -> collapse_blanks l = l.
Proof.
  induction l as [|c r IH]; intros Ht Hs; [reflexivity|].
  inversion Ht as [|? ? Hc Hr]; subst. rewrite collapse_blanks_cons.
  destruct (is_blank c) eqn:Eb.
  - assert (c = SP) as ->.
    { unfold is_blank in Eb. apply orb_true_iff in Eb as [E|E]; apply N.eqb_eq in E;
        [exact E|congruence]. }
    destruct r as [|d r']; [reflexivity|].
    rewrite no_double_space_cons2 in Hs. apply andb_true_iff in Hs as [Hd Hs].
    inversion Hr as [|? ? Hdt _]; subst.
    assert (Ed : is_blank d = false).
    { unfold is_blank. apply N.eqb_neq in Hdt. rewrite Hdt, orb_false_r.
      change (SP =? SP)%N with true in Hd. cbn [andb] in Hd. now apply negb_true_iff in Hd. }
    rewrite Ed. f_equal. now apply IH.
  - f_equal. apply IH; [exact Hr|]. destruct r; [reflexivity|].
    rewrite no_double_space_cons2 in Hs. now apply andb_true_iff in Hs.
Qed.

Lemma normal_tidy_line l : normal_line l <-> tidy_line l.
Proof.
  split.
  - intros [Hc Hf]. split; [exact Hc|]. rewrite <- Hf.
    split; [apply collapse_blanks_no_TAB|apply collapse_blanks_spaced].
  - intros (Hc & Ht & Hs). split; [exact Hc|now apply tidy_line_fixed].
Qed.

Lemma tidy_lines_no_TAB w : Forall (fun c => c <> TAB) (tidy_lines w).
Proof.
  unfold tidy_lines.
  apply strip_Forall, collapse_newlines_Forall, join_Forall; [discriminate|].
  apply Forall_map, Forall_forall. intros l _. apply collapse_blanks_no_TAB.
Qed.

(** X7. Whatever the input and the Unicode tables, the normalized text
    consists of printable characters and line feeds only (no tab, carriage
    return or other control character), has no three line feeds in a row and
    no white space at either end. *)
Theorem normalized_characters (nfkc : str -> str) (printable_wide : N -> bool) (t : str) :
  Forall (fun c => isprintable printable_wide c = true \/ c = LF)
         (normalize_text nfkc printable_wide t) /\
  no_triple (normalize_text nfkc printable_wide t) = true /\
  clean (normalize_text nfkc printable_wide t).
Proof.
  rewrite normalize_text_tidy. set (v := filter (keep printable_wide) (nfkc t)).
  split; [|unfold tidy; split; apply tidy_lines_normal].
  assert (Hkeep : Forall (fun c => keep printable_wide c = true) (tidy v)).
  { apply tidy_Forall; try reflexivity. apply filter_keeps. }
  pose proof (tidy_no_CR v) as Hcr. pose proof (tidy_lines_no_TAB (replace_cr (replace_crlf v))) as Htab.
  fold (tidy v) in Htab. rewrite Forall_forall in *. intros c Hc.
  specialize (Hkeep c Hc). specialize (Hcr c Hc). specialize (Htab c Hc).
  unfold keep in Hkeep. apply orb_true_iff in Hkeep as [H|H]; [now left|].
  apply N.eqb_neq in Hcr, Htab. rewrite Hcr, Htab, !orb_false_r in H.
  right. now apply N.eqb_eq.
Qed.

(** X8. Every line of the normalized text has no white space at its ends, no
    tab, and no two spaces in a row. *)
Theorem normalized_lines (nfkc : str -> str) (printable_wide : N -> bool) (t : str) :
  Forall tidy_line (split_lines (normalize_text nfkc printable_wide t)).
Proof.
  rewrite normalize_text_tidy. unfold tidy.
  eapply Forall_impl; [|apply tidy_lines_normal]. intros l. apply normal_tidy_line.
Qed.

(** X9. A text already in that form is returned as it is: if NFKC leaves it
    unchanged, its characters are printable or line feeds, its lines are
    tidy, it has no three line feeds in a row and no white space at its ends,
    then [normalize_text] returns it unchanged. *)
Theorem normalize_fixed (nfkc : str -> str) (printable_wide : N -> bool) (t : str) :
  nfkc t = t ->
  Forall (fun c => isprintable printable_wide c = true \/ c = LF) t ->
  Forall tidy_line (split_lines t) ->
  no_triple t = true ->
  clean t ->
  normalize_text nfkc printable_wide t = t.
Proof.
  intros Hn Hp Hl Ht Hc. rewrite normalize_text_tidy, Hn.
  assert (Hkeep : Forall (fun c => keep printable_wide c = true) t).
  { eapply Forall_impl; [|exact Hp]. intros c [H| ->]; unfold keep; [now rewrite H|].
    apply orb_true_r. }
  assert (Hcr : Forall (fun c => c <> CR) t).
  { eapply Forall_impl; [|exact Hp]. intros c [H| ->]; [|discriminate].
    intros ->. discriminate. }
  rewrite (filter_id _ _ Hkeep). unfold tidy.
  rewrite (replace_crlf_id _ Hcr), (replace_cr_id _ Hcr).
  apply tidy_lines_fixed; [|exact Ht|exact Hc].
  eapply Forall_impl; [|exact Hl]. intros l. apply normal_tidy_line.
Qed.

Lemma normalize_fixed_witness :
  let t := lit "Name: Alice" ++ [LF; LF] ++ lit "Age: 30" ++ [LF] ++ lit "City: Paris" in
  UnicodeSample.nfkc t = t /\
  Forall (fun c => isprintable UnicodeSample.printable_wide c = true \/ c = LF) t /\
  Forall tidy_line (split_lines t) /\
  no_triple t = true /\
  clean t /\
  normalize_text UnicodeSample.nfkc UnicodeSample.printable_wide t = t.
Proof.
  intros t.
  assert (H1 : UnicodeSample.nfkc t = t) by (vm_compute; reflexivity).
  assert (H2 : Forall (fun c => isprintable UnicodeSample.printable_wide c = true \/ c = LF) t).
  { apply Forall_forall. intros c Hc.
    destruct (isprintable UnicodeSample.printable_wide c) eqn:E; [now left|right].
    vm_compute in Hc.
    repeat (destruct Hc as [<-|Hc]; [first [reflexivity|discriminate E]|]).
    destruct Hc. }
  assert (H3 : Forall tidy_line (split_lines t)).
  { repeat (apply Forall_cons || apply Forall_nil);
      (split; [split; reflexivity|split; [|reflexivity]]);
      repeat (apply Forall_cons || apply Forall_nil); discriminate. }
  assert (H4 : no_triple t = true) by reflexivity.
  assert (H5 : clean t) by (split; reflexivity).
  repeat (split; [assumption|]).
  exact (normalize_fixed UnicodeSample.nfkc UnicodeSample.printable_wide t H1 H2 H3 H4 H5).
Defined.

Lemma replace_crlf_length s : (length (replace_crlf s) <= length s)%nat.
Proof.
  induction s as [| c | c d r IH1 IH2] using list_ind2; [reflexivity|reflexivity|].
  change (replace_crlf (c :: d :: r))
    with (if ((c =? CR) && (d =? LF))%N then LF :: replace_crlf r
          else c :: replace_crlf (d :: r)).
  destruct ((c =? CR) && (d =? LF))%N; cbn [length] in *; lia.
Qed.

Lemma strip_length s : (length (strip s) <= length s)%nat.
Proof.
  destruct (strip_split s) as (a & b & Hs & _).
  rewrite Hs at 2. rewrite !length_app. lia.
Qed.

Lemma collapse_blanks_length s : (length (collapse_blanks s) <= length s)%nat.
Proof.
  induction s as [|c r IH]; [reflexivity|]. rewrite collapse_blanks_cons.
  destruct (is_blank c); [|cbn [length]; lia].
  destruct r as [|d r']; [reflexivity|].
  destruct (is_blank d); cbn [length] in *; lia.
Qed.

Lemma collapse_newlines_length s : (length (collapse_newlines s) <= length s)%nat.
Proof.
  induction s as [|c r IH]; [reflexivity|]. cbn [collapse_newlines].
  destruct (triple_lf (c :: r)); cbn [length]; lia.
Qed.

Lemma join_map_length (f : str -> str) ls :
  (forall l, length (f l) <= length l)%nat ->
  (length (join [LF] (map f ls)) <= length (join [LF] ls))%nat.
Proof.
  intros Hf. induction ls as [|l ls IH]; [reflexivity|].
  destruct ls as [|l' ls]; [apply Hf|].
  change (join [LF] (map f (l :: l' :: ls)))
    with (f l ++ [LF] ++ join [LF] (map f (l' :: ls))).
  change (join [LF] (l :: l' :: ls)) with (l ++ [LF] ++ join [LF] (l' :: ls)).
  rewrite !length_app. specialize (Hf l). lia.
Qed.

Lemma norm_line_length l : (length (norm_line l) <= length l)%nat.
Proof.
  unfold norm_line. pose proof (collapse_blanks_length (strip l)).
  pose proof (strip_length l). lia.
Qed.

Lemma tidy_length v : (length (tidy v) <= length v)%nat.
Proof.
  unfold tidy, tidy_lines.
  set (w := replace_cr (replace_crlf v)).
  pose proof (strip_length (collapse_newlines (join [LF] (map norm_line (split_lines w))))).
  pose proof (collapse_newlines_length (join [LF] (map norm_line (split_lines w)))).
  pose proof (join_map_length norm_line (split_lines w) norm_line_length) as Hj.
  rewrite join_split_lines in Hj.
  assert (length w <= length v)%nat.
  { unfold w, replace_cr. rewrite length_map. apply replace_crlf_length. }
  lia.
Qed.

(** X10. Normalization never adds characters: the normalized text is at most
    as long as the NFKC form of the input. *)
Theorem normalize_never_longer (nfkc : str -> str) (printable_wide : N -> bool) (t : str) :
  (length (normalize_text nfkc printable_wide t) <= length (nfkc t))%nat.
Proof.
  rewrite normalize_text_tidy.
  pose proof (tidy_length (filter (keep printable_wide) (nfkc t))).
  pose proof (filter_length_le (keep printable_wide) (nfkc t)). lia.
Qed.

(* ================================================================ *)
(** * Further properties of the orchestrator and the projector *)

Section RunExtras.

Variable gemini : nat -> request -> reply.
Variable json_loads : str -> json + str.
Variable attribute_error : json -> str.
Variable type_error : json -> str.

Let extract := extract_with_gemini gemini json_loads attribute_error type_error.
Let run_chunks := extract_chunks gemini json_loads attribute_error type_error.
Let parse := parse_key_value_pairs gemini json_loads attribute_error type_error.

Lemma decode_and_validate_calls doc idx ct rt w :
  calls (snd (decode_and_validate json_loads attribute_error type_error doc idx ct rt w))
  = calls w.
Proof.
  unfold decode_and_validate. destruct (json_loads _) as [v|msg]; [|reflexivity].
  destruct (negb (truth v) || negb (is_list v)); [reflexivity|].
  destruct v; try reflexivity.
  destruct (backfill _ _ _ _ _ _); reflexivity.
Qed.

Lemma extract_calls ct doc idx off keys api w :
  calls (snd (extract ct doc idx off keys api w))
  = calls w ++ [mk_request doc idx ct keys].
Proof.
  unfold extract, extract_with_gemini.
  destruct (gemini _ _) as [e|t|r]; [reflexivity| |];
    now rewrite decode_and_validate_calls.
Qed.

Lemma run_chunks_requests keys api chunks : forall acc w,
  exists n,
    (n <= length chunks)%nat /\
    calls (snd (run_chunks keys api chunks acc w))
    = calls w ++ map (request_of keys) (firstn n chunks) /\
    (forall rows, fst (run_chunks keys api chunks acc w) = Ok rows -> n = length chunks).
Proof.
  induction chunks as [|c chunks IH]; intros acc w.
  - exists 0%nat. cbn. rewrite app_nil_r. auto.
  - unfold run_chunks in *. cbn [extract_chunks]. unfold bind.
    pose proof (extract_calls (Chunker.text c) (doc_id c) (paragraph_index c) (offset c)
                  keys api w) as Hc.
    unfold extract in Hc.
    destruct (extract_with_gemini _ _ _ _ _ _ _ _ _ _ w) as [[extracted|e] w1];
      cbn [snd] in Hc.
    + destruct (IH (acc ++ extracted) w1) as (n & Hn & Hcalls & Hok).
      exists (S n). split; [cbn [length]; lia|]. split.
      * rewrite Hcalls, Hc, <- app_assoc. reflexivity.
      * intros rows Hr. cbn [length]. f_equal. now apply (Hok rows).
    + exists 1%nat. split; [cbn [length]; lia|]. split.
      * cbn [snd firstn map]. exact Hc.
      * cbn [fst]. discriminate.
Qed.

(** X11. A run sends its requests in chunk order, one per chunk, built from
    the chunk's text, document identifier and paragraph index: when it
    returns rows every chunk was requested exactly once, and when it raises
    the requests sent are those of an initial part of the chunk sequence. *)
Theorem requests_follow_chunks text api keys method doc w :
  truthy api = true ->
  exists n,
    (n <= length (preprocess_and_chunk text doc 2000 200))%nat /\
    calls (snd (parse text api keys method doc w))
    = calls w ++ map (request_of keys) (firstn n (preprocess_and_chunk text doc 2000 200)) /\
    (forall rows, fst (parse text api keys method doc w) = Ok rows ->
                  n = length (preprocess_and_chunk text doc 2000 200)).
Proof.
  intros Hapi. unfold parse, parse_key_value_pairs. rewrite Hapi. cbn [negb].
  destruct (run_chunks_requests keys api (preprocess_and_chunk text doc 2000 200) [] w)
    as (n & Hn & Hcalls & Hok).
  exists n. unfold bind. unfold run_chunks in *.
  destruct (extract_chunks _ _ _ _ _ _ _ _ w) as [[all|e] w1]; cbn [fst snd] in *.
  - repeat split; [exact Hn|exact Hcalls|]. intros rows _. now apply (Hok all).
  - repeat split; [exact Hn|exact Hcalls|]. discriminate.
Qed.

(** X12. For an empty or white-space-only text the run still sends one
    request, for a chunk with empty text at paragraph 0. *)
Theorem blank_text_one_request text api keys method doc w :
  truthy api = true ->
  blank text = true ->
  calls (snd (parse text api keys method doc w)) = calls w ++ [mk_request doc 0 [] keys].
Proof.
  intros Hapi Hb. unfold parse, parse_key_value_pairs. rewrite Hapi. cbn [negb].
  rewrite (chunk_none text doc 2000 200 (paragraphs_blank text Hb)).
  cbn [extract_chunks]. unfold bind.
  pose proof (extract_calls [] doc 0 0 keys api w) as Hc. unfold extract in Hc.
  cbn [Chunker.text doc_id paragraph_index offset].
  destruct (extract_with_gemini _ _ _ _ _ _ _ _ _ _ w) as [[extracted|e] w1];
    cbn [snd] in *; exact Hc.
Qed.

(** X17. Every row that a run returns has exactly the columns key, value and
    comments, in this order. *)
Theorem rows_three_columns text api keys method doc w rows :
  fst (parse text api keys method doc w) = Ok rows ->
  Forall (fun row => map fst row = [lit "key"; lit "value"; lit "comments"]) rows.
Proof.
  unfold parse, parse_key_value_pairs. destruct (negb (truthy api)); [discriminate|].
  unfold bind. destruct (extract_chunks _ _ _ _ _ _ _ _ w) as [[all|e] w1];
    cbn [fst ret]; [|discriminate].
  intros H. injection H as <-. rewrite convert_map.
  apply Forall_map, Forall_forall. now intros d _.
Qed.

End RunExtras.

Lemma requests_follow_chunks_witness :
  let answers := [lit "[]"; SampleRun.dumps SampleRun.records] in
  let run := SampleRun.parse answers SampleRun.two_pages SampleRun.start in
  let chunks := preprocess_and_chunk SampleRun.two_pages (lit "D1") 2000 200 in
  truthy (lit "k") = true /\
  exists n,
    (n <= length chunks)%nat /\
    calls (snd run) = calls SampleRun.start ++ map (request_of None) (firstn n chunks) /\
    (forall rows, fst run = Ok rows -> n = length chunks).
Proof.
  intros answers run chunks. split; [reflexivity|].
  exact (requests_follow_chunks (SampleRun.gemini answers) SampleRun.json_loads
           SampleRun.attribute_error SampleRun.type_error SampleRun.two_pages (lit "k")
           None (lit "Gemini LLM") (lit "D1") SampleRun.start eq_refl).
Defined.

Lemma blank_text_one_request_witness :
  let text := [SP; LF; LF; TAB] in
  truthy (lit "k") = true /\
  blank text = true /\
  calls (snd (SampleRun.parse [lit "[]"] text SampleRun.start))
  = calls SampleRun.start ++ [mk_request (lit "D1") 0 [] None].
Proof.
  intros text. split; [reflexivity|]. split; [reflexivity|].
  exact (blank_text_one_request (SampleRun.gemini [lit "[]"]) SampleRun.json_loads
           SampleRun.attribute_error SampleRun.type_error text (lit "k")
           None (lit "Gemini LLM") (lit "D1") SampleRun.start eq_refl eq_refl).
Defined.

Lemma rows_three_columns_witness :
  let answers := [lit "[]"; SampleRun.dumps SampleRun.records] in
  let run := SampleRun.parse answers SampleRun.two_pages SampleRun.start in
  let rows := match fst run with Ok r => r | Raise _ => [] end in
  fst run = Ok rows /\
  length rows = 4%nat /\
  Forall (fun row => map fst row = [lit "key"; lit "value"; lit "comments"]) rows.
Proof.
  intros answers run rows.
  assert (H : fst run = Ok rows) by (vm_compute; reflexivity).
  split; [exact H|]. split; [vm_compute; reflexivity|].
  exact (rows_three_columns (SampleRun.gemini answers) SampleRun.json_loads
           SampleRun.attribute_error SampleRun.type_error SampleRun.two_pages (lit "k")
           None (lit "Gemini LLM") (lit "D1") SampleRun.start rows H).
Defined.

(** ** The projector again *)

(** X16. Projecting twice is projecting once: the rows of
    [convert_to_three_columns] are left as they are by it. *)
Theorem convert_idempotent (extractions : list dict) :
  convert_to_three_columns (convert_to_three_columns extractions)
  = convert_to_three_columns extractions.
Proof.
  rewrite !convert_map, map_map. apply map_ext. intros d. reflexivity.
Qed.

(** ** Splitting at one character, and the code fence *)

Lemma split_char_none k x :
  Forall (fun c => c <> k) x -> split [k] x = [x].
Proof.
  unfold split. induction 1 as [|c x Hc _ IH]; [reflexivity|].
  cbn [split_skip startswith]. apply N.eqb_neq in Hc. rewrite N.eqb_sym, Hc.
  cbn [andb]. now rewrite IH.
Qed.

Lemma split_char_app k x rest :
  Forall (fun c => c <> k) x -> split [k] (x ++ k :: rest) = x :: split [k] rest.
Proof.
  unfold split. induction 1 as [|c x Hc _ IH].
  - cbn [app split_skip startswith length]. now rewrite N.eqb_refl.
  - cbn [app split_skip startswith]. apply N.eqb_neq in Hc. rewrite N.eqb_sym, Hc.
    cbn [andb]. now rewrite IH.
Qed.

Lemma split_fence_none x :
  Forall (fun c => c <> BACKTICK) x -> split FENCE x = [x].
Proof.
  unfold split. induction 1 as [|c x Hc _ IH]; [reflexivity|].
  cbn [split_skip]. change (startswith FENCE (c :: x))
    with ((BACKTICK =? c)%N && startswith [BACKTICK; BACKTICK] x).
  apply N.eqb_neq in Hc. rewrite N.eqb_sym, Hc. cbn [andb]. now rewrite IH.
Qed.

Lemma split_fence_app x rest :
  Forall (fun c => c <> BACKTICK) x ->
  split FENCE (x ++ FENCE ++ rest) = x :: split FENCE rest.
Proof.
  unfold split. induction 1 as [|c x Hc _ IH]; [reflexivity|].
  cbn [app split_skip].
  change (startswith FENCE (c :: x ++ FENCE ++ rest))
    with ((BACKTICK =? c)%N && startswith [BACKTICK; BACKTICK] (x ++ FENCE ++ rest)).
  apply N.eqb_neq in Hc. rewrite N.eqb_sym, Hc. cbn [andb]. now rewrite IH.
Qed.

(** X13. A response that opens with a code fence tagged [json] is reduced to
    what stands between the fences, stripped: the tag and whatever follows
    the closing fence are dropped, and a missing closing fence is
    tolerated (for a body without back-ticks). *)
Theorem fence_removed (body rest : str) :
  Forall (fun c => c <> BACKTICK) body ->
  strip_fence (FENCE ++ lit "json" ++ body ++ FENCE ++ rest) = strip body /\
  strip_fence (FENCE ++ lit "json" ++ body) = strip body.
Proof.
  intros Hb.
  assert (Hj : Forall (fun c => c <> BACKTICK) (lit "json" ++ body)).
  { apply Forall_app; split; [|exact Hb]. repeat constructor; discriminate. }
  assert (Hlen : forall (x : str) l, (2 <=? len ([] :: x :: l)) = true).
  { intros x l. apply Z.leb_le. unfold len. cbn [length]. lia. }
  split.
  - unfold strip_fence.
    change (startswith FENCE (FENCE ++ lit "json" ++ body ++ FENCE ++ rest)) with true.
    cbv iota.
    change (FENCE ++ lit "json" ++ body ++ FENCE ++ rest)
      with ([] ++ FENCE ++ (lit "json" ++ body ++ FENCE ++ rest)).
    rewrite (split_fence_app [] _ (Forall_nil _)).
    replace (lit "json" ++ body ++ FENCE ++ rest) with ((lit "json" ++ body) ++ FENCE ++ rest)
      by now rewrite <- app_assoc.
    rewrite (split_fence_app _ rest Hj), Hlen. reflexivity.
  - unfold strip_fence.
    change (startswith FENCE (FENCE ++ lit "json" ++ body)) with true.
    cbv iota.
    change (FENCE ++ lit "json" ++ body) with ([] ++ FENCE ++ (lit "json" ++ body)).
    rewrite (split_fence_app [] _ (Forall_nil _)), (split_fence_none _ Hj), Hlen.
    reflexivity.
Qed.

Lemma fence_removed_witness :
  let body := [LF] ++ lit "[]" ++ [LF] in
  Forall (fun c => c <> BACKTICK) body /\
  strip_fence (FENCE ++ lit "json" ++ body ++ FENCE ++ lit " Hope this helps!") = strip body /\
  strip_fence (FENCE ++ lit "json" ++ body) = strip body.
Proof.
  intros body.
  assert (H : Forall (fun c => c <> BACKTICK) body) by (repeat constructor; discriminate).
  split; [exact H|]. exact (fence_removed body (lit " Hope this helps!") H).
Defined.

(** ** The default provenance *)

Lemma digits_uint d : forallb is_digit (lit (NilEmpty.string_of_uint d)) = true.
Proof. induction d; cbn; auto. Qed.

Lemma uint_nonempty d : d <> Decimal.Nil -> truthy (lit (NilEmpty.string_of_uint d)) = true.
Proof. destruct d; [congruence|reflexivity..]. Qed.

Lemma str_of_Z_number n : 0 <= n -> number (str_of_Z n) = true.
Proof.
  intros Hn. unfold number, str_of_Z. destruct n as [|p|p]; [reflexivity| |lia].
  cbn [Z.to_int NilEmpty.string_of_int].
  now rewrite digits_uint, (uint_nonempty _ (Unsigned.to_uint_nonnil p)).
Qed.

Lemma number_without k s :
  is_digit k = false -> number s = true -> Forall (fun c => c <> k) s.
Proof.
  intros Hk Hs. unfold number in Hs. apply andb_true_iff in Hs as [_ Hs].
  rewrite forallb_forall in Hs. apply Forall_forall. intros c Hc ->.
  specialize (Hs k Hc). congruence.
Qed.

(** X14. The default provenance has the documented shape
    [doc_id:paragraph_index:char_start-char_end] whenever the document
    identifier is not empty and has no colon and the paragraph index is not
    negative. *)
Theorem default_provenance_shape (doc : str) (idx : Z) (chunk_text : str) :
  doc <> [] ->
  Forall (fun c => c <> 58%N) doc ->
  0 <= idx ->
  well_shaped (default_provenance doc idx chunk_text) = true.
Proof.
  intros Hne Hdoc Hidx.
  pose proof (str_of_Z_number idx Hidx) as Hi.
  pose proof (str_of_Z_number (len chunk_text) (len_nonneg chunk_text)) as Hn.
  unfold well_shaped, default_provenance.
  change COLON with [58%N]. change (lit ":") with [58%N]. change (lit ":0-") with [58; 48; 45]%N.
  change (doc ++ [58%N] ++ str_of_Z idx ++ [58; 48; 45]%N ++ str_of_Z (len chunk_text))
    with (doc ++ 58%N :: (str_of_Z idx ++ 58%N :: ([48%N] ++ 45%N :: str_of_Z (len chunk_text)))).
  rewrite (split_char_app _ _ _ Hdoc).
  rewrite (split_char_app _ _ _ (number_without 58%N _ eq_refl Hi)).
  rewrite split_char_none.
  - change (lit "-") with [45%N].
    rewrite (split_char_app 45%N [48%N]) by (repeat constructor; discriminate).
    rewrite (split_char_none _ _ (number_without 45%N _ eq_refl Hn)).
    apply truthy_true in Hne. now rewrite Hne, Hi, Hn.
  - apply Forall_app; split; [repeat constructor; discriminate|].
    constructor; [discriminate|]. exact (number_without 58%N _ eq_refl Hn).
Qed.

Lemma default_provenance_shape_witness :
  lit "D2" <> [] /\
  Forall (fun c => c <> 58%N) (lit "D2") /\
  0 <= 3 /\
  well_shaped (default_provenance (lit "D2") 3 (lit "Name: Alice")) = true /\
  default_provenance (lit "D2") 3 (lit "Name: Alice") = lit "D2:3:0-11".
Proof.
  assert (H1 : lit "D2" <> []) by discriminate.
  assert (H2 : Forall (fun c => c <> 58%N) (lit "D2")) by (repeat constructor; discriminate).
  assert (H3 : 0 <= 3) by lia.
  repeat (split; [assumption|]).
  split; [exact (default_provenance_shape (lit "D2") 3 (lit "Name: Alice") H1 H2 H3)|].
  reflexivity.
Defined.

(** ** Fields of a record *)

Lemma str_eqb_eq a : forall b, str_eqb a b = true <-> a = b.
Proof.
  induction a as [|x a IH]; intros [|y b]; cbn [str_eqb]; try (split; congruence).
  rewrite andb_true_iff, N.eqb_eq, IH. split; [intros [-> ->]; reflexivity|].
  intros H. now injection H.
Qed.

Lemma dict_get_set_same k v d : dict_get k (dict_set k v d) = Some v.
Proof.
  assert (Hk : str_eqb k k = true) by now apply str_eqb_eq.
  induction d as [|[k' v'] d IH]; cbn [dict_set dict_get]; [now rewrite Hk|].
  destruct (str_eqb k k') eqn:E; cbn [dict_get]; [now rewrite Hk|]. now rewrite E.
Qed.

Lemma dict_get_set_other k k' v d :
  k' <> k -> dict_get k' (dict_set k v d) = dict_get k' d.
Proof.
  intros Hne.
  assert (Hk : str_eqb k' k = false).
  { destruct (str_eqb k' k) eqn:E; [|reflexivity]. apply str_eqb_eq in E. congruence. }
  induction d as [|[k1 v1] d IH]; cbn [dict_set dict_get]; [now rewrite Hk|].
  destruct (str_eqb k k1) eqn:E; cbn [dict_get].
  - apply str_eqb_eq in E. subst k1. now rewrite Hk.
  - now rewrite IH.
Qed.

Lemma startswith_app p s : startswith p (p ++ s) = true.
Proof. induction p as [|x p IH]; [reflexivity|]. cbn. now rewrite N.eqb_refl. Qed.

Lemma contains_app p a s : contains p (a ++ p ++ s) = true.
Proof.
  induction a as [|c a IH].
  - cbn [app]. destruct (p ++ s) eqn:E; cbn [contains]; rewrite <- E, startswith_app;
      reflexivity.
  - cbn [app contains]. now rewrite IH, orb_true_r.
Qed.

Lemma backfilled_fields doc idx ct d r :
  backfilled doc idx ct d r ->
  (forall k, k <> PROVENANCE -> dict_get k r = dict_get k d) /\
  exists s, dict_get PROVENANCE r = Some (JStr s) /\ contains COLON s = true.
Proof.
  assert (Hdef : forall d0,
             (forall k, k <> PROVENANCE ->
                        dict_get k (default_record doc idx ct d0) = dict_get k d0) /\
             exists s, dict_get PROVENANCE (default_record doc idx ct d0) = Some (JStr s) /\
                       contains COLON s = true).
  { intros d0. unfold default_record. split.
    - intros k Hk. now apply dict_get_set_other.
    - eexists. split; [apply dict_get_set_same|]. unfold default_provenance.
      apply (contains_app COLON doc). }
  intros [d0 H|d0 H|d0 s H Hc|d0 s H Hc]; try apply Hdef.
  split; [reflexivity|]. now exists s.
Qed.

Section BackfillExtras.

Variable gemini : nat -> request -> reply.
Variable json_loads : str -> json + str.
Variable attribute_error : json -> str.
Variable type_error : json -> str.

(** X15. The back-fill touches the provenance only: for a decoded non-empty
    list of records (provenance absent, null or a string) the call returns as
    many records, in the same order, each with every other field as it came
    and with a provenance string that contains a colon. *)
Theorem backfill_keeps_fields chunk_text doc idx off keys api w text ds :
  gemini (length (calls w)) (mk_request doc idx chunk_text keys) = Answer text ->
  json_loads (decoder_input text) = inl (JArr (map JObj ds)) ->
  ds <> [] ->
  Forall provenance_typed ds ->
  exists rs,
    fst (extract_with_gemini gemini json_loads attribute_error type_error
           chunk_text doc idx off keys api w) = Ok rs /\
    Forall2 (fun d r =>
               (forall k, k <> PROVENANCE -> dict_get k r = dict_get k d) /\
               exists s, dict_get PROVENANCE r = Some (JStr s) /\
                         contains COLON s = true) ds rs.
Proof.
  intros Hreply Hdec Hne Htyped.
  destruct (backfill_records attribute_error type_error doc idx chunk_text ds Htyped)
    as (rs & Hrs & Hall).
  exists rs. split.
  - rewrite (extract_answer gemini json_loads attribute_error type_error
               _ _ _ _ _ _ _ _ Hreply).
    unfold decode_and_validate. unfold decoder_input in Hdec. rewrite Hdec.
    assert (Ht : truth (JArr (map JObj ds)) = true) by (now destruct ds).
    rewrite Ht. cbn [negb is_list orb]. now rewrite Hrs.
  - clear Hrs Htyped Hne Hdec. induction Hall as [|d r ds' rs' Hb _ IH]; constructor.
    + exact (backfilled_fields _ _ _ d r Hb).
    + exact IH.
Qed.

End BackfillExtras.

Lemma backfill_keeps_fields_witness :
  let ds := [SampleRun.name_record; SampleRun.age_record;
             SampleRun.city_record; SampleRun.zip_record] in
  let answers := [SampleRun.dumps SampleRun.records] in
  SampleRun.gemini answers (length (calls SampleRun.start))
    (mk_request (lit "D1") 0 SampleRun.alice None)
  = Answer (Some (SampleRun.dumps SampleRun.records)) /\
  SampleRun.json_loads (decoder_input (Some (SampleRun.dumps SampleRun.records)))
  = inl (JArr (map JObj ds)) /\
  ds <> [] /\
  Forall provenance_typed ds /\
  exists rs,
    fst (SampleRun.extract answers SampleRun.alice SampleRun.start) = Ok rs /\
    Forall2 (fun d r =>
               (forall k, k <> PROVENANCE -> dict_get k r = dict_get k d) /\
               exists s, dict_get PROVENANCE r = Some (JStr s) /\
                         contains COLON s = true) ds rs.
Proof.
  intros ds answers.
  assert (H1 : SampleRun.gemini answers (length (calls SampleRun.start))
                 (mk_request (lit "D1") 0 SampleRun.alice None)
               = Answer (Some (SampleRun.dumps SampleRun.records))) by reflexivity.
  assert (H2 : SampleRun.json_loads (decoder_input (Some (SampleRun.dumps SampleRun.records)))
               = inl (JArr (map JObj ds))) by (vm_compute; reflexivity).
  assert (H3 : ds <> []) by discriminate.
  assert (H4 : Forall provenance_typed ds).
  { apply Forall_cons; [now left|].
    apply Forall_cons; [right; right; now exists (lit "line 2")|].
    apply Forall_cons; [right; right; now exists (lit "D1:0:0-18")|].
    apply Forall_cons; [right; right; now exists (lit "see: line 2")|].
    apply Forall_nil. }
  repeat (split; [assumption|]).
  exact (backfill_keeps_fields (SampleRun.gemini answers) SampleRun.json_loads
           SampleRun.attribute_error SampleRun.type_error
           SampleRun.alice (lit "D1") 0 20 None (lit "k") SampleRun.start _ ds H1 H2 H3 H4).
Defined.

(* ================================================================ *)
(** * The readers and the processing loop *)

Lemma nonblank_false s : nonblank s = false <-> blank s = true.
Proof.
  unfold nonblank. rewrite truthy_false. split; [apply strip_nil_blank|apply strip_blank].
Qed.

Lemma filter_nonblank_nil l :
  filter nonblank l = [] <-> Forall (fun s => blank s = true) l.
Proof.
  induction l as [|s l IH]; [split; [constructor|reflexivity]|].
  cbn [filter]. destruct (nonblank s) eqn:E.
  - split; [discriminate|]. intros H. inversion H as [|? ? Hs _]; subst.
    apply nonblank_false in Hs. congruence.
  - rewrite IH. apply nonblank_false in E. split; [now constructor|].
    intros H. now inversion H.
Qed.

Lemma join_nil sep l : Forall (fun s => s <> []) l -> join sep l = [] -> l = [].
Proof.
  intros Hl Hj. destruct l as [|s l]; [reflexivity|].
  inversion Hl as [|? ? Hs _]; subst. exfalso. apply Hs.
  cbn [join] in Hj. destruct l; [exact Hj|]. now apply app_eq_nil in Hj.
Qed.

Lemma join_In sep p l : In p l -> exists a b, join sep l = a ++ p ++ b.
Proof.
  induction l as [|s l IH]; intros Hin; [destruct Hin|].
  destruct l as [|s' l].
  - destruct Hin as [->|[]]. exists [], []. cbn [join app]. now rewrite app_nil_r.
  - change (join sep (s :: s' :: l)) with (s ++ sep ++ join sep (s' :: l)).
    destruct Hin as [->|Hin].
    + exists [], (sep ++ join sep (s' :: l)). reflexivity.
    + destruct (IH Hin) as (a & b & ->). exists (s ++ sep ++ a), b.
      now rewrite <- !app_assoc.
Qed.

Lemma nonblank_parts l : Forall (fun s => s <> []) (filter nonblank l).
Proof.
  apply Forall_forall. intros s Hs. apply filter_In in Hs as [_ Hs].
  intros ->. discriminate.
Qed.

Lemma parts_text_nil l : join [LF] (filter nonblank l) = [] <-> Forall (fun s => blank s = true) l.
Proof.
  rewrite <- filter_nonblank_nil. split.
  - apply join_nil, nonblank_parts.
  - now intros ->.
Qed.

Lemma parts_text_keeps l part :
  In part l -> nonblank part = true ->
  exists a b, join [LF] (filter nonblank l) = a ++ part ++ b.
Proof. intros Hin Hn. apply join_In, filter_In. now split. Qed.

Lemma docx_text_parts doc :
  docx_text doc
  = join [LF] (filter nonblank (doc_paragraphs doc ++ concat (concat (doc_tables doc)))).
Proof. unfold docx_text. now rewrite filter_app. Qed.

(** X18. The text of a word-processor document loses no content: every
    paragraph and table cell that is not blank stands in it, whole; and the
    text is empty exactly when all paragraphs and cells are blank. *)
Theorem docx_text_complete (doc : docx) :
  (forall part,
      In part (doc_paragraphs doc ++ concat (concat (doc_tables doc))) ->
      nonblank part = true ->
      exists a b, docx_text doc = a ++ part ++ b) /\
  (docx_text doc = [] <->
   Forall (fun s => blank s = true)
          (doc_paragraphs doc ++ concat (concat (doc_tables doc)))).
Proof.
  rewrite docx_text_parts. split.
  - intros part. apply parts_text_keeps.
  - apply parts_text_nil.
Qed.

(** X19. The text of a portable document holds the text of every page that
    is not blank, whole; it is empty exactly when all pages are blank. *)
Theorem pdf_text_complete (pages : list str) :
  (forall page, In page pages -> nonblank page = true ->
                exists a b, pdf_text pages = a ++ page ++ b) /\
  (pdf_text pages = [] <-> Forall (fun s => blank s = true) pages).
Proof.
  unfold pdf_text. split.
  - intros page. apply parts_text_keeps.
  - apply parts_text_nil.
Qed.

Lemma nonblank_not_blank l : nonblank l = negb (blank l).
Proof.
  destruct (nonblank l) eqn:E, (blank l) eqn:B; try reflexivity.
  - apply nonblank_false in B. congruence.
  - apply nonblank_false in E. congruence.
Qed.

Lemma strip_stripped l : stripped l (strip l).
Proof. split; [apply strip_clean|apply strip_split]. Qed.

Lemma stripped_nonblank l k : stripped l k -> blank l = false -> k <> [].
Proof.
  intros (_ & a & b & -> & Ha & Hb) Hl ->. unfold blank in *.
  rewrite !forallb_app, Ha, Hb in Hl. discriminate.
Qed.

(** X20. An empty key field gives no key list. Any other field is a
    sequence of lines (the pieces between its line feeds), and the priority
    keys passed on are exactly its lines that are not blank, in their order,
    each without the white space at its ends: so none is empty, none has
    white space at its ends or a line feed inside. *)
Theorem keys_list_clean (custom_keys : str) :
  (keys_list custom_keys = None <-> custom_keys = []) /\
  forall keys, keys_list custom_keys = Some keys ->
    exists lines,
      custom_keys = join [LF] lines /\
      Forall (Forall (fun c => c <> LF)) lines /\
      Forall2 stripped (filter (fun l => negb (blank l)) lines) keys /\
      Forall (fun k => k <> [] /\ clean k /\ Forall (fun c => c <> LF) k) keys.
Proof.
  unfold keys_list. split.
  - destruct custom_keys; cbn [truthy]; split; congruence.
  - destruct (truthy custom_keys); [|discriminate].
    intros keys H. injection H as <-. exists (split_lines custom_keys).
    pose proof (split_lines_LF_free custom_keys) as Hfree.
    rewrite (filter_ext nonblank (fun l => negb (blank l)) nonblank_not_blank).
    split; [symmetry; apply join_split_lines|]. split; [exact Hfree|].
    assert (Hin : forall l, In l (filter (fun l => negb (blank l)) (split_lines custom_keys)) ->
                            Forall (fun c => c <> LF) l /\ blank l = false).
    { intros l Hl. apply filter_In in Hl as [Hl Hb]. rewrite Forall_forall in Hfree.
      split; [now apply Hfree|now apply negb_true_iff]. }
    split.
    + clear Hin. induction (filter _ (split_lines custom_keys)) as [|l ls IH];
        cbn [map]; constructor; [apply strip_stripped|exact IH].
    + apply Forall_forall. intros k Hk. apply in_map_iff in Hk as (l & <- & Hl).
      destruct (Hin l Hl) as [Hf Hb].
      split; [exact (stripped_nonblank l _ (strip_stripped l) Hb)|].
      split; [apply strip_clean|now apply strip_Forall].
Qed.

Lemma keys_list_clean_witness :
  let custom_keys := lit " Name " ++ [LF] ++ lit "  " ++ [LF] ++ lit "Email" in
  keys_list custom_keys = Some [lit "Name"; lit "Email"] /\
  exists lines,
    custom_keys = join [LF] lines /\
    Forall (Forall (fun c => c <> LF)) lines /\
    Forall2 stripped (filter (fun l => negb (blank l)) lines) [lit "Name"; lit "Email"] /\
    Forall (fun k => k <> [] /\ clean k /\ Forall (fun c => c <> LF) k)
           [lit "Name"; lit "Email"].
Proof.
  intros custom_keys.
  assert (H : keys_list custom_keys = Some [lit "Name"; lit "Email"]) by reflexivity.
  split; [exact H|]. exact (proj2 (keys_list_clean custom_keys) _ H).
Defined.

Lemma docx_text_complete_witness :
  In (lit "France")
     (doc_paragraphs SampleApp.sample_docx ++ concat (concat (doc_tables SampleApp.sample_docx))) /\
  nonblank (lit "France") = true /\
  exists a b, docx_text SampleApp.sample_docx = a ++ lit "France" ++ b.
Proof.
  assert (H1 : In (lit "France")
                 (doc_paragraphs SampleApp.sample_docx
                  ++ concat (concat (doc_tables SampleApp.sample_docx))))
    by (cbn; do 6 right; left; reflexivity).
  assert (H2 : nonblank (lit "France") = true) by reflexivity.
  repeat (split; [assumption|]).
  exact (proj1 (docx_text_complete SampleApp.sample_docx) (lit "France") H1 H2).
Defined.

Lemma pdf_text_complete_witness :
  let pages := [lit "Page one"; [LF; SP]; lit "Page three"] in
  In (lit "Page three") pages /\
  nonblank (lit "Page three") = true /\
  exists a b, pdf_text pages = a ++ lit "Page three" ++ b.
Proof.
  intros pages.
  assert (H1 : In (lit "Page three") pages) by (cbn; do 2 right; left; reflexivity).
  assert (H2 : nonblank (lit "Page three") = true) by reflexivity.
  repeat (split; [assumption|]).
  exact (proj1 (pdf_text_complete pages) (lit "Page three") H1 H2).
Defined.

Lemma normalize_text_shape nfkc pw t :
  clean (normalize_text nfkc pw t) /\
  no_triple (normalize_text nfkc pw t) = true /\
  Forall tidy_line (split_lines (normalize_text nfkc pw t)).
Proof.
  rewrite normalize_text_tidy. unfold tidy.
  destruct (tidy_lines_normal (replace_cr (replace_crlf (filter (keep pw) (nfkc t)))))
    as (Hl & Ht & Hc).
  repeat split; try assumption; try apply Hc.
  eapply Forall_impl; [|exact Hl]. intros l. apply normal_tidy_line.
Qed.

Lemma chunk_doc_ids text doc chunk_size overlap :
  Forall (fun c => doc_id c = doc) (preprocess_and_chunk text doc chunk_size overlap).
Proof.
  destruct (paragraphs (strip text)) as [|p0 ps0] eqn:Eps.
  - rewrite (chunk_none text doc chunk_size overlap Eps). now repeat constructor.
  - destruct (chunk_some text doc chunk_size overlap) as (raws & -> & _); [now rewrite Eps|].
    apply Forall_map, Forall_forall. now intros r _.
Qed.

Lemma tag_row v d :
  dict_set SOURCE_FILE v (project d) = project d ++ [(SOURCE_FILE, v)].
Proof. reflexivity. Qed.

Section AppRun.

Variable nfkc : str -> str.
Variable printable_wide : N -> bool.
Variable lower : str -> str.
Variable utf8_decode : list N -> option str.
Variable open_docx : list N -> docx + raised.
Variable open_pdf : list N -> list str + raised.
Variable gemini : nat -> request -> reply.
Variable json_loads : str -> json + str.
Variable attribute_error : json -> str.
Variable type_error : json -> str.

Let read := extract_text_from_file nfkc printable_wide lower utf8_decode open_docx open_pdf.
Let parse := parse_key_value_pairs gemini json_loads attribute_error type_error.
Let run_files :=
  process_files nfkc printable_wide lower utf8_decode open_docx open_pdf
    gemini json_loads attribute_error type_error.
Let run :=
  process nfkc printable_wide lower utf8_decode open_docx open_pdf
    gemini json_loads attribute_error type_error.

(** X21. A file is read only when the last dot-separated part of its name,
    in lower case, is txt, docx or pdf, and the text returned is always in
    the normalizer's form: no white space at its ends, no three line feeds in
    a row, every line tidy. *)
Theorem extracted_text_shape (file : upload) (t : str) :
  read file = Ok t ->
  (file_extension lower file = lit "txt" \/ file_extension lower file = lit "docx" \/
   file_extension lower file = lit "pdf") /\
  clean t /\ no_triple t = true /\ Forall tidy_line (split_lines t).
Proof.
  unfold read, extract_text_from_file. intros H.
  assert (Hext : file_extension lower file = lit "txt" \/
                 file_extension lower file = lit "docx" \/
                 file_extension lower file = lit "pdf").
  { destruct (str_eqb (file_extension lower file) (lit "txt")) eqn:E1;
      [left; now apply str_eqb_eq|].
    destruct (str_eqb (file_extension lower file) (lit "docx")) eqn:E2;
      [right; left; now apply str_eqb_eq|].
    destruct (str_eqb (file_extension lower file) (lit "pdf")) eqn:E3;
      [right; right; now apply str_eqb_eq|discriminate]. }
  split; [exact Hext|].
  destruct (if str_eqb _ _ then _ else _) as [raw|e]; [|discriminate].
  injection H as <-. apply normalize_text_shape.
Qed.

Lemma parse_ok_rows text api keys method doc w rows :
  fst (parse text api keys method doc w) = Ok rows ->
  exists all, rows = map project all.
Proof.
  unfold parse, parse_key_value_pairs. destruct (negb (truthy api)); [discriminate|].
  unfold bind. destruct (extract_chunks _ _ _ _ _ _ _ _ w) as [[all|e] w1];
    cbn [fst ret]; [|discriminate].
  intros H. injection H as <-. exists all. apply convert_map.
Qed.

Lemma parse_calls_doc text api keys method doc w :
  exists new,
    calls (snd (parse text api keys method doc w)) = calls w ++ new /\
    Forall (fun r => req_doc_id r = doc) new.
Proof.
  unfold parse, parse_key_value_pairs. destruct (negb (truthy api)).
  - exists []. cbn. now rewrite app_nil_r.
  - destruct (run_chunks_requests gemini json_loads attribute_error type_error
                keys api (preprocess_and_chunk text doc 2000 200) [] w)
      as (n & _ & Hcalls & _).
    exists (map (request_of keys) (firstn n (preprocess_and_chunk text doc 2000 200))).
    split.
    + unfold bind.
      destruct (extract_chunks _ _ _ _ _ _ _ _ w) as [[all|e] w1]; exact Hcalls.
    + apply Forall_map. pose proof (chunk_doc_ids text doc 2000 200) as Hd.
      rewrite Forall_forall in *. intros c Hc. apply Hd.
      rewrite <- (firstn_skipn n (preprocess_and_chunk text doc 2000 200)).
      apply in_or_app. now left.
Qed.

Lemma run_files_rows custom_keys api files : forall idx acc w rows,
  fst (run_files custom_keys api files idx acc w) = Ok rows ->
  exists counts tagged,
    rows = acc ++ tagged /\
    length counts = length files /\
    Forall (fun row =>
              map fst row = [lit "key"; lit "value"; lit "comments"; SOURCE_FILE]) tagged /\
    map (dict_get SOURCE_FILE) tagged
    = concat (map (fun fn => repeat (Some (JStr (name (fst fn)))) (snd fn))
                  (combine files counts)).
Proof.
  induction files as [|file files IH]; intros idx acc w rows.
  - cbn. intros H. injection H as <-. exists [], []. rewrite app_nil_r. auto.
  - unfold run_files in *. cbn [process_files].
    destruct (extract_text_from_file _ _ _ _ _ _ file) as [text|e]; [|discriminate].
    unfold bind.
    pose proof (parse_ok_rows text api (keys_list custom_keys) (lit "Gemini LLM")
                  (lit "D" ++ str_of_Z idx) w) as Hp.
    unfold parse in Hp.
    destruct (parse_key_value_pairs _ _ _ _ _ _ _ _ _ w) as [[frows|e] w1];
      [|discriminate].
    destruct (Hp frows eq_refl) as (all & ->). intros H.
    destruct (IH _ _ _ _ H) as (counts & tagged & -> & Hlen & Hcols & Hsrc).
    exists (length all :: counts),
           (map (dict_set SOURCE_FILE (JStr (name file))) (map project all) ++ tagged).
    split; [now rewrite <- app_assoc|]. split; [cbn [length]; now rewrite Hlen|]. split.
    + apply Forall_app; split; [|exact Hcols].
      rewrite map_map. apply Forall_map, Forall_forall. intros d _.
      now rewrite tag_row.
    + rewrite map_app, Hsrc. cbn [combine map concat fst snd]. f_equal.
      rewrite !map_map. clear. induction all as [|d all IHa]; [reflexivity|].
      cbn [map length repeat]. now rewrite IHa, tag_row.
Qed.

(** X22. When the files are processed without error, every row has the
    columns key, value, comments and source_file, its source file is the name
    of an uploaded file, and the rows of a file stand together, the files in
    upload order. *)
Theorem processed_rows_grouped custom_keys api files w rows :
  fst (run custom_keys api files w) = Ok rows ->
  Forall (fun row =>
            map fst row = [lit "key"; lit "value"; lit "comments"; SOURCE_FILE]) rows /\
  exists counts,
    length counts = length files /\
    map (dict_get SOURCE_FILE) rows
    = concat (map (fun fn => repeat (Some (JStr (name (fst fn)))) (snd fn))
                  (combine files counts)).
Proof.
  intros H. destruct (run_files_rows custom_keys api files 1 [] w rows H)
    as (counts & tagged & -> & Hlen & Hcols & Hsrc).
  split; [exact Hcols|]. now exists counts.
Qed.

Lemma run_files_calls custom_keys api files : forall idx acc w,
  exists new,
    calls (snd (run_files custom_keys api files idx acc w)) = calls w ++ new /\
    Forall (fun r => exists i, idx <= i < idx + len files /\
                               req_doc_id r = lit "D" ++ str_of_Z i) new.
Proof.
  induction files as [|file files IH]; intros idx acc w.
  - exists []. cbn. now rewrite app_nil_r.
  - unfold run_files in *. cbn [process_files].
    pose proof (len_nonneg files) as Hf.
    destruct (extract_text_from_file _ _ _ _ _ _ file) as [text|e].
    + unfold bind.
      destruct (parse_calls_doc text api (keys_list custom_keys) (lit "Gemini LLM")
                  (lit "D" ++ str_of_Z idx) w) as (new1 & Hc1 & Hd1).
      unfold parse in Hc1.
      destruct (parse_key_value_pairs _ _ _ _ _ _ _ _ _ w) as [[frows|e] w1];
        cbn [snd] in Hc1.
      * destruct (IH (idx + 1) (acc ++ map (dict_set SOURCE_FILE (JStr (name file))) frows) w1)
          as (new2 & Hc2 & Hd2).
        exists (new1 ++ new2). split; [now rewrite Hc2, Hc1, <- app_assoc|].
        apply Forall_app; split.
        -- eapply Forall_impl; [|exact Hd1]. intros r Hr. exists idx.
           rewrite len_cons. split; [lia|exact Hr].
        -- eapply Forall_impl; [|exact Hd2]. intros r (i & Hi & Hr). exists i.
           rewrite len_cons. split; [lia|exact Hr].
      * exists new1. split; [exact Hc1|].
        eapply Forall_impl; [|exact Hd1]. intros r Hr. exists idx.
        rewrite len_cons. split; [lia|exact Hr].
    + exists []. cbn. now rewrite app_nil_r.
Qed.

(** X23. Every request sent while the files are processed carries a document
    identifier [D<i>], [i] being the position (from 1) of an uploaded
    file. *)
Theorem processed_doc_ids custom_keys api files w :
  exists new,
    calls (snd (run custom_keys api files w)) = calls w ++ new /\
    Forall (fun r => exists i, 1 <= i <= len files /\
                               req_doc_id r = lit "D" ++ str_of_Z i) new.
Proof.
  destruct (run_files_calls custom_keys api files 1 [] w) as (new & Hc & Hd).
  exists new. split; [exact Hc|].
  eapply Forall_impl; [|exact Hd]. intros r (i & Hi & Hr). exists i. split; [lia|exact Hr].
Qed.

Lemma run_files_readable custom_keys api files : forall idx acc w rows,
  fst (run_files custom_keys api files idx acc w) = Ok rows ->
  Forall (fun file => exists t, read file = Ok t) files.
Proof.
  induction files as [|file files IH]; intros idx acc w rows; [constructor|].
  unfold run_files, read in *. cbn [process_files].
  destruct (extract_text_from_file _ _ _ _ _ _ file) as [text|e] eqn:E; [|discriminate].
  unfold bind.
  destruct (parse_key_value_pairs _ _ _ _ _ _ _ _ _ w) as [[frows|e] w1]; [|discriminate].
  intros H. constructor; [now exists text|]. exact (IH _ _ _ _ H).
Qed.

(** X24. Processing is all or nothing over the uploaded files: when it
    returns rows, every file had one of the extensions txt, docx, pdf (a
    single unsupported or unreadable file leaves no rows at all). *)
Theorem processed_files_supported custom_keys api files w rows :
  fst (run custom_keys api files w) = Ok rows ->
  Forall (fun file =>
            file_extension lower file = lit "txt" \/
            file_extension lower file = lit "docx" \/
            file_extension lower file = lit "pdf") files.
Proof.
  intros H. pose proof (run_files_readable custom_keys api files 1 [] w rows H) as Hr.
  eapply Forall_impl; [|exact Hr]. intros file (t & Ht).
  unfold read, extract_text_from_file in Ht.
  destruct (str_eqb (file_extension lower file) (lit "txt")) eqn:E1;
    [left; now apply str_eqb_eq|].
  destruct (str_eqb (file_extension lower file) (lit "docx")) eqn:E2;
    [right; left; now apply str_eqb_eq|].
  destruct (str_eqb (file_extension lower file) (lit "pdf")) eqn:E3;
    [right; right; now apply str_eqb_eq|discriminate].
Qed.

End AppRun.

Lemma extracted_text_shape_witness :
  SampleApp.extract_text SampleApp.notes_txt
  = Ok (lit "Name: Alice" ++ [LF; LF] ++ lit "Age: 30") /\
  (file_extension SampleApp.lower SampleApp.notes_txt = lit "txt" \/
   file_extension SampleApp.lower SampleApp.notes_txt = lit "docx" \/
   file_extension SampleApp.lower SampleApp.notes_txt = lit "pdf") /\
  clean (lit "Name: Alice" ++ [LF; LF] ++ lit "Age: 30") /\
  no_triple (lit "Name: Alice" ++ [LF; LF] ++ lit "Age: 30") = true /\
  Forall tidy_line (split_lines (lit "Name: Alice" ++ [LF; LF] ++ lit "Age: 30")).
Proof.
  assert (H : SampleApp.extract_text SampleApp.notes_txt
              = Ok (lit "Name: Alice" ++ [LF; LF] ++ lit "Age: 30"))
    by (vm_compute; reflexivity).
  split; [exact H|].
  exact (extracted_text_shape UnicodeSample.nfkc UnicodeSample.printable_wide
           SampleApp.lower SampleApp.utf8_decode SampleApp.open_docx SampleApp.open_pdf
           SampleApp.notes_txt _ H).
Defined.

Lemma processed_rows_grouped_witness :
  let answers := [SampleRun.dumps SampleRun.records; lit "[]"] in
  let files := [SampleApp.notes_txt; SampleApp.report_docx] in
  let run := SampleApp.process answers (lit "") (lit "k") files SampleRun.start in
  let rows := match fst run with Ok r => r | Raise _ => [] end in
  fst run = Ok rows /\
  length rows = 4%nat /\
  Forall (fun row =>
            map fst row = [lit "key"; lit "value"; lit "comments"; SOURCE_FILE]) rows /\
  exists counts,
    length counts = length files /\
    map (dict_get SOURCE_FILE) rows
    = concat (map (fun fn => repeat (Some (JStr (name (fst fn)))) (snd fn))
                  (combine files counts)).
Proof.
  intros answers files run rows.
  assert (H : fst run = Ok rows) by (vm_compute; reflexivity).
  split; [exact H|]. split; [vm_compute; reflexivity|].
  exact (processed_rows_grouped UnicodeSample.nfkc UnicodeSample.printable_wide
           SampleApp.lower SampleApp.utf8_decode SampleApp.open_docx SampleApp.open_pdf
           (SampleRun.gemini answers) SampleRun.json_loads SampleRun.attribute_error
           SampleRun.type_error (lit "") (lit "k") files SampleRun.start rows H).
Defined.

Lemma processed_files_supported_witness :
  let answers := [SampleRun.dumps SampleRun.records; lit "[]"] in
  let files := [SampleApp.notes_txt; SampleApp.report_docx] in
  let run := SampleApp.process answers (lit "") (lit "k") files SampleRun.start in
  let rows := match fst run with Ok r => r | Raise _ => [] end in
  fst run = Ok rows /\
  Forall (fun file =>
            file_extension SampleApp.lower file = lit "txt" \/
            file_extension SampleApp.lower file = lit "docx" \/
            file_extension SampleApp.lower file = lit "pdf") files.
Proof.
  intros answers files run rows.
  assert (H : fst run = Ok rows) by (vm_compute; reflexivity).
  split; [exact H|].
  exact (processed_files_supported UnicodeSample.nfkc UnicodeSample.printable_wide
           SampleApp.lower SampleApp.utf8_decode SampleApp.open_docx SampleApp.open_pdf
           (SampleRun.gemini answers) SampleRun.json_loads SampleRun.attribute_error
           SampleRun.type_error (lit "") (lit "k") files SampleRun.start rows H).
Defined.

(* ================================================================ *)
(** * Chunk texts, decoded items, failures of the model *)

Lemma join_last sep l : l <> [] -> exists a, join sep l = a ++ last l [].
Proof.
  induction l as [|s l IH]; intros Hne; [congruence|].
  destruct l as [|s' l]; [now exists []|].
  destruct IH as (a & Ha); [discriminate|].
  exists (s ++ sep ++ a).
  change (join sep (s :: s' :: l)) with (s ++ sep ++ join sep (s' :: l)).
  rewrite Ha, <- !app_assoc. reflexivity.
Qed.

Lemma clean_join g : g <> [] -> Forall para_ok g -> clean (join NN g) /\ join NN g <> [].
Proof.
  intros Hne Hall.
  assert (Hhead : exists c x, join NN g = c :: x /\ isspace c = false).
  { destruct g as [|p g]; [congruence|]. inversion Hall as [|? ? (Hp & Hc & _) _]; subst.
    destruct p as [|c p]; [congruence|]. apply clean_head in Hc.
    destruct g as [|q g]; [now exists c, p|]. now exists c, (p ++ NN ++ join NN (q :: g)). }
  assert (Htail : exists x d, join NN g = x ++ [d] /\ isspace d = false).
  { destruct (join_last NN g Hne) as (a & Ha).
    assert (Hl : para_ok (last g [])).
    { rewrite Forall_forall in Hall. apply Hall.
      destruct (exists_last Hne) as (g' & q & ->). rewrite last_last.
      apply in_or_app. right. now left. }
    destruct Hl as (Hq & Hc & _). destruct (exists_last Hq) as (q' & d & Eq).
    rewrite Eq in Hc. apply clean_last in Hc.
    exists (a ++ q'), d. now rewrite Ha, Eq, <- app_assoc. }
  destruct Hhead as (c & x & Hx & Hc), Htail as (y & d & Hy & Hd). split.
  - split; [rewrite Hx; now apply dropwhile_id|rewrite Hy; now apply rstrip_snoc].
  - rewrite Hx. discriminate.
Qed.

(** X25. Unless the whole text is blank, no chunk is empty: every chunk's
    text is non-empty and has no white space at its ends. *)
Theorem chunk_texts_clean (text doc : str) (chunk_size overlap : Z) :
  strip text <> [] ->
  Forall (fun c => Chunker.text c <> [] /\ clean (Chunker.text c))
         (preprocess_and_chunk text doc chunk_size overlap).
Proof.
  intros Hne.
  assert (Hps : paragraphs (strip text) <> []).
  { intros E. apply Hne. now apply paragraphs_nil_strip. }
  destruct (chunk_some text doc chunk_size overlap Hps) as (raws & -> & _ & Hg & _).
  apply Forall_map. eapply Forall_impl; [|exact Hg]. intros r Hr.
  cbn [to_chunk Chunker.text].
  destruct (clean_join (group r)) as [Hc Hn].
  - apply Hr.
  - exact (group_ok_paras _ r (paragraphs_ok _) Hr).
  - now split.
Qed.

Lemma chunk_texts_clean_witness :
  let t := [SP; LF] ++ lit "ab" ++ [LF; LF; LF; SP] ++ lit "cd" ++ [LF] in
  strip t <> [] /\
  preprocess_and_chunk t (lit "D1") 3 200
  = [mk_chunk (lit "ab") (lit "D1") 0 4; mk_chunk (lit "cd") (lit "D1") 1 8] /\
  Forall (fun c => Chunker.text c <> [] /\ clean (Chunker.text c))
         (preprocess_and_chunk t (lit "D1") 3 200).
Proof.
  intros t.
  assert (H : strip t <> []) by (vm_compute; discriminate).
  split; [exact H|]. split; [vm_compute; reflexivity|].
  exact (chunk_texts_clean t (lit "D1") 3 200 H).
Defined.

Lemma backfill_ok_records ae te doc idx ct items : forall rs,
  backfill ae te doc idx ct items = inl rs ->
  forallb (fun x => match x with JObj _ => true | _ => false end) items = true /\
  length rs = length items.
Proof.
  induction items as [|item items IH]; intros rs H.
  - injection H as <-. now split.
  - cbn [backfill] in H.
    destruct (backfill_item ae te doc idx ct item) as [d|e] eqn:Ei; [|discriminate].
    destruct (backfill ae te doc idx ct items) as [ds|e]; [|discriminate].
    injection H as <-. destruct (IH ds eq_refl) as [Hall Hlen].
    split; [|cbn [length]; now rewrite Hlen].
    cbn [forallb]. rewrite Hall, andb_true_r.
    destruct item; try discriminate Ei. reflexivity.
Qed.

Section CallExtras.

Variable gemini : nat -> request -> reply.
Variable json_loads : str -> json + str.
Variable attribute_error : json -> str.
Variable type_error : json -> str.

Let extract := extract_with_gemini gemini json_loads attribute_error type_error.

(** X26. A call never drops or skips a decoded item: when the response
    decodes to a non-empty list and the call returns records, every item of
    the list is a record and as many records are returned. *)
Theorem extract_ok_records chunk_text doc idx off keys api w text item items rs :
  gemini (length (calls w)) (mk_request doc idx chunk_text keys) = Answer text ->
  json_loads (decoder_input text) = inl (JArr (item :: items)) ->
  fst (extract chunk_text doc idx off keys api w) = Ok rs ->
  list_of_records (JArr (item :: items)) = true /\
  length rs = length (item :: items).
Proof.
  intros Hreply Hdec. unfold extract.
  rewrite (extract_answer gemini json_loads attribute_error type_error
             _ _ _ _ _ _ _ _ Hreply).
  unfold decode_and_validate. unfold decoder_input in Hdec. rewrite Hdec.
  cbn [truth truthy negb is_list orb].
  destruct (backfill _ _ _ _ _ (item :: items)) as [ds|e] eqn:Eb; [|discriminate].
  cbn [ret fst]. intros H. injection H as <-.
  exact (backfill_ok_records _ _ _ _ _ _ _ Eb).
Qed.

(** X27. When the call to the model raises, the call raises too, after the
    request was recorded and without a warning: a message that mentions an
    invalid key gives a [ValueError] with the fixed key advice; otherwise a
    message that mentions an invalid argument gives the [ValueError]
    "Invalid API request: " followed by the message; any other message
    gives the plain exception "Gemini API call failed: " followed by the
    message. *)
Theorem model_failure_reported chunk_text doc idx off keys api w msg :
  gemini (length (calls w)) (mk_request doc idx chunk_text keys) = Fails (OtherError msg) ->
  extract chunk_text doc idx off keys api w
  = (Raise
       (if contains (lit "API key not valid") msg || contains (lit "API_KEY_INVALID") msg
        then ValueError
               (lit "Invalid Gemini API key. Please check your API key and try again."
                ++ [LF; LF] ++ lit "To get a valid API key:"
                ++ [LF] ++ lit "1. Go to https://aistudio.google.com/app/apikey"
                ++ [LF] ++ lit "2. Create or copy your API key"
                ++ [LF] ++ lit "3. Paste it in the sidebar")
        else if contains (lit "INVALID_ARGUMENT") msg
        then ValueError (lit "Invalid API request: " ++ msg)
        else PlainException (lit "Gemini API call failed: " ++ msg)),
     mk_world (calls w ++ [mk_request doc idx chunk_text keys]) (warnings w)).
Proof.
  intros Hreply. unfold extract, extract_with_gemini. rewrite Hreply.
  cbn [handle]. unfold other_failure, invalid_key_message. reflexivity.
Qed.

End CallExtras.

Lemma extract_ok_records_witness :
  let answers := [SampleRun.dumps SampleRun.records] in
  let run := SampleRun.extract answers SampleRun.alice SampleRun.start in
  let rs := match fst run with Ok r => r | Raise _ => [] end in
  let items := [JObj SampleRun.age_record; JObj SampleRun.city_record; JObj SampleRun.zip_record] in
  SampleRun.gemini answers (length (calls SampleRun.start))
    (mk_request (lit "D1") 0 SampleRun.alice None)
  = Answer (Some (SampleRun.dumps SampleRun.records)) /\
  SampleRun.json_loads (decoder_input (Some (SampleRun.dumps SampleRun.records)))
  = inl (JArr (JObj SampleRun.name_record :: items)) /\
  fst run = Ok rs /\
  list_of_records (JArr (JObj SampleRun.name_record :: items)) = true /\
  length rs = length (JObj SampleRun.name_record :: items).
Proof.
  intros answers run rs items.
  assert (H1 : SampleRun.gemini answers (length (calls SampleRun.start))
                 (mk_request (lit "D1") 0 SampleRun.alice None)
               = Answer (Some (SampleRun.dumps SampleRun.records))) by reflexivity.
  assert (H2 : SampleRun.json_loads (decoder_input (Some (SampleRun.dumps SampleRun.records)))
               = inl (JArr (JObj SampleRun.name_record :: items))) by (vm_compute; reflexivity).
  assert (H3 : fst run = Ok rs) by (vm_compute; reflexivity).
  repeat (split; [assumption|]).
  exact (extract_ok_records (SampleRun.gemini answers) SampleRun.json_loads
           SampleRun.attribute_error SampleRun.type_error
           SampleRun.alice (lit "D1") 0 20 None (lit "k") SampleRun.start _ _ _ rs H1 H2 H3).
Defined.

Lemma model_failure_reported_witness :
  let msg := lit "400 INVALID_ARGUMENT: contents is empty" in
  let gemini (n : nat) (r : request) := Fails (OtherError msg) in
  let req := mk_request (lit "D1") 0 SampleRun.alice None in
  gemini (length (calls SampleRun.start)) req = Fails (OtherError msg) /\
  contains (lit "API key not valid") msg || contains (lit "API_KEY_INVALID") msg = false /\
  contains (lit "INVALID_ARGUMENT") msg = true /\
  extract_with_gemini gemini SampleRun.json_loads SampleRun.attribute_error
    SampleRun.type_error SampleRun.alice (lit "D1") 0 20 None (lit "k") SampleRun.start
  = (Raise
       (if contains (lit "API key not valid") msg || contains (lit "API_KEY_INVALID") msg
        then ValueError
               (lit "Invalid Gemini API key. Please check your API key and try again."
                ++ [LF; LF] ++ lit "To get a valid API key:"
                ++ [LF] ++ lit "1. Go to https://aistudio.google.com/app/apikey"
                ++ [LF] ++ lit "2. Create or copy your API key"
                ++ [LF] ++ lit "3. Paste it in the sidebar")
        else if contains (lit "INVALID_ARGUMENT") msg
        then ValueError (lit "Invalid API request: " ++ msg)
        else PlainException (lit "Gemini API call failed: " ++ msg)),
     mk_world (calls SampleRun.start ++ [req]) (warnings SampleRun.start)).
Proof.
  intros msg gemini req. split; [reflexivity|].
  split; [vm_compute; reflexivity|]. split; [vm_compute; reflexivity|].
  exact (model_failure_reported gemini SampleRun.json_loads
           SampleRun.attribute_error SampleRun.type_error
           SampleRun.alice (lit "D1") 0 20 None (lit "k") SampleRun.start msg eq_refl).
Defined.

(* ================================================================ *)
(** * Chunks of a normalized text *)

Lemma split_para_cons s : exists h t, split_para s = h :: t.
Proof.
  destruct s as [|c r]; [now exists [], []|].
  destruct (split_para_head c r) as (h & t & Hs & _). now exists h, t.
Qed.

Lemma join_NN_cons_head c h t : join NN ((c :: h) :: t) = c :: join NN (h :: t).
Proof. cbn [join]. now destruct t. Qed.

Lemma join_split_para s : join NN (split_para s) = s.
Proof.
  induction s as [| c | c d r IH1 IH2] using list_ind2; try reflexivity.
  rewrite split_para_cons2. destruct ((c =? LF) && (d =? LF))%N eqn:E.
  - apply andb_true_iff in E as [Ec Ed]. apply N.eqb_eq in Ec, Ed. subst.
    destruct (split_para_cons r) as (h & t & Hs). rewrite Hs in *.
    change (join NN ([] :: h :: t)) with (LF :: LF :: join NN (h :: t)).
    do 2 f_equal. exact IH1.
  - destruct (split_para_cons (d :: r)) as (h & t & Hs). rewrite Hs in *.
    cbn [cons_head]. rewrite join_NN_cons_head. f_equal. exact IH2.
Qed.

Lemma join_infix sep a g b :
  g <> [] -> exists x y, join sep (a ++ g ++ b) = x ++ join sep g ++ y.
Proof.
  intros Hg. destruct g as [|p g]; [congruence|]. clear Hg.
  assert (Hb : exists y, join sep ((p :: g) ++ b) = join sep (p :: g) ++ y).
  { revert p. induction g as [|q g IH]; intros p.
    - destruct b as [|q b]; [exists []; cbn [app join]; now rewrite app_nil_r|].
      exists (sep ++ join sep (q :: b)). reflexivity.
    - destruct (IH q) as (y & Hy). exists y.
      change (join sep ((p :: q :: g) ++ b)) with (p ++ sep ++ join sep ((q :: g) ++ b)).
      change (join sep (p :: q :: g)) with (p ++ sep ++ join sep (q :: g)).
      now rewrite Hy, <- !app_assoc. }
  destruct Hb as (y & Hy).
  induction a as [|s a (x & y' & IH)].
  - exists [], y. exact Hy.
  - destruct (a ++ (p :: g) ++ b) as [|s' l] eqn:E; [now destruct a|].
    exists (s ++ sep ++ x), y'.
    change ((s :: a) ++ (p :: g) ++ b) with (s :: (a ++ (p :: g) ++ b)). rewrite E.
    change (join sep (s :: s' :: l)) with (s ++ sep ++ join sep (s' :: l)).
    now rewrite IH, <- !app_assoc.
Qed.

Lemma clean_of_ends c h :
  isspace c = false -> isspace (last (c :: h) SP) = false -> clean (c :: h).
Proof.
  intros Hc Hl. split; [now apply dropwhile_id|].
  assert (Hne : c :: h <> []) by discriminate.
  destruct (exists_last Hne) as (x & d & E). rewrite E in *.
  rewrite last_last in Hl. now apply rstrip_snoc.
Qed.

Lemma well_spaced_tail c r : well_spaced (c :: r) = true -> well_spaced r = true.
Proof. cbn [well_spaced]. intros H. now apply andb_true_iff in H. Qed.

(** The pieces of a well-spaced text, the first one apart: it is empty when
    the text opens with a separator, and ends without white space
    otherwise. *)
Lemma well_spaced_pieces s :
  well_spaced s = true ->
  exists h t,
    split_para s = h :: t /\ Forall piece_ok t /\
    match s with
    | [] => h = []
    | c :: r =>
        (startswith NN s = true /\ h = []) \/
        (startswith NN s = false /\ exists h', h = c :: h' /\ isspace (last h SP) = false)
    end.
Proof.
  induction s as [| c | c d r IH1 IH2] using list_ind2; intros Hw.
  - exists [], []. repeat split. constructor.
  - exists [c], []. split; [reflexivity|]. split; [constructor|]. right.
    split; [cbn [startswith NN]; apply andb_false_r|]. exists []. split; [reflexivity|].
    cbn in Hw. rewrite andb_true_r in Hw. now apply negb_true_iff in Hw.
  - pose proof (well_spaced_tail _ _ Hw) as Hw1.
    pose proof (well_spaced_tail _ _ Hw1) as Hw2.
    assert (Hhere : spaced_here c (d :: r) = true)
      by (cbn [well_spaced] in Hw; now apply andb_true_iff in Hw).
    rewrite split_para_cons2.
    change (startswith NN (c :: d :: r)) with ((LF =? c) && ((LF =? d) && true))%N.
    rewrite andb_true_r, (N.eqb_sym LF c), (N.eqb_sym LF d).
    destruct ((c =? LF) && (d =? LF))%N eqn:E.
    + apply andb_true_iff in E as [Ec Ed]. apply N.eqb_eq in Ec, Ed. subst c d.
      destruct (IH1 Hw2) as (h & t & Hs & Ht & Hfp).
      exists [], (h :: t). split; [now rewrite Hs|]. split; [|now left].
      constructor; [|exact Ht].
      destruct r as [|e r'].
      { cbn in Hw1. discriminate. }
      cbn [spaced_here] in Hhere.
      destruct (N.eqb_spec e LF) as [->|He]; [discriminate Hhere|].
      change ((LF =? LF) && false)%N with false in Hhere.
      change ((LF =? LF) && (LF =? LF))%N with true in Hhere. cbv iota in Hhere.
      apply negb_true_iff in Hhere.
      destruct Hfp as [[Hst _]|[_ (h' & -> & Hl)]].
      * exfalso. cbn [startswith NN] in Hst. apply andb_true_iff in Hst as [Hst _].
        apply N.eqb_eq in Hst. congruence.
      * split; [discriminate|]. now apply clean_of_ends.
    + destruct (IH2 Hw1) as (h & t & Hs & Ht & Hfp).
      exists (c :: h), t. rewrite Hs. split; [reflexivity|]. split; [exact Ht|].
      right. split; [reflexivity|]. exists h. split; [reflexivity|].
      destruct Hfp as [[Hst ->]|[_ (h' & -> & Hl)]].
      * cbn [last]. destruct r as [|e r']; [cbn in Hst; now rewrite andb_false_r in Hst|].
        cbn [startswith NN] in Hst.
        apply andb_true_iff in Hst as [Hd Hst]. apply andb_true_iff in Hst as [He _].
        apply N.eqb_eq in Hd, He. subst d e. cbn [spaced_here] in Hhere.
        change ((LF =? LF) && (LF =? LF))%N with true in Hhere. cbv iota in Hhere.
        now apply negb_true_iff in Hhere.
      * now rewrite last_cons_default in Hl |- *; rewrite last_cons_default.
Qed.

Lemma split_lines_app u v : split_lines (u ++ LF :: v) = split_lines u ++ split_lines v.
Proof.
  induction u as [|a u IH]; [reflexivity|].
  cbn [app split_lines]. rewrite IH.
  destruct (split_lines_cons u) as (h & t & E). rewrite E.
  now destruct (a =? LF)%N.
Qed.

Lemma line_end_char x c v :
  c <> LF -> Forall tidy_line (split_lines (x ++ c :: LF :: v)) -> isspace c = false.
Proof.
  intros Hc H.
  replace (x ++ c :: LF :: v) with ((x ++ [c]) ++ LF :: v) in H by now rewrite <- app_assoc.
  rewrite split_lines_app, split_lines_snoc in H. apply N.eqb_neq in Hc. rewrite Hc in H.
  apply Forall_app in H as [H _]. unfold snoc_last in H. apply Forall_app in H as [_ H].
  inversion H as [|? ? (Hl & _) _]; subst. exact (clean_last _ _ Hl).
Qed.

Lemma line_start_char x e v :
  e <> LF -> Forall tidy_line (split_lines (x ++ LF :: e :: v)) -> isspace e = false.
Proof.
  intros He H. rewrite split_lines_app in H. apply Forall_app in H as [_ H].
  cbn [split_lines] in H. apply N.eqb_neq in He. rewrite He in H.
  destruct (split_lines_cons v) as (h & t & E). rewrite E in H. cbn [cons_head] in H.
  inversion H as [|? ? (Hl & _) _]; subst. exact (clean_head _ _ Hl).
Qed.

Lemma no_triple_inside x v : no_triple (x ++ LF :: LF :: LF :: v) = true -> False.
Proof.
  intros H. apply no_triple_app in H as [_ H]. cbn in H. discriminate.
Qed.

Lemma well_spaced_normal s : forall x,
  Forall tidy_line (split_lines (x ++ s)) ->
  no_triple (x ++ s) = true ->
  clean (x ++ s) ->
  well_spaced s = true.
Proof.
  induction s as [|c r IH]; intros x Hl Ht Hc; [reflexivity|].
  cbn [well_spaced]. apply andb_true_iff. split.
  - destruct r as [|d [|e r']]; cbn [spaced_here].
    + apply negb_true_iff. exact (clean_last _ _ Hc).
    + reflexivity.
    + destruct (N.eqb_spec d LF) as [->|Hd]; cbn [andb].
      * destruct (N.eqb_spec e LF) as [->|He].
        -- apply negb_true_iff. destruct (N.eqb_spec c LF) as [->|Hc'].
           ++ exfalso. exact (no_triple_inside _ _ Ht).
           ++ exact (line_end_char x c _ Hc' Hl).
        -- rewrite andb_true_r. destruct (N.eqb_spec c LF) as [->|Hc']; [|reflexivity].
           apply negb_true_iff. apply (line_start_char (x ++ [LF]) e r' He).
           now rewrite <- app_assoc.
      * now rewrite andb_false_r.
  - apply (IH (x ++ [c])); now rewrite <- app_assoc.
Qed.

(** The paragraphs of a text in the normalizer's form are its pieces between
    blank lines, as they stand. *)
Lemma normal_paragraphs t :
  clean t -> no_triple t = true -> Forall tidy_line (split_lines t) -> t <> [] ->
  paragraphs (strip t) = split_para t.
Proof.
  intros Hc Ht Hl Hne. rewrite (clean_strip t Hc).
  pose proof (well_spaced_normal t [] Hl Ht Hc) as Hw.
  destruct (well_spaced_pieces t Hw) as (h & tl & Hs & Htl & Hfp).
  destruct t as [|c r]; [congruence|].
  assert (Hsp : isspace c = false) by exact (clean_head _ _ Hc).
  destruct Hfp as [[Hst _]|[_ (h' & -> & Hlast)]].
  { exfalso. cbn [startswith NN] in Hst. apply andb_true_iff in Hst as [Hst _].
    apply N.eqb_eq in Hst. subst c. discriminate. }
  unfold paragraphs. apply strip_filter_id. rewrite Hs.
  pose proof (split_para_nn_free (c :: r)) as Hnn. rewrite Hs in Hnn.
  inversion Hnn as [|? ? Hn1 Hn2]; subst. constructor.
  - split; [discriminate|]. split; [now apply clean_of_ends|exact Hn1].
  - rewrite Forall_forall in *. intros p Hp. destruct (Htl p Hp) as [Hp1 Hp2].
    split; [exact Hp1|]. split; [exact Hp2|]. now apply Hn2.
Qed.

(** X28. Every chunk of a normalized text is a substring of it: the chunk's
    text stands in the normalized text as it is (the chunker's stripping
    changes nothing there). *)
Theorem chunks_are_substrings (nfkc : str -> str) (printable_wide : N -> bool)
    (raw doc : str) (chunk_size overlap : Z) (c : chunk) :
  In c (preprocess_and_chunk (normalize_text nfkc printable_wide raw) doc chunk_size overlap) ->
  exists a b, normalize_text nfkc printable_wide raw = a ++ Chunker.text c ++ b.
Proof.
  destruct (normalize_text_shape nfkc printable_wide raw) as (Hc & Ht & Hl).
  set (t := normalize_text nfkc printable_wide raw) in *. intros Hin.
  destruct t as [|c0 r0] eqn:Et.
  - rewrite (chunk_none [] doc chunk_size overlap eq_refl) in Hin.
    destruct Hin as [<-|[]]. now exists [], [].
  - rewrite <- Et in *.
    assert (Hne : t <> []) by (rewrite Et; discriminate).
    pose proof (normal_paragraphs t Hc Ht Hl Hne) as Hps.
    destruct (chunk_some t doc chunk_size overlap) as (raws & Hcs & _ & Hg & _).
    { rewrite Hps. destruct (split_para_cons t) as (h & tl & ->). discriminate. }
    rewrite Hcs in Hin. apply in_map_iff in Hin as (r & <- & Hr).
    rewrite Forall_forall in Hg. destruct (Hg r Hr) as (Hgne & a & b & Hab & _).
    cbn [to_chunk Chunker.text].
    destruct (join_infix NN a (group r) b Hgne) as (x & y & Hxy).
    exists x, y. rewrite <- Hxy, <- Hab, Hps. symmetry. apply join_split_para.
Qed.

Lemma chunks_are_substrings_witness :
  let raw := [65313; 13; 10; 10; 10; 13; 32; 9; 12288; 98; 32; 9; 32; 99; 32; 10]%N in
  let t := normalize_text UnicodeSample.nfkc UnicodeSample.printable_wide raw in
  let c := mk_chunk (lit "b c") (lit "D1") 1 8 in
  In c (preprocess_and_chunk t (lit "D1") 3 200) /\
  exists a b, t = a ++ Chunker.text c ++ b.
Proof.
  intros raw t c.
  assert (H : In c (preprocess_and_chunk t (lit "D1") 3 200))
    by (vm_compute; right; left; reflexivity).
  split; [exact H|].
  exact (chunks_are_substrings UnicodeSample.nfkc UnicodeSample.printable_wide
           raw (lit "D1") 3 200 c H).
Defined.

(** X5. The offset of a chunk is the number of characters consumed up to the
    end of its last paragraph: the lengths of all paragraphs of the text up
    to that one, each counted with two characters for its separator. *)
Theorem chunk_offset_formula (text doc : str) (chunk_size overlap : Z) (c : chunk) :
  paragraphs (strip text) <> [] ->
  In c (preprocess_and_chunk text doc chunk_size overlap) ->
  offset c
  = consumed (firstn (Z.to_nat (paragraph_index c) + length (chunk_paragraphs c))
                     (paragraphs (strip text))).
Proof.
  intros Hne Hc.
  destruct (chunk_some text doc chunk_size overlap Hne) as (raws & Hcs & _ & Hg & _).
  rewrite Hcs in Hc. apply in_map_iff in Hc as (r & <- & Hr).
  rewrite Forall_forall in Hg. specialize (Hg r Hr).
  rewrite (chunk_paragraphs_to_chunk doc _ r (paragraphs_ok _) Hg).
  destruct Hg as (_ & a & b & Hab & Hs & Ho). cbn [to_chunk offset paragraph_index].
  rewrite Ho, Hs, Hab. unfold len. rewrite Nat2Z.id, app_assoc.
  rewrite <- (length_app a (group r)), firstn_app, Nat.sub_diag, firstn_all.
  cbn [firstn]. now rewrite app_nil_r.
Qed.

Lemma chunk_offset_formula_witness :
  let t := lit "aaa" ++ NN ++ lit "bbb" ++ NN ++ lit "BBBBBBBBBBBB" ++ NN ++ lit "ccccc" in
  let c := mk_chunk (lit "bbb" ++ NN ++ lit "BBBBBBBBBBBB") (lit "D1") 1 24 in
  paragraphs (strip t) <> [] /\
  In c (preprocess_and_chunk t (lit "D1") 10 200) /\
  offset c
  = consumed (firstn (Z.to_nat (paragraph_index c) + length (chunk_paragraphs c))
                     (paragraphs (strip t))).
Proof.
  intros t c.
  assert (H1 : paragraphs (strip t) <> []) by (vm_compute; discriminate).
  assert (H2 : In c (preprocess_and_chunk t (lit "D1") 10 200))
    by (vm_compute; right; left; reflexivity).
  repeat (split; [assumption|]).
  exact (chunk_offset_formula t (lit "D1") 10 200 c H1 H2).
Defined.
